(** * A shallow embedding of the chess rules engine (engine.py, move.py)
    and of its main loop (chessMain.py)

    The engine keeps an 8x8 numpy array of two-character strings, a
    side-to-move flag, a move log and the two king squares.  Python
    exceptions (IndexError on the array, KeyError in the notation tables,
    ValueError of [int] and of [list.remove]) are modelled by [None] in the
    option monad; mutation of [self] is modelled by passing the state. *)

From Stdlib Require Import ZArith String Ascii DecimalString Lia.
From stdpp Require Import base tactics option list strings gmap.

#[local] Set Warnings "-register-all".
#[local] Open Scope Z_scope.

(** ** Python values used by the engine *)

Module Py.

(** Truth value of a string: only the empty string is false. *)
Definition truthy (s : string) : bool := negb (String.eqb s "").

(** [s.startswith(p)]. *)
Definition startswith (s p : string) : bool := String.prefix p s.

(** [s[1]]: raises IndexError on strings shorter than two characters. *)
Definition index1 (s : string) : option string :=
  match String.get 1 s with
  | Some ch => Some (String ch EmptyString)
  | None => None
  end.

(** [f"{n}"] for an integer. *)
Definition str_of_int (n : Z) : string := NilZero.string_of_int (Z.to_int n).

(** [int(s)] on strings made of digits and minus signs: ValueError is
    [None]. *)
Definition int_of_str (s : string) : option Z :=
  option_map Z.of_int (NilZero.int_of_string s).

(** Truth value of an optional integer argument: [None] and [0] are
    false. *)
Definition truthy_int (o : option Z) : bool :=
  match o with
  | Some n => negb (n =? 0)
  | None => false
  end.

(** Index normalisation of a sequence of length [n]: negative indices
    count from the end, anything else outside raises IndexError. *)
Definition norm_index (n : nat) (i : Z) : option nat :=
  if (0 <=? i) && (i <? Z.of_nat n) then Some (Z.to_nat i)
  else if (- Z.of_nat n <=? i) && (i <? 0) then Some (Z.to_nat (i + Z.of_nat n))
  else None.

(** [list.remove(x)] for an equality test [eqb]: drops the first equal
    element, ValueError when there is none. *)
Fixpoint list_remove {A} (eqb : A -> A -> bool) (x : A) (l : list A) : option (list A) :=
  match l with
  | [] => None
  | y :: l' => if eqb y x then Some l' else cons y <$> list_remove eqb x l'
  end.

End Py.

(** ** The board: [np.array] of shape (8, 8) holding strings *)

Abbreviation Board := (list (list string)).

Definition board_get (b : Board) (r c : Z) : option string :=
  i ← Py.norm_index (length b) r;
  row ← b !! i;
  j ← Py.norm_index (length row) c;
  row !! j.

Definition board_set (b : Board) (r c : Z) (v : string) : option Board :=
  i ← Py.norm_index (length b) r;
  row ← b !! i;
  j ← Py.norm_index (length row) c;
  Some (<[i := <[j := v]> row]> b).

(** ** move.py *)

Inductive Move : Type := Build_Move {
  startRow : Z;
  startCol : Z;
  endRow : Z;
  endCol : Z;
  piece_moved : string;
  piece_captured_row : Z;
  piece_captured_col : Z;
  piece_captured : string;
  primary_move : option Move;
  secondary_move : option Move;
  move_id : Z;
  PGN : string
}.

Module MoveM.

Definition rows_to_ranks (row : Z) : option string :=
  if row =? 7 then Some "1" else if row =? 6 then Some "2"
  else if row =? 5 then Some "3" else if row =? 4 then Some "4"
  else if row =? 3 then Some "5" else if row =? 2 then Some "6"
  else if row =? 1 then Some "7" else if row =? 0 then Some "8"
  else None.

Definition cols_to_files (col : Z) : option string :=
  if col =? 0 then Some "a" else if col =? 1 then Some "b"
  else if col =? 2 then Some "c" else if col =? 3 then Some "d"
  else if col =? 4 then Some "e" else if col =? 5 then Some "f"
  else if col =? 6 then Some "g" else if col =? 7 then Some "h"
  else None.

Definition get_piece (board : Board) (row col : Z) : option string :=
  board_get board row col.

Definition get_rank_file (row col : Z) : option string :=
  f ← cols_to_files col;
  r ← rows_to_ranks row;
  Some (f ++ r)%string.

(** [move_notation], on the fields it reads. *)
Definition move_notation (piece_moved : string) (endRow endCol : Z) : option string :=
  piece ← (if Py.truthy piece_moved then Py.index1 piece_moved else Some ""%string);
  rf ← get_rank_file endRow endCol;
  Some (piece ++ rf)%string.

(** [int(f"{startRow}{startCol}{endRow}{endCol}")]. *)
Definition make_id (sr sc er ec : Z) : option Z :=
  Py.int_of_str
    (Py.str_of_int sr ++ Py.str_of_int sc ++ Py.str_of_int er ++ Py.str_of_int ec)%string.

(** [Move.__init__]. *)
Definition init (board : Board) (start end_ : Z * Z)
    (captured_row captured_col : option Z)
    (primary secondary : option Move) : option Move :=
  let '(sr, sc) := start in
  let '(er, ec) := end_ in
  pm ← get_piece board sr sc;
  let cr := if Py.truthy_int captured_row then default er captured_row else er in
  let cc := if Py.truthy_int captured_col then default ec captured_col else ec in
  pc ← get_piece board cr cc;
  id ← make_id sr sc er ec;
  pgn ← move_notation pm er ec;
  Some (Build_Move sr sc er ec pm cr cc pc primary secondary id pgn).

(** [Move.__eq__] between two moves. *)
Definition eqb (m1 m2 : Move) : bool := move_id m1 =? move_id m2.

(** Assignment [move.PGN = label]. *)
Definition set_PGN (label : string) (m : Move) : Move :=
  Build_Move (startRow m) (startCol m) (endRow m) (endCol m) (piece_moved m)
    (piece_captured_row m) (piece_captured_col m) (piece_captured m)
    (primary_move m) (secondary_move m) (move_id m) label.

Definition ranks_to_rows (rank : string) : option Z :=
  if String.eqb rank "1" then Some 7 else if String.eqb rank "2" then Some 6
  else if String.eqb rank "3" then Some 5 else if String.eqb rank "4" then Some 4
  else if String.eqb rank "5" then Some 3 else if String.eqb rank "6" then Some 2
  else if String.eqb rank "7" then Some 1 else if String.eqb rank "8" then Some 0
  else None.

Definition files_to_cols (file : string) : option Z :=
  if String.eqb file "a" then Some 0 else if String.eqb file "b" then Some 1
  else if String.eqb file "c" then Some 2 else if String.eqb file "d" then Some 3
  else if String.eqb file "e" then Some 4 else if String.eqb file "f" then Some 5
  else if String.eqb file "g" then Some 6 else if String.eqb file "h" then Some 7
  else None.

(** [__str__] and [__repr__]. *)
Definition str (m : Move) : string := PGN m.
Definition repr (m : Move) : string := PGN m.

End MoveM.

(** ** engine.py: the game state *)

Record GameState : Type := Build_GameState {
  board : Board;
  white_move : bool;
  movelog : list Move;
  checkmate : bool;
  stalemate : bool;
  white_king_loc : Z * Z;
  black_king_loc : Z * Z
}.

Definition set_board (b : Board) (s : GameState) : GameState :=
  Build_GameState b (white_move s) (movelog s) (checkmate s) (stalemate s)
    (white_king_loc s) (black_king_loc s).
Definition set_white_move (w : bool) (s : GameState) : GameState :=
  Build_GameState (board s) w (movelog s) (checkmate s) (stalemate s)
    (white_king_loc s) (black_king_loc s).
Definition set_movelog (l : list Move) (s : GameState) : GameState :=
  Build_GameState (board s) (white_move s) l (checkmate s) (stalemate s)
    (white_king_loc s) (black_king_loc s).
Definition set_checkmate (f : bool) (s : GameState) : GameState :=
  Build_GameState (board s) (white_move s) (movelog s) f (stalemate s)
    (white_king_loc s) (black_king_loc s).
Definition set_stalemate (f : bool) (s : GameState) : GameState :=
  Build_GameState (board s) (white_move s) (movelog s) (checkmate s) f
    (white_king_loc s) (black_king_loc s).
Definition set_white_king_loc (p : Z * Z) (s : GameState) : GameState :=
  Build_GameState (board s) (white_move s) (movelog s) (checkmate s) (stalemate s)
    p (black_king_loc s).
Definition set_black_king_loc (p : Z * Z) (s : GameState) : GameState :=
  Build_GameState (board s) (white_move s) (movelog s) (checkmate s) (stalemate s)
    (white_king_loc s) p.

(** [self.white_move = not self.white_move]. *)
Definition toggle_turn (s : GameState) : GameState :=
  set_white_move (negb (white_move s)) s.

Definition initial_board : Board :=
  [ ["bR"; "bN"; "bB"; "bQ"; "bK"; "bB"; "bN"; "bR"];
    replicate 8 "bP";
    replicate 8 "";
    replicate 8 "";
    replicate 8 "";
    replicate 8 "";
    replicate 8 "wP";
    ["wR"; "wN"; "wB"; "wQ"; "wK"; "wB"; "wN"; "wR"] ]%string.

(** [GameState.__init__]. *)
Definition GameState_init : GameState :=
  Build_GameState initial_board true [] false false (7, 4) (0, 4).

(** [make_move]: the recursion is on the move, through its secondary
    move. *)
Fixpoint make_move (self : GameState) (move : Move) (log : bool) {struct move}
    : option GameState :=
  b1 ← board_set (board self) (startRow move) (startCol move) "";
  b2 ← board_set b1 (piece_captured_row move) (piece_captured_col move) "";
  b3 ← board_set b2 (endRow move) (endCol move) (piece_moved move);
  let self := set_board b3 self in
  let self := if log then set_movelog (movelog self ++ [move]) self else self in
  let self :=
    if String.eqb (piece_moved move) "wK"
    then set_white_king_loc (endRow move, endCol move) self else self in
  let self :=
    if String.eqb (piece_moved move) "bK"
    then set_black_king_loc (endRow move, endCol move) self else self in
  match secondary_move move with
  | Some second => make_move self second false
  | None => Some (toggle_turn self)
  end.

(** The three array writes of [undo_move] for one move. *)
Definition restore_squares (b : Board) (move : Move) : option Board :=
  b1 ← board_set b (startRow move) (startCol move) (piece_moved move);
  b2 ← board_set b1 (endRow move) (endCol move) "";
  board_set b2 (piece_captured_row move) (piece_captured_col move)
    (if Py.truthy (piece_captured move) then piece_captured move else ""%string).

(** [undo_move]: [movelog.pop()] takes the last element. *)
Definition undo_move (self : GameState) : option GameState :=
  match last (movelog self) with
  | None => Some self
  | Some move =>
      let self := set_movelog (removelast (movelog self)) self in
      b ← restore_squares (board self) move;
      b ← match secondary_move move with
          | Some second => restore_squares b second
          | None => Some b
          end;
      Some (toggle_turn (set_board b self))
  end.

(** ** Pseudo-legal generation

    Every generator appends to the list it is given and returns that very
    list object; here the list is threaded through. *)

Definition on_board (x : Z) : bool := (0 <=? x) && (x <? 8).

Definition turn_colour (self : GameState) : string :=
  if white_move self then "w"%string else "b"%string.

(** [moves.append(Move(self.board, start, end, ...))]. *)
Definition append_move (self : GameState) (moves : list Move) (start end_ : Z * Z)
    (captured_row captured_col : option Z) (secondary : option Move)
    : option (list Move) :=
  m ← MoveM.init (board self) start end_ captured_row captured_col None secondary;
  Some (moves ++ [m]).

(** One of the two diagonal tests of [get_pawn_moves]; [guard] is the
    column test written in the source. *)
Definition pawn_capture (self : GameState) (moves : list Move)
    (row_no col_no row col : Z) (guard : bool) : option (list Move) :=
  if on_board row && guard then
    target ← board_get (board self) row col;
    if Py.truthy target
    then append_move self moves (row_no, col_no) (row, col) None None None
    else Some moves
  else Some moves.

(** The forward steps of [get_pawn_moves]: [dir] is -1 for White and 1 for
    Black, [home] the row of the double step. *)
Definition pawn_advance (self : GameState) (moves : list Move)
    (row_no col_no dir home : Z) : option (list Move) :=
  if on_board (row_no + dir) then
    ahead ← board_get (board self) (row_no + dir) col_no;
    if negb (Py.truthy ahead) then
      moves ← append_move self moves (row_no, col_no) (row_no + dir, col_no) None None None;
      if row_no =? home then
        ahead2 ← board_get (board self) (row_no + 2 * dir) col_no;
        if negb (Py.truthy ahead2)
        then append_move self moves (row_no, col_no) (row_no + 2 * dir, col_no) None None None
        else Some moves
      else Some moves
    else Some moves
  else Some moves.

Definition get_pawn_moves (self : GameState) (moves : list Move) (row_no col_no : Z)
    : option (list Move) :=
  if white_move self then
    moves ← pawn_advance self moves row_no col_no (-1) 6;
    moves ← pawn_capture self moves row_no col_no (row_no - 1) (col_no - 1)
              (on_board (col_no - 1));
    pawn_capture self moves row_no col_no (row_no - 1) (col_no + 1) (col_no + 1 <? 8)
  else
    moves ← pawn_advance self moves row_no col_no 1 1;
    moves ← pawn_capture self moves row_no col_no (row_no + 1) (col_no - 1)
              (on_board (col_no - 1));
    pawn_capture self moves row_no col_no (row_no + 1) (col_no + 1) (col_no + 1 <? 8).

(** The innermost test of [get_en_passant], the same text for both colours
    up to the constants: [rank] is the row the capturing pawn must stand
    on, [from_row] and [to_row] the rows required of the last move, [dir]
    the capturing pawn's direction. *)
Definition en_passant_side (self : GameState) (moves : list Move) (last_move : Move)
    (row_no col_no rank from_row to_row dir : Z) : option (list Move) :=
  let col_right := col_no + 1 in
  let col_left := col_no - 1 in
  if row_no =? rank then
    if (startRow last_move =? from_row) && (endRow last_move =? to_row) then
      if endCol last_move =? col_right then
        append_move self moves (row_no, col_no) (row_no + dir, col_right)
          (Some (endRow last_move)) (Some (endCol last_move)) None
      else if endCol last_move =? col_left then
        append_move self moves (row_no, col_no) (row_no + dir, col_left)
          (Some (endRow last_move)) (Some (endCol last_move)) None
      else Some moves
    else Some moves
  else Some moves.

Definition get_en_passant (self : GameState) (moves : list Move) (row_no col_no : Z)
    : option (list Move) :=
  match last (movelog self) with
  | None => Some moves
  | Some last_move =>
      kind ← Py.index1 (piece_moved last_move);
      if String.eqb kind "P" then
        if white_move self
        then en_passant_side self moves last_move row_no col_no 3 1 3 (-1)
        else en_passant_side self moves last_move row_no col_no 5 1 5 1
      else Some moves
  end.

(** The body shared by the offset loops of [get_king_moves] and
    [get_knight_moves]. *)
Definition step_to (self : GameState) (moves : list Move) (row_no col_no : Z)
    (end_row end_col : Z) : option (list Move) :=
  if on_board end_row && on_board end_col then
    endpiece ← board_get (board self) end_row end_col;
    if negb (Py.startswith endpiece (turn_colour self))
    then append_move self moves (row_no, col_no) (end_row, end_col) None None None
    else Some moves
  else Some moves.

Fixpoint step_all (self : GameState) (moves : list Move) (row_no col_no : Z)
    (offsets : list (Z * Z)) : option (list Move) :=
  match offsets with
  | [] => Some moves
  | (i, j) :: rest =>
      moves ← step_to self moves row_no col_no (row_no + i) (col_no + j);
      step_all self moves row_no col_no rest
  end.

(** [for i in range(-1, 2): for j in range(-1, 2)]. *)
Definition king_offsets : list (Z * Z) :=
  [(-1, -1); (-1, 0); (-1, 1); (0, -1); (0, 0); (0, 1); (1, -1); (1, 0); (1, 1)].

Definition get_king_moves (self : GameState) (moves : list Move) (row_no col_no : Z)
    : option (list Move) :=
  step_all self moves row_no col_no king_offsets.

Definition knight_offsets : list (Z * Z) :=
  [(2, 1); (2, -1); (1, 2); (1, -2); (-2, 1); (-2, -1); (-1, 2); (-1, -2)].

Definition get_knight_moves (self : GameState) (moves : list Move) (row_no col_no : Z)
    : option (list Move) :=
  step_all self moves row_no col_no knight_offsets.

(** The loop [for i in range(1, 8)] of the rook and bishop generators for
    one direction [d], with its [break]. *)
Fixpoint ray (self : GameState) (moves : list Move) (row_no col_no : Z) (d : Z * Z)
    (steps : list Z) : option (list Move) :=
  match steps with
  | [] => Some moves
  | i :: rest =>
      let end_row := row_no + d.1 * i in
      let end_col := col_no + d.2 * i in
      if on_board end_row && on_board end_col then
        endpiece ← board_get (board self) end_row end_col;
        moves ← (if negb (Py.startswith endpiece (turn_colour self))
                 then append_move self moves (row_no, col_no) (end_row, end_col)
                        None None None
                 else Some moves);
        if Py.truthy endpiece then Some moves
        else ray self moves row_no col_no d rest
      else ray self moves row_no col_no d rest
  end.

Fixpoint rays (self : GameState) (moves : list Move) (row_no col_no : Z)
    (directs : list (Z * Z)) : option (list Move) :=
  match directs with
  | [] => Some moves
  | d :: rest =>
      moves ← ray self moves row_no col_no d [1; 2; 3; 4; 5; 6; 7];
      rays self moves row_no col_no rest
  end.

Definition get_rook_moves (self : GameState) (moves : list Move) (row_no col_no : Z)
    : option (list Move) :=
  rays self moves row_no col_no [(-1, 0); (0, -1); (1, 0); (0, 1)].

Definition get_bishop_moves (self : GameState) (moves : list Move) (row_no col_no : Z)
    : option (list Move) :=
  rays self moves row_no col_no [(-1, -1); (1, 1); (-1, 1); (1, -1)].

(** [get_queen_moves]: the rook and bishop generators return the list they
    were given, so each [moves.extend(...)] appends the whole list to
    itself. *)
Definition get_queen_moves (self : GameState) (moves : list Move) (row_no col_no : Z)
    : option (list Move) :=
  returned ← get_rook_moves self moves row_no col_no;
  let moves := returned ++ returned in
  returned ← get_bishop_moves self moves row_no col_no;
  let moves := returned ++ returned in
  Some moves.

(** [any((move.startRow, move.startCol) == sq for move in self.movelog)]. *)
Definition log_starts_at (self : GameState) (sq : Z * Z) : bool :=
  existsb (fun move => (startRow move =? sq.1) && (startCol move =? sq.2)) (movelog self).

(** [any([self.board[row][c] != "" for c in cols])]: the list is built in
    full before [any] looks at it. *)
Fixpoint any_occupied (b : Board) (row : Z) (cols : list Z) : option bool :=
  match cols with
  | [] => Some false
  | c :: rest =>
      x ← board_get b row c;
      r ← any_occupied b row rest;
      Some (negb (String.eqb x "") || r)
  end.

(** One of the four castling blocks of [get_castles]. *)
Definition castle (self : GameState) (moves : list Move) (row : Z)
    (rook_col rook_to king_to : Z) (between : list Z) (label : string)
    : option (list Move) :=
  if negb (log_starts_at self (row, rook_col)) then
    occupied ← any_occupied (board self) row between;
    if negb occupied then
      rook_move ← MoveM.init (board self) (row, rook_col) (row, rook_to)
                    None None None None;
      king_move ← MoveM.init (board self) (row, 4) (row, king_to)
                    None None None (Some rook_move);
      Some (moves ++ [MoveM.set_PGN label king_move])
    else Some moves
  else Some moves.

Definition get_castles (self : GameState) (moves : list Move) : option (list Move) :=
  let row := if white_move self then 7 else 0 in
  if negb (log_starts_at self (row, 4)) then
    moves ← castle self moves row 7 5 6 [5; 6] "O-O";
    castle self moves row 0 3 2 [1; 2; 3] "O-O-O"
  else Some moves.

(** The body of the double loop of [get_possible_moves] for one square. *)
Definition scan_square (self : GameState) (moves : list Move) (row_no col_no : Z)
    (player_piece : string) : option (list Move) :=
  if Py.startswith player_piece (turn_colour self) then
    piece ← Py.index1 player_piece;
    if String.eqb piece "P" then
      moves ← get_pawn_moves self moves row_no col_no;
      get_en_passant self moves row_no col_no
    else if String.eqb piece "K" then
      moves ← get_king_moves self moves row_no col_no;
      get_castles self moves
    else if String.eqb piece "Q" then get_queen_moves self moves row_no col_no
    else if String.eqb piece "R" then get_rook_moves self moves row_no col_no
    else if String.eqb piece "N" then get_knight_moves self moves row_no col_no
    else if String.eqb piece "B" then get_bishop_moves self moves row_no col_no
    else Some moves
  else Some moves.

Fixpoint scan_row (self : GameState) (moves : list Move) (row_no col_no : Z)
    (row : list string) : option (list Move) :=
  match row with
  | [] => Some moves
  | player_piece :: rest =>
      moves ← scan_square self moves row_no col_no player_piece;
      scan_row self moves row_no (col_no + 1) rest
  end.

Fixpoint scan_rows (self : GameState) (moves : list Move) (row_no : Z)
    (rows : list (list string)) : option (list Move) :=
  match rows with
  | [] => Some moves
  | row :: rest =>
      moves ← scan_row self moves row_no 0 row;
      scan_rows self moves (row_no + 1) rest
  end.

Definition get_possible_moves (self : GameState) : option (list Move) :=
  scan_rows self [] 0 (board self).

(** ** Check detection and the legality filter *)

(** [square_attacked]: the flag is flipped, the opponent's moves are
    generated, and the flag is flipped back. *)
Definition square_attacked (self : GameState) (row col : Z) : option (GameState * bool) :=
  let self := toggle_turn self in
  possible_moves ← get_possible_moves self;
  let self := toggle_turn self in
  Some (self, existsb (fun move => (endRow move =? row) && (endCol move =? col))
                possible_moves).

Definition in_check (self : GameState) : option (GameState * bool) :=
  if white_move self
  then square_attacked self (white_king_loc self).1 (white_king_loc self).2
  else square_attacked self (black_king_loc self).1 (black_king_loc self).2.

(** Truth value of the expression [self.in_check] as [check_game_state]
    writes it: the bound method itself, which is never false. *)
Definition in_check_method_truth : bool := true.

Definition check_game_state (self : GameState) (moves : list Move) : GameState :=
  match moves with
  | [] =>
      if in_check_method_truth then set_checkmate true self
      else set_stalemate true self
  | _ :: _ => self
  end.

(** The loop of [remove_selfchecks] over [moves.copy()]; [moves] is the
    list being pruned. *)
Fixpoint remove_selfchecks_loop (self : GameState) (copy moves : list Move)
    : option (GameState * list Move) :=
  match copy with
  | [] => Some (self, moves)
  | move :: rest =>
      self ← make_move self move true;
      let self := toggle_turn self in
      '(self, checked) ← in_check self;
      moves ← (if checked : bool then Py.list_remove MoveM.eqb move moves else Some moves);
      let self := toggle_turn self in
      self ← undo_move self;
      remove_selfchecks_loop self rest moves
  end.

Definition remove_selfchecks (self : GameState) (moves : list Move)
    : option (GameState * list Move) :=
  remove_selfchecks_loop self moves moves.

Definition get_valid_moves (self : GameState) : option (GameState * list Move) :=
  possible_moves ← get_possible_moves self;
  '(self, moves) ← remove_selfchecks self possible_moves;
  let self := check_game_state self moves in
  Some (self, moves).

(** ** The caller's protocol (chessMain.py)

    The main loop keeps the result of [get_valid_moves]; a pair of clicks
    is turned into a move, looked up among the valid moves by [==], and the
    stored move is applied, after which the valid moves are computed again.
    A click pair that matches no valid move is refused ([None] here). *)

Definition click_move (self : GameState) (valid_moves : list Move) (start end_ : Z * Z)
    : option GameState :=
  move ← MoveM.init (board self) start end_ None None None None;
  match find (MoveM.eqb move) valid_moves with
  | Some stored => make_move self stored true
  | None => None
  end.

(** A game given by its click pairs: before each pair the valid moves of
    the current state are computed, as the loop does. *)
Fixpoint play (self : GameState) (clicks : list ((Z * Z) * (Z * Z))) : option GameState :=
  match clicks with
  | [] => Some self
  | (start, end_) :: rest =>
      '(self, valid_moves) ← get_valid_moves self;
      self ← click_move self valid_moves start end_;
      play self rest
  end.

(** ** chessMain.py: drawing and the main loop

    What pygame draws is kept as the list of the drawing calls made on the
    screen; what loguru logs as the list of levels and messages; the
    events of each pass of the main loop are an input. *)

Module chessMain.

Definition WIDTH : Z := 512.
Definition HEIGHT : Z := 512.
Definition DIMENSION : Z := 8.
Definition SQUARE_SIZE : Z := HEIGHT `div` DIMENSION.
Definition MAX_FPS : Z := 15.

(** [pygame.Rect(left, top, width, height)]. *)
Record Rect : Type := Build_Rect {
  rect_left : Z;
  rect_top : Z;
  rect_width : Z;
  rect_height : Z
}.

(** The image loaded from a file and scaled to a size. *)
Record Image : Type := Build_Image {
  image_file : string;
  image_size : Z * Z
}.

(** The calls [screen.fill(colour)], [pygame.draw.rect(screen, colour, rect)]
    and [screen.blit(image, rect)]. *)
Inductive Drawn : Type :=
| Background (colour : Z * Z * Z)
| Filled (colour : Z * Z * Z) (rect : Rect)
| Blitted (image : Image) (rect : Rect).

(** A [for] loop whose body can raise. *)
Fixpoint for_each {A S : Type} (l : list A) (body : S → A → option S) (s : S)
    : option S :=
  match l with
  | [] => Some s
  | x :: l => s ← body s x; for_each l body s
  end.

(** [range(n)]. *)
Definition range (n : Z) : list Z := seqZ 0 n.

Definition load_images (IMAGES : gmap string Image) : gmap string Image :=
  let pieces :=
    ["bP"; "bR"; "bN"; "bB"; "bQ"; "bK"; "wP"; "wR"; "wN"; "wB"; "wQ"; "wK"]%string in
  foldl (λ IMAGES piece,
           <[piece := Build_Image ("pieces/" ++ piece ++ ".png")
                        (SQUARE_SIZE, SQUARE_SIZE)]> IMAGES)
    IMAGES pieces.

Definition draw_board (screen : list Drawn) : list Drawn :=
  let WHITE := (235, 235, 208) in
  let BLACK := (119, 148, 85) in
  foldl (λ screen row_no,
    foldl (λ screen col_no,
      let is_white := (row_no + col_no) `mod` 2 =? 0 in
      let square_colour := if is_white then WHITE else BLACK in
      screen ++ [Filled square_colour
                   (Build_Rect (col_no * SQUARE_SIZE) (row_no * SQUARE_SIZE)
                      SQUARE_SIZE SQUARE_SIZE)])
      screen (range DIMENSION))
    screen (range DIMENSION).

(** [IMAGES[piece]] raises KeyError for a name without an image. *)
Definition draw_pieces (IMAGES : gmap string Image) (screen : list Drawn)
    (board : Board) : option (list Drawn) :=
  for_each (range DIMENSION) (λ screen row_no,
    for_each (range DIMENSION) (λ screen col_no,
      piece ← board_get board row_no col_no;
      if Py.truthy piece then
        image ← IMAGES !! piece;
        Some (screen ++ [Blitted image
                           (Build_Rect (col_no * SQUARE_SIZE) (row_no * SQUARE_SIZE)
                              SQUARE_SIZE SQUARE_SIZE)])
      else Some screen) screen) screen.

Definition draw_game_state (IMAGES : gmap string Image) (screen : list Drawn)
    (gs : GameState) : option (list Drawn) :=
  let screen := draw_board screen in
  draw_pieces IMAGES screen (board gs).

(** The events the loop tells apart; a mouse click comes with the position
    [pygame.mouse.get_pos()] returns when the click is handled. *)
Inductive Key : Type := K_LEFT | K_other.

Inductive Event : Type :=
| QUIT
| MOUSEBUTTONDOWN (pos : Z * Z)
| KEYDOWN (key : Key)
| other_event.

(** The local variables of [main], the screen and the log; the empty tuple
    of [selected_square] is [None]. *)
Record Loop : Type := Build_Loop {
  gs : GameState;
  running : bool;
  move_made : bool;
  valid_moves : list Move;
  selected_square : option (Z * Z);
  player_clicks : list (Z * Z);
  screen : list Drawn;
  logged : list (string * string)
}.

Definition log_line (level message : string) (st : Loop) : Loop :=
  Build_Loop (gs st) (running st) (move_made st) (valid_moves st)
    (selected_square st) (player_clicks st) (screen st)
    (logged st ++ [(level, message)]).

(** The body of the branch [event.type == pygame.MOUSEBUTTONDOWN].  Two
    clicks are only ever held right after the clicked square was appended,
    so that [player_clicks = [selected_square]] in the refusing branch
    finds a square selected; for the empty tuple the model keeps no
    click. *)
Definition mouse_button_down (st : Loop) (pos : Z * Z) : option Loop :=
  let col := pos.1 `div` SQUARE_SIZE in
  let row := pos.2 `div` SQUARE_SIZE in
  let '(selected_square, player_clicks) :=
    if decide (selected_square st = Some (row, col))
    then (None, [])
    else (Some (row, col), player_clicks st ++ [(row, col)]) in
  if (length player_clicks =? 2)%nat then
    start ← player_clicks !! 0%nat;
    end_ ← player_clicks !! 1%nat;
    move ← MoveM.init (board (gs st)) start end_ None None None None;
    match find (MoveM.eqb move) (valid_moves st) with
    | Some move =>
        gs ← make_move (gs st) move true;
        Some (log_line "SUCCESS" ("Move: " ++ PGN move)
                (Build_Loop gs (running st) true (valid_moves st) None []
                   (screen st) (logged st)))
    | None =>
        notation ← MoveM.move_notation (piece_moved move) (endRow move) (endCol move);
        Some (log_line "ERROR" (notation ++ " - Not a valid move")
                (Build_Loop (gs st) (running st) (move_made st) (valid_moves st)
                   selected_square (option_list selected_square)
                   (screen st) (logged st)))
    end
  else
    Some (Build_Loop (gs st) (running st) (move_made st) (valid_moves st)
            selected_square player_clicks (screen st) (logged st)).

(** The body of [for event in pygame.event.get()]. *)
Definition handle_event (st : Loop) (event : Event) : option Loop :=
  match event with
  | QUIT =>
      let st := log_line "INFO" "Exiting" st in
      Some (Build_Loop (gs st) false (move_made st) (valid_moves st)
              (selected_square st) (player_clicks st) (screen st) (logged st))
  | MOUSEBUTTONDOWN pos => mouse_button_down st pos
  | KEYDOWN K_LEFT =>
      gs ← undo_move (gs st);
      Some (Build_Loop gs (running st) true (valid_moves st)
              (selected_square st) (player_clicks st) (screen st) (logged st))
  | KEYDOWN K_other => Some st
  | other_event => Some st
  end.

(** The block [if gs.stalemate or gs.checkmate] that ends a pass. *)
Definition game_over (st : Loop) : Loop :=
  if stalemate (gs st) || checkmate (gs st) then
    let st := Build_Loop (gs st) false (move_made st) (valid_moves st)
                (selected_square st) (player_clicks st) (screen st) (logged st) in
    let st := if stalemate (gs st) then log_line "INFO" "Stalemate" st else st in
    if checkmate (gs st) then log_line "INFO" "Mate!" st else st
  else st.

(** One pass of [while running]. *)
Definition frame (IMAGES : gmap string Image) (st : Loop) (events : list Event)
    : option Loop :=
  st ← for_each events handle_event st;
  st ← (if move_made st then
          '(gs, valid_moves) ← get_valid_moves (gs st);
          Some (Build_Loop gs (running st) false valid_moves
                  (selected_square st) (player_clicks st) (screen st) (logged st))
        else Some st);
  let st := game_over st in
  screen ← draw_game_state IMAGES (screen st) (gs st);
  Some (Build_Loop (gs st) (running st) (move_made st) (valid_moves st)
          (selected_square st) (player_clicks st) screen (logged st)).

(** [while running] over the events of the passes still to come. *)
Fixpoint main_loop (IMAGES : gmap string Image) (st : Loop)
    (events : list (list Event)) : option Loop :=
  match events with
  | [] => Some st
  | now :: later =>
      if running st then
        st ← frame IMAGES st now;
        main_loop IMAGES st later
      else Some st
  end.

Definition main (events : list (list Event)) : option Loop :=
  let gs := GameState_init in
  let IMAGES := load_images ∅ in
  '(gs, valid_moves) ← get_valid_moves gs;
  main_loop IMAGES
    (Build_Loop gs true false valid_moves None [] [Background (255, 255, 255)]
       [("INFO", "Starting game")]%string)
    events.

End chessMain.

(** * Notions used in the statements and the proofs *)

(** ** Squares and boards *)

(** A square of the board. *)
Definition sq_ok (r c : Z) : Prop := 0 ≤ r < 8 ∧ 0 ≤ c < 8.

(** The shape (8, 8) of the array. *)
Definition wf_board (b : Board) : Prop :=
  length b = 8%nat ∧ Forall (λ row : list string, length row = 8%nat) b.

(** The content of a square, read without the exception. *)
Definition cell (b : Board) (r c : Z) : string := default ""%string (board_get b r c).

(** ** Move identifiers *)

Definition coords : list Z := [0; 1; 2; 3; 4; 5; 6; 7].

(** On the 4096 quadruples of board coordinates the identifier is the
    number whose decimal digits are the four coordinates. *)
Definition id_table_ok : bool :=
  forallb (λ a, forallb (λ b, forallb (λ c, forallb (λ d,
    match MoveM.make_id a b c d with
    | Some i => i =? 1000 * a + 100 * b + 10 * c + d
    | None => false
    end) coords) coords) coords) coords.

(** The capture square computed by the constructor. *)
Definition captured_coord (given : option Z) (end_coord : Z) : Z :=
  if Py.truthy_int given then default end_coord given else end_coord.

(** ** Pseudo-legal moves, declaratively *)

(** The square (r, c) holds a piece of kind [k] of the side to move, as
    the double loop of [get_possible_moves] finds it. *)
Definition own (s : GameState) (r c : Z) (k : string) : Prop :=
  0 ≤ r ∧ 0 ≤ c ∧
  ∃ p, board_get (board s) r c = Some p
       ∧ Py.startswith p (turn_colour s) = true ∧ Py.index1 p = Some k.

(** Constants of the side to move: the direction of its pawns, the row of
    their double step, the row of its king and rooks, and the row on which
    [get_en_passant] looks for the capturing pawn. *)
Definition forward (s : GameState) : Z := if white_move s then -1 else 1.
Definition home_row (s : GameState) : Z := if white_move s then 6 else 1.
Definition back_row (s : GameState) : Z := if white_move s then 7 else 0.
Definition passing_row (s : GameState) : Z := if white_move s then 3 else 5.

(** The two castling blocks: the rook's column, where the rook and the
    king go, the columns between them, and the label. *)
Inductive castle_side : Z → Z → Z → list Z → string → Prop :=
| kingside : castle_side 7 5 6 [5; 6] "O-O"
| queenside : castle_side 0 3 2 [1; 2; 3] "O-O-O".

(** The moves the generators can append in state [s]: one rule per
    [append] of the source. *)
Inductive pseudo (s : GameState) : Move → Prop :=
| ps_push1 r c m :
    own s r c "P" →
    board_get (board s) (r + forward s) c = Some ""%string →
    MoveM.init (board s) (r, c) (r + forward s, c) None None None None = Some m →
    pseudo s m
| ps_push2 r c m :
    own s r c "P" → r = home_row s →
    board_get (board s) (r + forward s) c = Some ""%string →
    board_get (board s) (r + 2 * forward s) c = Some ""%string →
    MoveM.init (board s) (r, c) (r + 2 * forward s, c) None None None None = Some m →
    pseudo s m
| ps_take r c dc t m :
    own s r c "P" → dc = -1 ∨ dc = 1 →
    board_get (board s) (r + forward s) (c + dc) = Some t → t ≠ ""%string →
    MoveM.init (board s) (r, c) (r + forward s, c + dc) None None None None = Some m →
    pseudo s m
| ps_en_passant r c lm m :
    own s r c "P" → last (movelog s) = Some lm →
    Py.index1 (piece_moved lm) = Some "P"%string →
    r = passing_row s → startRow lm = 1 → endRow lm = passing_row s →
    endCol lm = c + 1 ∨ endCol lm = c - 1 →
    MoveM.init (board s) (r, c) (r + forward s, endCol lm)
      (Some (endRow lm)) (Some (endCol lm)) None None = Some m →
    pseudo s m
| ps_piece r c k er ec t m :
    own s r c k → k ≠ "P"%string →
    board_get (board s) er ec = Some t → Py.startswith t (turn_colour s) = false →
    MoveM.init (board s) (r, c) (er, ec) None None None None = Some m →
    pseudo s m
| ps_castle rook_col rook_to king_to between label rook king :
    castle_side rook_col rook_to king_to between label →
    log_starts_at s (back_row s, 4) = false →
    log_starts_at s (back_row s, rook_col) = false →
    any_occupied (board s) (back_row s) between = Some false →
    MoveM.init (board s) (back_row s, rook_col) (back_row s, rook_to)
      None None None None = Some rook →
    MoveM.init (board s) (back_row s, 4) (back_row s, king_to)
      None None None (Some rook) = Some king →
    pseudo s (MoveM.set_PGN label king).

(** ** Invariants of the positions of a game *)

(** No square holds a one-character string, on which [player_piece[1]]
    would raise. *)
Definition cells_ok (b : Board) : Prop :=
  Forall (Forall (λ x : string, String.length x ≠ 1%nat)) b.

(** The last logged move moved a piece, ended on the board, and if it is
    a pawn move from row 1 it did not reach row 5, and the square it
    passed on its way to row 3 is empty. *)
Definition last_ok (s : GameState) : Prop :=
  ∀ lm, last (movelog s) = Some lm →
    (2 ≤ String.length (piece_moved lm))%nat
    ∧ sq_ok (endRow lm) (endCol lm)
    ∧ (Py.index1 (piece_moved lm) = Some "P"%string → startRow lm = 1 →
       endRow lm ≠ 5 ∧ (endRow lm = 3 → cell (board s) 2 (endCol lm) = ""%string)).

(** As long as no logged move starts from a king's original square, that
    square is occupied. *)
Definition kings_ok (s : GameState) : Prop :=
  ∀ row, row = 0 ∨ row = 7 →
    log_starts_at s (row, 4) = false → cell (board s) row 4 ≠ ""%string.

Record inv (s : GameState) : Prop := {
  inv_wf : wf_board (board s);
  inv_cells : cells_ok (board s);
  inv_last : last_ok s;
  inv_kings : kings_ok s
}.

(** ** The array writes of [make_move] and [undo_move], square by square *)

Definition upd (f : Z → Z → string) (r c : Z) (v : string) : Z → Z → string :=
  λ r' c', if decide ((r', c') = (r, c)) then v else f r' c'.

Definition written1 (m : Move) (f : Z → Z → string) : Z → Z → string :=
  upd (upd (upd f (startRow m) (startCol m) "")
         (piece_captured_row m) (piece_captured_col m) "")
    (endRow m) (endCol m) (piece_moved m).

Definition restored1 (m : Move) (f : Z → Z → string) : Z → Z → string :=
  upd (upd (upd f (startRow m) (startCol m) (piece_moved m))
         (endRow m) (endCol m) "")
    (piece_captured_row m) (piece_captured_col m) (piece_captured m).

Definition written (m : Move) (f : Z → Z → string) : Z → Z → string :=
  match secondary_move m with
  | Some second => written1 second (written1 m f)
  | None => written1 m f
  end.

Definition restored (m : Move) (f : Z → Z → string) : Z → Z → string :=
  match secondary_move m with
  | Some second => restored1 second (restored1 m f)
  | None => restored1 m f
  end.

(** The three squares of a move are on the board. *)
Definition squares_ok (m : Move) : Prop :=
  sq_ok (startRow m) (startCol m) ∧ sq_ok (endRow m) (endCol m)
  ∧ sq_ok (piece_captured_row m) (piece_captured_col m).

(** The move holds the pieces that stand on its squares, and either
    captures on its end square or ends on an empty square. *)
Definition built_on (f : Z → Z → string) (m : Move) : Prop :=
  f (startRow m) (startCol m) = piece_moved m
  ∧ f (piece_captured_row m) (piece_captured_col m) = piece_captured m
  ∧ ((piece_captured_row m, piece_captured_col m) = (endRow m, endCol m)
     ∨ (f (endRow m) (endCol m) = ""%string
        ∧ (startRow m, startCol m) ≠ (endRow m, endCol m))).

Definition move_ok (b : Board) (m : Move) : Prop :=
  squares_ok m ∧ built_on (cell b) m
  ∧ match secondary_move m with
    | Some second =>
        squares_ok second ∧ built_on (cell b) second ∧ secondary_move second = None
    | None => True
    end.

(** ** Positions and reachable states *)

(** Equality of states up to the king squares and the two flags. *)
Definition same_position (s s' : GameState) : Prop :=
  board s = board s' ∧ white_move s = white_move s' ∧ movelog s = movelog s'.

Definition same_flags (s s' : GameState) : Prop :=
  checkmate s = checkmate s' ∧ stalemate s = stalemate s'.

(** The state [make_move] holds after its three array writes, its log
    append and its king-square updates, before it looks at the secondary
    move. *)
Definition after_writes (self : GameState) (move : Move) (log : bool) (b3 : Board)
    : GameState :=
  let self := set_board b3 self in
  let self := if log then set_movelog (movelog self ++ [move]) self else self in
  let self :=
    if String.eqb (piece_moved move) "wK"
    then set_white_king_loc (endRow move, endCol move) self else self in
  if String.eqb (piece_moved move) "bK"
  then set_black_king_loc (endRow move, endCol move) self else self.

(** The three forms of a pseudo-legal move in a position that satisfies
    the invariants: an ordinary move, White's en-passant capture, a
    castling move. *)
Inductive shape (s : GameState) (m : Move) : Prop :=
| shape_simple :
    (piece_captured_row m, piece_captured_col m) = (endRow m, endCol m) →
    secondary_move m = None →
    (Py.index1 (piece_moved m) = Some "P"%string → startRow m = 1 →
     endRow m ≠ 5 ∧ (endRow m = 3 → cell (board s) 2 (endCol m) = ""%string
                                    ∧ startCol m = endCol m)) →
    shape s m
| shape_en_passant :
    white_move s = true →
    secondary_move m = None →
    cell (board s) (endRow m) (endCol m) = ""%string →
    startRow m ≠ endRow m →
    startRow m = 3 ∨ startRow m = 5 →
    piece_captured_row m = startRow m →
    shape s m
| shape_castle second :
    (piece_captured_row m, piece_captured_col m) = (endRow m, endCol m) →
    secondary_move m = Some second →
    startRow m = 0 ∨ startRow m = 7 →
    squares_ok second → built_on (cell (board s)) second →
    secondary_move second = None →
    (piece_captured_row second, piece_captured_col second)
      = (endRow second, endCol second) →
    startCol second ≠ 4 → endCol second ≠ 4 →
    shape s m.

(** Occurrences of a move identifier in a list: what [list.remove]
    consumes. *)
Fixpoint count_id (i : Z) (l : list Move) : nat :=
  match l with
  | [] => 0%nat
  | y :: l' => ((if (move_id y =? i)%Z then 1 else 0) + count_id i l')%nat
  end.

(** The states a caller following chessMain.py can reach: it asks for the
    valid moves, makes one of them on the state the query left, or undoes
    the last move. *)
Inductive reachable : GameState → Prop :=
| reach_init : reachable GameState_init
| reach_query s s' moves :
    reachable s → get_valid_moves s = Some (s', moves) → reachable s'
| reach_move s s' moves m s'' :
    reachable s → get_valid_moves s = Some (s', moves) → m ∈ moves →
    make_move s' m true = Some s'' → reachable s''
| reach_undo s s' :
    reachable s → undo_move s = Some s' → reachable s'.

(** Positions with a history of pseudo-legal moves from the initial
    position. *)
Inductive played : GameState → Prop :=
| played_init s : same_position GameState_init s → played s
| played_move s m s1 s' :
    played s → inv s → pseudo s m → make_move s m true = Some s1 →
    same_position s1 s' → played s'.

(** ** Castling *)

(** What holds in [s] of a castling move [m] with rook move [rook]. *)
Definition castling_conditions (s : GameState) (m rook : Move) : Prop :=
  ∃ rook_col rook_to king_to between label,
    castle_side rook_col rook_to king_to between label
    ∧ log_starts_at s (back_row s, 4) = false
    ∧ log_starts_at s (back_row s, rook_col) = false
    ∧ Forall (λ c, board_get (board s) (back_row s) c = Some ""%string) between
    ∧ (startRow m, startCol m) = (back_row s, 4)
    ∧ (endRow m, endCol m) = (back_row s, king_to)
    ∧ (startRow rook, startCol rook) = (back_row s, rook_col)
    ∧ (endRow rook, endCol rook) = (back_row s, rook_to)
    ∧ secondary_move rook = None
    ∧ PGN m = label.

(** ** Concrete games and positions *)

(** The state after a game, the state its valid-move query leaves, and
    the valid and pseudo-legal moves in it. *)
Definition after (clicks : list ((Z * Z) * (Z * Z))) : GameState :=
  default GameState_init (play GameState_init clicks).

Definition valid_after (clicks : list ((Z * Z) * (Z * Z))) : list Move :=
  default [] (snd <$> get_valid_moves (after clicks)).

Definition queried_after (clicks : list ((Z * Z) * (Z * Z))) : GameState :=
  default GameState_init (fst <$> get_valid_moves (after clicks)).

Definition make_then_undo (s : GameState) (m : Move) : option GameState :=
  s1 ← make_move s m true; undo_move s1.

Definition possible_after (clicks : list ((Z * Z) * (Z * Z))) : list Move :=
  default [] (get_possible_moves (after clicks)).

(** 1.e4 e5 *)
Definition open_game : list ((Z * Z) * (Z * Z)) :=
  [((6, 4), (4, 4)); ((1, 4), (3, 4))].

(** 1.e4 e5 2.d4 d5 *)
Definition centre_game : list ((Z * Z) * (Z * Z)) :=
  [((6, 4), (4, 4)); ((1, 4), (3, 4)); ((6, 3), (4, 3)); ((1, 3), (3, 3))].

(** 1.e4 e5 2.Qh5 *)
Definition queen_sortie : list ((Z * Z) * (Z * Z)) :=
  [((6, 4), (4, 4)); ((1, 4), (3, 4)); ((7, 3), (3, 7))].

(** 1.e3 e6 *)
Definition quiet_game : list ((Z * Z) * (Z * Z)) :=
  [((6, 4), (5, 4)); ((1, 4), (2, 4))].

(** 1.a3 d5 2.a4 d4 3.e4 *)
Definition black_passing_game : list ((Z * Z) * (Z * Z)) :=
  [((6, 0), (5, 0)); ((1, 3), (3, 3)); ((5, 0), (4, 0)); ((3, 3), (4, 3));
   ((6, 4), (4, 4))].

(** 1.e4 a6 2.e5 d5 *)
Definition white_passing_game : list ((Z * Z) * (Z * Z)) :=
  [((6, 4), (4, 4)); ((1, 0), (2, 0)); ((4, 4), (3, 4)); ((1, 3), (3, 3))].

(** 1.e4 e5 2.Nf3 Nc6 3.Bc4 Bc5 *)
Definition italian_game : list ((Z * Z) * (Z * Z)) :=
  [((6, 4), (4, 4)); ((1, 4), (3, 4)); ((7, 6), (5, 5)); ((0, 1), (2, 2));
   ((7, 5), (4, 2)); ((0, 5), (3, 2))].

(** Moves as the engine builds them in these games. *)
Definition move_Ke2 : Move :=
  Build_Move 7 4 6 4 "wK" 6 4 "" None None 7464 "Ke2".
Definition move_Kd2 : Move :=
  Build_Move 7 4 6 3 "wK" 6 3 "" None None 7463 "Kd2".
Definition move_f6 : Move :=
  Build_Move 1 5 2 5 "bP" 2 5 "" None None 1525 "Pf6".
Definition move_dxe3 : Move :=
  Build_Move 6 3 5 4 "wP" 5 4 "wP" None None 6354 "Pe3".
Definition move_exd6 : Move :=
  Build_Move 3 4 2 3 "wP" 3 3 "bP" None None 3423 "Pd6".
Definition move_e4 : Move :=
  Build_Move 6 4 4 4 "wP" 4 4 "" None None 6444 "Pe4".
Definition move_Rf1 : Move :=
  Build_Move 7 7 7 5 "wR" 7 5 "" None None 7775 "Rf1".
Definition move_e4_marked : Move :=
  Build_Move 6 4 4 4 "wP" 5 3 "" None (Some move_Rf1) 6444 "Pe4".
Definition move_OO : Move :=
  Build_Move 7 4 7 6 "wK" 7 6 "" None (Some move_Rf1) 7476 "O-O".

(** King, pawn and bishop against a bare king, Black to move. *)
Definition stalemate_position : GameState :=
  Build_GameState
    [ [""; ""; ""; "bK"; ""; "wB"; ""; ""];
      [""; ""; ""; "wP"; ""; ""; ""; ""];
      [""; ""; ""; "wK"; ""; ""; ""; ""];
      replicate 8 ""; replicate 8 ""; replicate 8 ""; replicate 8 "";
      replicate 8 "" ]%string
    false [] false false (2, 3) (0, 3).

(** Membership in a list given by computation. *)
Ltac solve_elem :=
  vm_compute; repeat (first [apply list_elem_of_here | apply list_elem_of_further]).

(** ** The generated moves with their geometry *)

(** Length of the chain of secondary moves below a move. *)
Fixpoint secondary_depth (m : Move) : nat :=
  match secondary_move m with
  | Some second => S (secondary_depth second)
  | None => 0%nat
  end.

(** The directions of the rook and of the bishop, and the steps of a ray. *)
Definition rook_directs : list (Z * Z) := [(-1, 0); (0, -1); (1, 0); (0, 1)].
Definition bishop_directs : list (Z * Z) := [(-1, -1); (1, 1); (-1, 1); (1, -1)].
Definition ray_steps : list Z := [1; 2; 3; 4; 5; 6; 7].

(** The ray loop went past step [j] from (r, c) in direction [d]: the
    square is off the board or it is empty. *)
Definition ray_passes (s : GameState) (r c : Z) (d : Z * Z) (j : Z) : Prop :=
  on_board (r + d.1 * j) && on_board (c + d.2 * j) = true →
  board_get (board s) (r + d.1 * j) (c + d.2 * j) = Some ""%string.

(** The moves the generators append, with the geometry of each piece:
    one rule per [append] of the source, as for [pseudo], and for each the
    offsets, the direction and the squares passed. *)
Inductive generated (s : GameState) : Move → Prop :=
| gen_push1 r c m :
    own s r c "P" →
    board_get (board s) (r + forward s) c = Some ""%string →
    MoveM.init (board s) (r, c) (r + forward s, c) None None None None = Some m →
    generated s m
| gen_push2 r c m :
    own s r c "P" → r = home_row s →
    board_get (board s) (r + forward s) c = Some ""%string →
    board_get (board s) (r + 2 * forward s) c = Some ""%string →
    MoveM.init (board s) (r, c) (r + 2 * forward s, c) None None None None = Some m →
    generated s m
| gen_take r c dc t m :
    own s r c "P" → dc = -1 ∨ dc = 1 →
    board_get (board s) (r + forward s) (c + dc) = Some t → t ≠ ""%string →
    MoveM.init (board s) (r, c) (r + forward s, c + dc) None None None None = Some m →
    generated s m
| gen_en_passant r c lm m :
    own s r c "P" → last (movelog s) = Some lm →
    Py.index1 (piece_moved lm) = Some "P"%string →
    r = passing_row s → startRow lm = 1 → endRow lm = passing_row s →
    endCol lm = c + 1 ∨ endCol lm = c - 1 →
    MoveM.init (board s) (r, c) (r + forward s, endCol lm)
      (Some (endRow lm)) (Some (endCol lm)) None None = Some m →
    generated s m
| gen_step r c k offsets i j t m :
    own s r c k →
    (k = "K"%string ∧ offsets = king_offsets)
    ∨ (k = "N"%string ∧ offsets = knight_offsets) →
    (i, j) ∈ offsets →
    board_get (board s) (r + i) (c + j) = Some t →
    Py.startswith t (turn_colour s) = false →
    MoveM.init (board s) (r, c) (r + i, c + j) None None None None = Some m →
    generated s m
| gen_slide r c k d pre i post t m :
    own s r c k →
    ((k = "R"%string ∨ k = "Q"%string) ∧ d ∈ rook_directs)
    ∨ ((k = "B"%string ∨ k = "Q"%string) ∧ d ∈ bishop_directs) →
    pre ++ i :: post = ray_steps →
    Forall (ray_passes s r c d) pre →
    board_get (board s) (r + d.1 * i) (c + d.2 * i) = Some t →
    Py.startswith t (turn_colour s) = false →
    MoveM.init (board s) (r, c) (r + d.1 * i, c + d.2 * i) None None None None
      = Some m →
    generated s m
| gen_castle rook_col rook_to king_to between label rook king r c :
    own s r c "K" →
    castle_side rook_col rook_to king_to between label →
    log_starts_at s (back_row s, 4) = false →
    log_starts_at s (back_row s, rook_col) = false →
    any_occupied (board s) (back_row s) between = Some false →
    MoveM.init (board s) (back_row s, rook_col) (back_row s, rook_to)
      None None None None = Some rook →
    MoveM.init (board s) (back_row s, 4) (back_row s, king_to)
      None None None (Some rook) = Some king →
    generated s (MoveM.set_PGN label king).

(** Case analysis on the rule that appended a move. *)
Ltac generated_cases Hgen :=
  inversion Hgen as
    [r c m0 Hown Hb Hm | r c m0 Hown Hr Hb Hb2 Hm | r c dc t m0 Hown Hdc Hb Ht Hm
    | r c lm m0 Hown Hlast Hlk Hr Hsr Her Hec Hm
    | r c k0 offsets i j t m0 Hown Hoff Hij Hb Hst Hm
    | r c k0 d pre i post t m0 Hown Hd Hsplit Hpre Hb Hst Hm
    | rook_col rook_to king_to between label rook king r c Hown Hside Hlk Hlr
        Hocc Hrook Hking]; subst.

(** [undo_move] called [n] times in a row. *)
Fixpoint undo_moves (n : nat) (self : GameState) : option GameState :=
  match n with
  | O => Some self
  | S n => self ← undo_move self; undo_moves n self
  end.

(** The character of a string at an index, as a string: [s[i]] for an
    index inside the string. *)
Definition char_at (s : string) (i : nat) : string := String.substring i 1 s.

(** ** Notions about the board on the screen and the main loop *)

(** The rectangle of a square and the image of a piece name, as
    [draw_board], [draw_pieces] and [load_images] compute them. *)
Definition square_rect (row col : Z) : chessMain.Rect :=
  chessMain.Build_Rect (col * chessMain.SQUARE_SIZE) (row * chessMain.SQUARE_SIZE)
    chessMain.SQUARE_SIZE chessMain.SQUARE_SIZE.

Definition piece_image (piece : string) : chessMain.Image :=
  chessMain.Build_Image ("pieces/" ++ piece ++ ".png")
    (chessMain.SQUARE_SIZE, chessMain.SQUARE_SIZE).

(** A cell is empty or holds a name that has an image. *)
Definition drawable (x : string) : Prop :=
  x = ""%string ∨ is_Some (chessMain.load_images ∅ !! x).

Definition pieces_ok (b : Board) : Prop :=
  ∀ r c, sq_ok r c → drawable (cell b r c).

(** What [draw_pieces] puts on the screen for one square. *)
Definition blits (b : Board) (row col : Z) : list chessMain.Drawn :=
  match chessMain.load_images ∅ !! cell b row col with
  | Some image => [chessMain.Blitted image (square_rect row col)]
  | None => []
  end.

(** The colour [draw_board] gives a square. *)
Definition square_colour (row col : Z) : Z * Z * Z :=
  if (row + col) `mod` 2 =? 0 then (235, 235, 208) else (119, 148, 85).

(** A point lies in a rectangle. *)
Definition inside (rect : chessMain.Rect) (x y : Z) : Prop :=
  chessMain.rect_left rect ≤ x < chessMain.rect_left rect + chessMain.rect_width rect
  ∧ chessMain.rect_top rect ≤ y < chessMain.rect_top rect + chessMain.rect_height rect.

(** The events that change the game or the selection, the clicks inside
    the window, and the passes of the loop with at most one event of the
    first kind. *)
Definition acting (event : chessMain.Event) : bool :=
  match event with
  | chessMain.MOUSEBUTTONDOWN _ => true
  | chessMain.KEYDOWN chessMain.K_LEFT => true
  | _ => false
  end.

Definition in_window (event : chessMain.Event) : Prop :=
  match event with
  | chessMain.MOUSEBUTTONDOWN pos =>
      0 ≤ pos.1 < chessMain.WIDTH ∧ 0 ≤ pos.2 < chessMain.HEIGHT
  | _ => True
  end.

Definition calm (events : list chessMain.Event) : Prop :=
  (length (List.filter acting events) ≤ 1)%nat ∧ Forall in_window events.

(** The list of valid moves the loop holds is the one [get_valid_moves]
    returned for the state the loop holds. *)
Definition in_step (st : chessMain.Loop) : Prop :=
  ∃ s0, reachable s0
    ∧ get_valid_moves s0 = Some (chessMain.gs st, chessMain.valid_moves st).

(** The clicks kept are the selected square, if any, and it is a square of
    the board. *)
Definition clicks_ok (st : chessMain.Loop) : Prop :=
  chessMain.player_clicks st = option_list (chessMain.selected_square st)
  ∧ ∀ sq, chessMain.selected_square st = Some sq → sq_ok sq.1 sq.2.

Definition settled (st : chessMain.Loop) : Prop :=
  reachable (chessMain.gs st) ∧ clicks_ok st
  ∧ (chessMain.move_made st = false → in_step st).

(** The top left pixel of a square, and the passes of the main loop that
    bring the two clicks of each pair, one click in a pass. *)
Definition pixel_of (sq : Z * Z) : Z * Z :=
  (sq.2 * chessMain.SQUARE_SIZE, sq.1 * chessMain.SQUARE_SIZE).

Definition passes_of (clicks : list ((Z * Z) * (Z * Z))) : list (list chessMain.Event) :=
  clicks ≫= λ pair,
    [[chessMain.MOUSEBUTTONDOWN (pixel_of pair.1)];
     [chessMain.MOUSEBUTTONDOWN (pixel_of pair.2)]].

(** Two different squares of the board. *)
Definition pair_ok (pair : (Z * Z) * (Z * Z)) : Prop :=
  sq_ok pair.1.1 pair.1.2 ∧ sq_ok pair.2.1 pair.2.2 ∧ pair.1 ≠ pair.2.

(** More moves as the engine builds them, and runs of the main loop. *)
Definition move_Bc4 : Move :=
  Build_Move 7 5 4 2 "wB" 4 2 "" None None 7542 "Bc4".
Definition move_d3 : Move :=
  Build_Move 4 3 5 3 "bP" 5 3 "" None None 4353 "Pd3".

(** A click on e2; that click, a click on e4 and the left-arrow key. *)
Definition one_click : list (list chessMain.Event) :=
  [[chessMain.MOUSEBUTTONDOWN (300, 400)]].
Definition three_passes : list (list chessMain.Event) :=
  [[chessMain.MOUSEBUTTONDOWN (300, 400)]; [chessMain.MOUSEBUTTONDOWN (300, 300)];
   [chessMain.KEYDOWN chessMain.K_LEFT]].

Definition loop_after (events : list (list chessMain.Event)) : chessMain.Loop :=
  default (chessMain.Build_Loop GameState_init false false [] None [] [] [])
    (chessMain.main events).

(** 1.g4 b6 2.Bh3 Bb7 3.Nf3 a6 4.Nd4 Bxh1 *)
Definition corner_game : list ((Z * Z) * (Z * Z)) :=
  [((6, 6), (4, 6)); ((1, 1), (2, 1)); ((7, 5), (5, 7)); ((0, 2), (1, 1));
   ((7, 6), (5, 5)); ((1, 0), (2, 0)); ((5, 5), (4, 3)); ((1, 1), (7, 7))].

(** The castling move the engine builds after that game, and its
    secondary move. *)
Definition move_corner_f1 : Move :=
  Build_Move 7 7 7 5 "bB" 7 5 "" None None 7775 "Bf1".
Definition move_OO_corner : Move :=
  Build_Move 7 4 7 6 "wK" 7 6 "" None (Some move_corner_f1) 7476 "O-O".

(** The names of the ranks and of the files. *)
Definition rank_names : list string := ["1"; "2"; "3"; "4"; "5"; "6"; "7"; "8"]%string.
Definition file_names : list string := ["a"; "b"; "c"; "d"; "e"; "f"; "g"; "h"]%string.

(** * Properties *)

(** ** Squares and boards *)

Lemma on_board_true x : on_board x = true ↔ 0 ≤ x < 8.
Proof. unfold on_board. rewrite andb_true_iff, Z.leb_le, Z.ltb_lt. done. Qed.

Lemma norm_index_on n i : 0 ≤ i < Z.of_nat n → Py.norm_index n i = Some (Z.to_nat i).
Proof.
  intros [H1 H2]. unfold Py.norm_index.
  apply Z.leb_le in H1. apply Z.ltb_lt in H2. by rewrite H1, H2.
Qed.

Lemma board_get_on b r c :
  wf_board b → sq_ok r c →
  board_get b r c = b !! Z.to_nat r ≫= λ row, row !! Z.to_nat c.
Proof.
  intros [Hl Hr] [Hr1 Hc1]. unfold board_get.
  rewrite norm_index_on by lia. simpl.
  destruct (b !! Z.to_nat r) as [row|] eqn:E; simpl; [|done].
  rewrite Forall_lookup in Hr. rewrite (Hr _ _ E).
  by rewrite norm_index_on by lia.
Qed.

Lemma board_get_cell b r c :
  wf_board b → sq_ok r c → board_get b r c = Some (cell b r c).
Proof.
  intros Hwf Hsq. unfold cell. rewrite board_get_on by done.
  destruct Hwf as [Hl Hr]. destruct Hsq as [Hr1 Hc1].
  destruct (lookup_lt_is_Some_2 b (Z.to_nat r)) as [row E]; [lia|].
  rewrite E. simpl. rewrite Forall_lookup in Hr. specialize (Hr _ _ E).
  destruct (lookup_lt_is_Some_2 row (Z.to_nat c)) as [x Ex]; [lia|].
  by rewrite Ex.
Qed.

Lemma board_get_sq_ok b r c x :
  wf_board b → 0 ≤ r → 0 ≤ c → board_get b r c = Some x → sq_ok r c.
Proof.
  intros [Hl Hr] H1 H2. unfold board_get, Py.norm_index. rewrite Hl.
  destruct (Z.ltb_spec r (Z.of_nat 8)); [|
    replace (0 <=? r) with true by (symmetry; by apply Z.leb_le);
    simpl; destruct (Z.ltb_spec r 0); [lia|]; by rewrite andb_false_r].
  replace (0 <=? r) with true by (symmetry; by apply Z.leb_le). simpl.
  destruct (b !! Z.to_nat r) as [row|] eqn:E; simpl; [|done].
  rewrite Forall_lookup in Hr. rewrite (Hr _ _ E).
  destruct (Z.ltb_spec c (Z.of_nat 8)); [intros _; split; lia|].
  replace (0 <=? c) with true by (symmetry; by apply Z.leb_le). simpl.
  destruct (Z.ltb_spec c 0); [lia|]. by rewrite andb_false_r.
Qed.

Lemma board_set_spec b r c v :
  wf_board b → sq_ok r c →
  ∃ b', board_set b r c v = Some b' ∧ wf_board b' ∧
    ∀ r' c', sq_ok r' c' →
      cell b' r' c' = if decide ((r', c') = (r, c)) then v else cell b r' c'.
Proof.
  intros Hwf Hsq. pose proof Hwf as [Hl Hr]. pose proof Hsq as [Hr1 Hc1].
  unfold board_set. rewrite norm_index_on by lia. simpl.
  destruct (lookup_lt_is_Some_2 b (Z.to_nat r)) as [row E]; [lia|].
  rewrite E. simpl. pose proof Hr as Hr'. rewrite Forall_lookup in Hr'.
  pose proof (Hr' _ _ E) as Hrow. rewrite Hrow, norm_index_on by lia. simpl.
  eexists; split; [done|].
  assert (Hwf' : wf_board (<[Z.to_nat r:=<[Z.to_nat c:=v]> row]> b)).
  { split; [by rewrite length_insert|].
    apply Forall_insert; [done|]. by rewrite length_insert. }
  split; [done|]. intros r' c' Hsq'. unfold cell.
  rewrite !board_get_on by done. destruct Hsq' as [Hr2 Hc2].
  case_decide as Heq.
  - injection Heq as -> ->. rewrite list_lookup_insert_eq by lia. simpl.
    by rewrite list_lookup_insert_eq by lia.
  - destruct (decide (r' = r)) as [->|Hne].
    + rewrite list_lookup_insert_eq by lia. rewrite E. simpl.
      rewrite list_lookup_insert_ne; [done|]. intros Hc. apply Heq. f_equal. lia.
    + rewrite list_lookup_insert_ne; [done|]. lia.
Qed.

Lemma board_ext b b' :
  wf_board b → wf_board b' →
  (∀ r c, sq_ok r c → cell b r c = cell b' r c) → b = b'.
Proof.
  intros Hwf Hwf' Hcell. pose proof Hwf as [Hl Hr]. pose proof Hwf' as [Hl' Hr'].
  apply list_eq. intros i.
  destruct (decide (i < 8)%nat) as [Hi|Hi].
  2:{ rewrite !lookup_ge_None_2; [done|lia|lia]. }
  destruct (lookup_lt_is_Some_2 b i) as [row E]; [lia|].
  destruct (lookup_lt_is_Some_2 b' i) as [row' E']; [lia|].
  rewrite E, E'. f_equal. rewrite Forall_lookup in Hr, Hr'.
  pose proof (Hr _ _ E) as Hrow. pose proof (Hr' _ _ E') as Hrow'.
  apply list_eq. intros j.
  destruct (decide (j < 8)%nat) as [Hj|Hj].
  2:{ rewrite !lookup_ge_None_2; [done|lia|lia]. }
  assert (Hsq : sq_ok (Z.of_nat i) (Z.of_nat j)) by (split; lia).
  specialize (Hcell _ _ Hsq). unfold cell in Hcell.
  rewrite !board_get_on in Hcell by done. rewrite !Nat2Z.id, E, E' in Hcell.
  simpl in Hcell.
  destruct (lookup_lt_is_Some_2 row j) as [x Ex]; [lia|].
  destruct (lookup_lt_is_Some_2 row' j) as [x' Ex']; [lia|].
  rewrite Ex, Ex' in *. simpl in Hcell. by subst.
Qed.

(** ** Move construction *)

Lemma coords_elem x : 0 ≤ x < 8 → In x coords.
Proof.
  intros H. unfold coords. simpl.
  assert (x = 0 ∨ x = 1 ∨ x = 2 ∨ x = 3 ∨ x = 4 ∨ x = 5 ∨ x = 6 ∨ x = 7) by lia.
  intuition.
Qed.

Lemma id_table_checked : id_table_ok = true.
Proof. vm_compute. reflexivity. Qed.

Lemma make_id_on_board a b c d :
  0 ≤ a < 8 → 0 ≤ b < 8 → 0 ≤ c < 8 → 0 ≤ d < 8 →
  MoveM.make_id a b c d = Some (1000 * a + 100 * b + 10 * c + d).
Proof.
  intros Ha Hb Hc Hd. pose proof id_table_checked as H. unfold id_table_ok in H.
  rewrite forallb_forall in H. specialize (H a (coords_elem _ Ha)).
  rewrite forallb_forall in H. specialize (H b (coords_elem _ Hb)).
  rewrite forallb_forall in H. specialize (H c (coords_elem _ Hc)).
  rewrite forallb_forall in H. specialize (H d (coords_elem _ Hd)).
  destruct (MoveM.make_id a b c d); [|done]. apply Z.eqb_eq in H. by subst.
Qed.

Lemma rows_to_ranks_Some row : is_Some (MoveM.rows_to_ranks row) ↔ 0 ≤ row < 8.
Proof.
  unfold MoveM.rows_to_ranks. split.
  - repeat match goal with
           | |- context [?x =? ?y] => destruct (Z.eqb_spec x y); [lia|]
           end.
    by intros [? ?].
  - intros H.
    repeat match goal with
           | |- context [?x =? ?y] => destruct (Z.eqb_spec x y); [by eexists|]
           end.
    lia.
Qed.

Lemma cols_to_files_Some col : is_Some (MoveM.cols_to_files col) ↔ 0 ≤ col < 8.
Proof.
  unfold MoveM.cols_to_files. split.
  - repeat match goal with
           | |- context [?x =? ?y] => destruct (Z.eqb_spec x y); [lia|]
           end.
    by intros [? ?].
  - intros H.
    repeat match goal with
           | |- context [?x =? ?y] => destruct (Z.eqb_spec x y); [by eexists|]
           end.
    lia.
Qed.

Lemma truthy_false s : Py.truthy s = false ↔ s = ""%string.
Proof.
  unfold Py.truthy. rewrite negb_false_iff. apply String.eqb_eq.
Qed.

Lemma truthy_true s : Py.truthy s = true ↔ s ≠ ""%string.
Proof.
  unfold Py.truthy. rewrite negb_true_iff. apply String.eqb_neq.
Qed.

Lemma index1_is_Some s : is_Some (Py.index1 s) ↔ (2 ≤ String.length s)%nat.
Proof.
  unfold Py.index1. destruct s as [|a [|b s]]; simpl; split; try lia;
    try (intros [? ?]; done); intros; by eexists.
Qed.

Lemma startswith_nonempty s p : p ≠ ""%string → Py.startswith s p = true → s ≠ ""%string.
Proof. unfold Py.startswith. destruct p, s; simpl; congruence. Qed.

Lemma captured_coord_None e : captured_coord None e = e.
Proof. done. Qed.

Lemma captured_coord_same e : captured_coord (Some e) e = e.
Proof. unfold captured_coord. simpl. by destruct (negb _). Qed.

Lemma captured_coord_nonzero x e : x ≠ 0 → captured_coord (Some x) e = x.
Proof.
  intros H. unfold captured_coord. simpl. by destruct (Z.eqb_spec x 0).
Qed.

Lemma init_fields b sr sc er ec cro cco prim sec m :
  MoveM.init b (sr, sc) (er, ec) cro cco prim sec = Some m →
  startRow m = sr ∧ startCol m = sc ∧ endRow m = er ∧ endCol m = ec
  ∧ piece_captured_row m = captured_coord cro er
  ∧ piece_captured_col m = captured_coord cco ec
  ∧ board_get b sr sc = Some (piece_moved m)
  ∧ board_get b (captured_coord cro er) (captured_coord cco ec) = Some (piece_captured m)
  ∧ primary_move m = prim ∧ secondary_move m = sec
  ∧ 0 ≤ er < 8 ∧ 0 ≤ ec < 8.
Proof.
  unfold MoveM.init, MoveM.get_piece, MoveM.move_notation, MoveM.get_rank_file.
  fold (captured_coord cro er). fold (captured_coord cco ec).
  intros H. simplify_option_eq. repeat split; try done.
  - apply rows_to_ranks_Some. by eexists.
  - apply rows_to_ranks_Some. by eexists.
  - apply cols_to_files_Some. by eexists.
  - apply cols_to_files_Some. by eexists.
Qed.

Lemma init_Some b sr sc er ec cro cco prim sec :
  wf_board b → sq_ok sr sc → sq_ok er ec →
  sq_ok (captured_coord cro er) (captured_coord cco ec) →
  String.length (cell b sr sc) ≠ 1%nat →
  is_Some (MoveM.init b (sr, sc) (er, ec) cro cco prim sec).
Proof.
  intros Hwf Hs He Hc Hlen.
  unfold MoveM.init, MoveM.get_piece, MoveM.move_notation, MoveM.get_rank_file.
  fold (captured_coord cro er). fold (captured_coord cco ec).
  rewrite !board_get_cell by done. simpl.
  destruct Hs, He. rewrite make_id_on_board by done. simpl.
  destruct (proj2 (rows_to_ranks_Some er)) as [x1 ->]; [done|].
  destruct (proj2 (cols_to_files_Some ec)) as [x2 ->]; [done|]. simpl.
  destruct (Py.truthy (cell b sr sc)) eqn:Et; simpl; [|by eexists].
  destruct (proj2 (index1_is_Some (cell b sr sc))) as [k ->]; [|by eexists].
  apply truthy_true in Et. destruct (cell b sr sc) as [|? [|? ?]]; simpl in *; try done; lia.
Qed.

(** ** Soundness of the generators: every generated move is pseudo-legal *)

Section Soundness.
Context (s : GameState).
Implicit Types moves : list Move.

Lemma append_move_Some moves start end_ cr cc sec moves' :
  append_move s moves start end_ cr cc sec = Some moves' →
  ∃ m, MoveM.init (board s) start end_ cr cc None sec = Some m ∧ moves' = moves ++ [m].
Proof.
  unfold append_move. intros H. apply bind_Some in H as (m & Hm & H).
  exists m. by simplify_eq.
Qed.

Lemma Forall_snoc (P : Move → Prop) moves m :
  Forall P moves → P m → Forall P (moves ++ [m]).
Proof. intros. apply Forall_app. auto. Qed.

Lemma pawn_capture_sound moves r c dc moves' guard :
  own s r c "P" → dc = -1 ∨ dc = 1 →
  pawn_capture s moves r c (r + forward s) (c + dc) guard = Some moves' →
  Forall (pseudo s) moves → Forall (pseudo s) moves'.
Proof.
  intros Hown Hdc H Hall. unfold pawn_capture in H.
  destruct (on_board _ && guard); [|by simplify_eq].
  apply bind_Some in H as (t & Ht & H).
  destruct (Py.truthy t) eqn:Et; [|by simplify_eq].
  apply append_move_Some in H as (m & Hm & ->).
  apply Forall_snoc; [done|]. apply truthy_true in Et. by eapply ps_take.
Qed.

Lemma pawn_advance_sound moves r c moves' :
  own s r c "P" →
  pawn_advance s moves r c (forward s) (home_row s) = Some moves' →
  Forall (pseudo s) moves → Forall (pseudo s) moves'.
Proof.
  intros Hown H Hall. unfold pawn_advance in H.
  destruct (on_board _); [|by simplify_eq].
  apply bind_Some in H as (t & Ht & H).
  destruct (Py.truthy t) eqn:Et; simpl in H; [by simplify_eq|].
  apply truthy_false in Et as ->.
  apply bind_Some in H as (moves1 & H1 & H).
  apply append_move_Some in H1 as (m1 & Hm1 & ->).
  assert (Forall (pseudo s) (moves ++ [m1])) as Hall1.
  { apply Forall_snoc; [done|]. by eapply ps_push1. }
  destruct (Z.eqb_spec r (home_row s)) as [Hr|]; [|by simplify_eq].
  apply bind_Some in H as (t2 & Ht2 & H).
  destruct (Py.truthy t2) eqn:Et2; simpl in H; [by simplify_eq|].
  apply truthy_false in Et2 as ->.
  apply append_move_Some in H as (m2 & Hm2 & ->).
  apply Forall_snoc; [done|]. by eapply ps_push2.
Qed.

Lemma get_pawn_moves_sound moves r c moves' :
  own s r c "P" →
  get_pawn_moves s moves r c = Some moves' →
  Forall (pseudo s) moves → Forall (pseudo s) moves'.
Proof.
  intros Hown H Hall. unfold get_pawn_moves in H.
  pose proof (pawn_advance_sound moves r c) as Hadv.
  pose proof (λ mv mv', pawn_capture_sound mv r c (-1) mv') as Hl.
  pose proof (λ mv mv', pawn_capture_sound mv r c 1 mv') as Hr.
  unfold forward, home_row in Hadv, Hl, Hr.
  destruct (white_move s);
    apply bind_Some in H as (moves1 & H1 & H);
    apply bind_Some in H as (moves2 & H2 & H);
    eapply Hr; eauto; eapply Hl; eauto.
Qed.

Lemma en_passant_side_sound moves lm r c moves' :
  own s r c "P" → last (movelog s) = Some lm →
  Py.index1 (piece_moved lm) = Some "P"%string →
  en_passant_side s moves lm r c (passing_row s) 1 (passing_row s) (forward s)
    = Some moves' →
  Forall (pseudo s) moves → Forall (pseudo s) moves'.
Proof.
  intros Hown Hlast Hk H Hall. unfold en_passant_side in H.
  destruct (Z.eqb_spec r (passing_row s)) as [Hr|]; [|by simplify_eq].
  destruct (Z.eqb_spec (startRow lm) 1) as [Hsr|]; simpl in H; [|by simplify_eq].
  destruct (Z.eqb_spec (endRow lm) (passing_row s)) as [Her|]; [|by simplify_eq].
  destruct (Z.eqb_spec (endCol lm) (c + 1)) as [Hec|].
  - apply append_move_Some in H as (m & Hm & ->).
    apply Forall_snoc; [done|]. rewrite <-Hec in Hm. eapply ps_en_passant; eauto.
  - destruct (Z.eqb_spec (endCol lm) (c - 1)) as [Hec|]; [|by simplify_eq].
    apply append_move_Some in H as (m & Hm & ->).
    apply Forall_snoc; [done|]. rewrite <-Hec in Hm. eapply ps_en_passant; eauto.
Qed.

Lemma get_en_passant_sound moves r c moves' :
  own s r c "P" →
  get_en_passant s moves r c = Some moves' →
  Forall (pseudo s) moves → Forall (pseudo s) moves'.
Proof.
  intros Hown H Hall. unfold get_en_passant in H.
  destruct (last (movelog s)) as [lm|] eqn:Hlast; [|by simplify_eq].
  apply bind_Some in H as (k & Hk & H).
  destruct (String.eqb_spec k "P") as [->|]; [|by simplify_eq].
  pose proof (en_passant_side_sound moves lm r c moves' Hown Hlast Hk) as Hside.
  unfold passing_row, forward in Hside. destruct (white_move s); auto.
Qed.

Lemma step_to_sound moves r c k er ec moves' :
  own s r c k → k ≠ "P"%string →
  step_to s moves r c er ec = Some moves' →
  Forall (pseudo s) moves → Forall (pseudo s) moves'.
Proof.
  intros Hown Hk H Hall. unfold step_to in H.
  destruct (on_board er && on_board ec); [|by simplify_eq].
  apply bind_Some in H as (t & Ht & H).
  destruct (Py.startswith t (turn_colour s)) eqn:Est; simpl in H; [by simplify_eq|].
  apply append_move_Some in H as (m & Hm & ->).
  apply Forall_snoc; [done|]. by eapply ps_piece.
Qed.

Lemma step_all_sound offsets moves r c k moves' :
  own s r c k → k ≠ "P"%string →
  step_all s moves r c offsets = Some moves' →
  Forall (pseudo s) moves → Forall (pseudo s) moves'.
Proof.
  intros Hown Hk. revert moves.
  induction offsets as [|[i j] rest IH]; intros moves H Hall; simpl in H.
  - by simplify_eq.
  - apply bind_Some in H as (moves1 & H1 & H).
    eapply IH; [done|]. by eapply step_to_sound.
Qed.

Lemma ray_sound steps moves r c k d moves' :
  own s r c k → k ≠ "P"%string →
  ray s moves r c d steps = Some moves' →
  Forall (pseudo s) moves → Forall (pseudo s) moves'.
Proof.
  intros Hown Hk. revert moves.
  induction steps as [|i rest IH]; intros moves H Hall; simpl in H.
  - by simplify_eq.
  - destruct (on_board _ && on_board _); [|by eapply IH].
    apply bind_Some in H as (t & Ht & H).
    apply bind_Some in H as (moves1 & H1 & H).
    assert (Forall (pseudo s) moves1) as Hall1.
    { destruct (Py.startswith t (turn_colour s)) eqn:Est; simpl in H1;
        [by simplify_eq|].
      apply append_move_Some in H1 as (m & Hm & ->).
      apply Forall_snoc; [done|]. by eapply ps_piece. }
    destruct (Py.truthy t); [by simplify_eq|]. by eapply IH.
Qed.

Lemma rays_sound directs moves r c k moves' :
  own s r c k → k ≠ "P"%string →
  rays s moves r c directs = Some moves' →
  Forall (pseudo s) moves → Forall (pseudo s) moves'.
Proof.
  intros Hown Hk. revert moves.
  induction directs as [|d rest IH]; intros moves H Hall; cbn [rays] in H.
  - by simplify_eq.
  - apply bind_Some in H as (moves1 & H1 & H).
    eapply IH; [done|]. by eapply ray_sound.
Qed.

Lemma get_queen_moves_sound moves r c k moves' :
  own s r c k → k ≠ "P"%string →
  get_queen_moves s moves r c = Some moves' →
  Forall (pseudo s) moves → Forall (pseudo s) moves'.
Proof.
  intros Hown Hk H Hall. unfold get_queen_moves in H.
  apply bind_Some in H as (l1 & H1 & H).
  apply bind_Some in H as (l2 & H2 & H). injection H as <-.
  assert (Forall (pseudo s) l1) as Hl1 by by eapply rays_sound.
  assert (Forall (pseudo s) l2) as Hl2.
  { eapply rays_sound; [done..|]. by apply Forall_app. }
  by apply Forall_app.
Qed.

Lemma castle_sound moves rook_col rook_to king_to between label moves' :
  castle_side rook_col rook_to king_to between label →
  log_starts_at s (back_row s, 4) = false →
  castle s moves (back_row s) rook_col rook_to king_to between label = Some moves' →
  Forall (pseudo s) moves → Forall (pseudo s) moves'.
Proof.
  intros Hside Hking H Hall. unfold castle in H.
  destruct (log_starts_at s (back_row s, rook_col)) eqn:Hrook; simpl in H;
    [by simplify_eq|].
  apply bind_Some in H as (occ & Hocc & H).
  destruct occ; simpl in H; [by simplify_eq|].
  apply bind_Some in H as (rook & Hr & H).
  apply bind_Some in H as (king & Hkg & H). simplify_eq.
  apply Forall_snoc; [done|]. by eapply ps_castle.
Qed.

Lemma get_castles_sound moves moves' :
  get_castles s moves = Some moves' →
  Forall (pseudo s) moves → Forall (pseudo s) moves'.
Proof.
  intros H Hall. unfold get_castles in H. fold (back_row s) in H.
  destruct (log_starts_at s (back_row s, 4)) eqn:Hking; simpl in H;
    [by simplify_eq|].
  apply bind_Some in H as (moves1 & H1 & H).
  eapply castle_sound; [apply queenside|done|done|].
  eapply castle_sound; [apply kingside|done|done|done].
Qed.

Lemma scan_square_sound moves r c p moves' :
  0 ≤ r → 0 ≤ c → board_get (board s) r c = Some p →
  scan_square s moves r c p = Some moves' →
  Forall (pseudo s) moves → Forall (pseudo s) moves'.
Proof.
  intros Hr Hc Hp H Hall. unfold scan_square in H.
  destruct (Py.startswith p (turn_colour s)) eqn:Est; [|by simplify_eq].
  apply bind_Some in H as (k & Hk & H).
  assert (own s r c k) as Hown by (repeat split; eauto).
  destruct (String.eqb_spec k "P") as [->|HP].
  { apply bind_Some in H as (moves1 & H1 & H).
    eapply get_en_passant_sound; [done..|]. by eapply get_pawn_moves_sound. }
  destruct (String.eqb_spec k "K") as [->|HK].
  { apply bind_Some in H as (moves1 & H1 & H).
    eapply get_castles_sound; [done|]. by eapply step_all_sound. }
  destruct (String.eqb_spec k "Q") as [->|HQ]; [by eapply get_queen_moves_sound|].
  destruct (String.eqb_spec k "R") as [->|HR]; [by eapply rays_sound|].
  destruct (String.eqb_spec k "N") as [->|HN]; [by eapply step_all_sound|].
  destruct (String.eqb_spec k "B") as [->|HB]; [by eapply rays_sound|].
  by simplify_eq.
Qed.

Lemma board_get_lookup (b : Board) i j row p :
  b !! i = Some row → row !! j = Some p →
  board_get b (Z.of_nat i) (Z.of_nat j) = Some p.
Proof.
  intros Hi Hj. unfold board_get.
  rewrite norm_index_on by (apply lookup_lt_Some in Hi; lia).
  rewrite Nat2Z.id. simpl. rewrite Hi. simpl.
  rewrite norm_index_on by (apply lookup_lt_Some in Hj; lia).
  by rewrite Nat2Z.id.
Qed.

Lemma scan_row_sound rest moves r c moves' :
  0 ≤ r → 0 ≤ c →
  (∀ j p, rest !! j = Some p → board_get (board s) r (c + Z.of_nat j) = Some p) →
  scan_row s moves r c rest = Some moves' →
  Forall (pseudo s) moves → Forall (pseudo s) moves'.
Proof.
  intros Hr. revert moves c.
  induction rest as [|p rest IH]; intros moves c Hc Hget H Hall; simpl in H.
  - by simplify_eq.
  - apply bind_Some in H as (moves1 & H1 & H).
    eapply (IH moves1 (c + 1)); [lia| |done|].
    + intros j q Hj. specialize (Hget (S j) q Hj).
      by replace (c + 1 + Z.of_nat j) with (c + Z.of_nat (S j)) by lia.
    + eapply (scan_square_sound moves r c p moves1); [done|done| |done|done].
      specialize (Hget O p eq_refl). by rewrite Z.add_0_r in Hget.
Qed.

Lemma scan_rows_sound rows moves r moves' :
  0 ≤ r →
  (∀ i row, rows !! i = Some row → board s !! (Z.to_nat r + i)%nat = Some row) →
  scan_rows s moves r rows = Some moves' →
  Forall (pseudo s) moves → Forall (pseudo s) moves'.
Proof.
  revert moves r.
  induction rows as [|row rows IH]; intros moves r Hr Hget H Hall; simpl in H.
  - by simplify_eq.
  - apply bind_Some in H as (moves1 & H1 & H).
    eapply (IH moves1 (r + 1)); [lia| |done|].
    + intros i row' Hi. specialize (Hget (S i) row' Hi).
      by replace (Z.to_nat (r + 1) + i)%nat with (Z.to_nat r + S i)%nat by lia.
    + eapply (scan_row_sound row moves r 0 moves1); [done|lia| |done|done].
      intros j p Hj. specialize (Hget O row eq_refl).
      rewrite Nat.add_0_r in Hget.
      pose proof (board_get_lookup _ _ _ _ _ Hget Hj) as Hb.
      by rewrite Z2Nat.id in Hb by done.
Qed.

Theorem get_possible_moves_sound moves :
  get_possible_moves s = Some moves → Forall (pseudo s) moves.
Proof.
  intros H. eapply (scan_rows_sound (board s) [] 0); [lia| |done|done].
  intros i row Hi. done.
Qed.

End Soundness.

(** ** Totality of the generators under the invariants *)

Lemma cells_ok_cell b r c :
  wf_board b → cells_ok b → sq_ok r c → String.length (cell b r c) ≠ 1%nat.
Proof.
  intros Hwf Hok Hsq. pose proof (board_get_cell b r c Hwf Hsq) as Hget.
  rewrite board_get_on in Hget by done.
  apply bind_Some in Hget as (row & Hrow & Hx).
  unfold cells_ok in Hok. rewrite Forall_lookup in Hok.
  specialize (Hok _ _ Hrow). rewrite Forall_lookup in Hok. by apply (Hok _ _ Hx).
Qed.

Section Totality.
Context (s : GameState) (Hinv : inv s).
Implicit Types moves : list Move.

Lemma append_move_total moves sr sc er ec cro cco sec :
  sq_ok sr sc → sq_ok er ec →
  sq_ok (captured_coord cro er) (captured_coord cco ec) →
  is_Some (append_move s moves (sr, sc) (er, ec) cro cco sec).
Proof.
  intros Hs He Hc. unfold append_move.
  assert (is_Some (MoveM.init (board s) (sr, sc) (er, ec) cro cco None sec))
    as [m Hm].
  { apply init_Some; [apply Hinv|done..|].
    apply cells_ok_cell; [apply Hinv..|done]. }
  rewrite Hm. by eexists.
Qed.

Lemma append_plain_total moves sr sc er ec :
  sq_ok sr sc → sq_ok er ec →
  is_Some (append_move s moves (sr, sc) (er, ec) None None None).
Proof. intros. by apply append_move_total. Qed.

Lemma pawn_capture_total moves r c row col guard :
  sq_ok r c → (guard = true → 0 ≤ col < 8) →
  is_Some (pawn_capture s moves r c row col guard).
Proof.
  intros Hsq Hg. unfold pawn_capture.
  destruct (on_board row) eqn:Hrow; simpl; [|by eexists].
  destruct guard; [|by eexists].
  apply on_board_true in Hrow.
  rewrite board_get_cell; [|apply Hinv|split; auto]. simpl.
  destruct (Py.truthy _); [|by eexists].
  apply append_plain_total; [done|split; auto].
Qed.

Lemma pawn_advance_total moves r c dir home :
  sq_ok r c → (r = home → 0 ≤ r + 2 * dir < 8) →
  is_Some (pawn_advance s moves r c dir home).
Proof.
  intros Hsq Hh. unfold pawn_advance. pose proof Hsq as [Hr Hc].
  destruct (on_board (r + dir)) eqn:Hrow; [|by eexists].
  apply on_board_true in Hrow.
  rewrite (board_get_cell (board s) (r + dir) c); [|apply Hinv|split; auto].
  simpl. destruct (Py.truthy (cell (board s) (r + dir) c)); simpl; [by eexists|].
  destruct (append_plain_total moves r c (r + dir) c) as [moves1 ->];
    [done|split; auto|]. simpl.
  destruct (Z.eqb_spec r home) as [Heq|]; [|by eexists].
  rewrite (board_get_cell (board s) (r + 2 * dir) c); [|apply Hinv|split; auto].
  simpl. destruct (Py.truthy _); simpl; [by eexists|].
  apply append_plain_total; [done|split; auto].
Qed.

Lemma get_pawn_moves_total moves r c :
  sq_ok r c → is_Some (get_pawn_moves s moves r c).
Proof.
  intros Hsq. pose proof Hsq as [Hr Hc]. unfold get_pawn_moves.
  destruct (white_move s).
  - destruct (pawn_advance_total moves r c (-1) 6) as [m1 ->]; [done|lia|]. simpl.
    destruct (pawn_capture_total m1 r c (r - 1) (c - 1) (on_board (c - 1)))
      as [m2 ->]; [done|by intros ?%on_board_true|]. simpl.
    apply pawn_capture_total; [done|]. intros ?%Z.ltb_lt. lia.
  - destruct (pawn_advance_total moves r c 1 1) as [m1 ->]; [done|lia|]. simpl.
    destruct (pawn_capture_total m1 r c (r + 1) (c - 1) (on_board (c - 1)))
      as [m2 ->]; [done|by intros ?%on_board_true|]. simpl.
    apply pawn_capture_total; [done|]. intros ?%Z.ltb_lt. lia.
Qed.

Lemma en_passant_side_total moves lm r c rank to_row dir :
  sq_ok r c → sq_ok (endRow lm) (endCol lm) →
  0 ≤ rank + dir < 8 → to_row ≠ 0 →
  is_Some (en_passant_side s moves lm r c rank 1 to_row dir).
Proof.
  intros Hsq [Hlr Hlc] Hrank Hto. unfold en_passant_side.
  destruct (Z.eqb_spec r rank) as [->|]; [|by eexists].
  destruct (Z.eqb_spec (startRow lm) 1); simpl; [|by eexists].
  destruct (Z.eqb_spec (endRow lm) to_row) as [Her|]; [|by eexists].
  assert (captured_coord (Some (endRow lm)) (rank + dir) = endRow lm) as Hcr
    by (apply captured_coord_nonzero; lia).
  destruct (Z.eqb_spec (endCol lm) (c + 1)) as [Hec|].
  { apply append_move_total; [done|split; lia|].
    rewrite Hcr, <-Hec, captured_coord_same. split; lia. }
  destruct (Z.eqb_spec (endCol lm) (c - 1)) as [Hec'|]; [|by eexists].
  apply append_move_total; [done|split; lia|].
  rewrite Hcr, <-Hec', captured_coord_same. split; lia.
Qed.

Lemma get_en_passant_total moves r c :
  sq_ok r c → is_Some (get_en_passant s moves r c).
Proof.
  intros Hsq. unfold get_en_passant.
  destruct (last (movelog s)) as [lm|] eqn:Hlast; [|by eexists].
  destruct (inv_last s Hinv lm Hlast) as (Hlen & Hend & _).
  destruct (proj2 (index1_is_Some (piece_moved lm)) Hlen) as [k ->]. simpl.
  destruct (String.eqb k "P"); [|by eexists].
  destruct (white_move s); apply en_passant_side_total; done || lia.
Qed.

Lemma step_to_total moves r c er ec :
  sq_ok r c → is_Some (step_to s moves r c er ec).
Proof.
  intros Hsq. unfold step_to.
  destruct (on_board er) eqn:Her; simpl; [|by eexists].
  destruct (on_board ec) eqn:Hec; simpl; [|by eexists].
  apply on_board_true in Her, Hec.
  rewrite board_get_cell; [|apply Hinv|split; auto]. simpl.
  destruct (negb _); [|by eexists]. by apply append_plain_total.
Qed.

Lemma step_all_total offsets moves r c :
  sq_ok r c → is_Some (step_all s moves r c offsets).
Proof.
  intros Hsq. revert moves.
  induction offsets as [|[i j] rest IH]; intros moves; simpl; [by eexists|].
  destruct (step_to_total moves r c (r + i) (c + j) Hsq) as [m1 ->]. simpl.
  apply IH.
Qed.

Lemma ray_total steps moves r c d :
  sq_ok r c → is_Some (ray s moves r c d steps).
Proof.
  intros Hsq. revert moves.
  induction steps as [|i rest IH]; intros moves; simpl; [by eexists|].
  destruct (on_board (r + d.1 * i)) eqn:Her; simpl; [|apply IH].
  destruct (on_board (c + d.2 * i)) eqn:Hec; simpl; [|apply IH].
  apply on_board_true in Her, Hec.
  rewrite board_get_cell; [|apply Hinv|split; auto]. simpl.
  destruct (negb _); simpl.
  - destruct (append_plain_total moves r c (r + d.1 * i) (c + d.2 * i))
      as [m1 ->]; [done|split; auto|]. simpl.
    destruct (Py.truthy _); [by eexists|apply IH].
  - destruct (Py.truthy _); [by eexists|apply IH].
Qed.

Lemma rays_total directs moves r c :
  sq_ok r c → is_Some (rays s moves r c directs).
Proof.
  intros Hsq. revert moves.
  induction directs as [|d rest IH]; intros moves; cbn [rays]; [by eexists|].
  destruct (ray_total [1; 2; 3; 4; 5; 6; 7] moves r c d Hsq) as [m1 ->]. simpl.
  apply IH.
Qed.

Lemma get_queen_moves_total moves r c :
  sq_ok r c → is_Some (get_queen_moves s moves r c).
Proof.
  intros Hsq. unfold get_queen_moves, get_rook_moves, get_bishop_moves.
  destruct (rays_total [(-1, 0); (0, -1); (1, 0); (0, 1)] moves r c Hsq)
    as [m1 ->]. cbn [mbind option_bind].
  destruct (rays_total [(-1, -1); (1, 1); (-1, 1); (1, -1)] (m1 ++ m1) r c Hsq)
    as [m2 ->]. by eexists.
Qed.

Lemma any_occupied_total row cols :
  0 ≤ row < 8 → Forall (λ c, 0 ≤ c < 8) cols →
  is_Some (any_occupied (board s) row cols).
Proof.
  intros Hrow Hcols. induction Hcols as [|c cols Hc _ IH]; simpl; [by eexists|].
  rewrite board_get_cell; [|apply Hinv|split; auto]. simpl.
  destruct IH as [x ->]. simpl. by eexists.
Qed.

Lemma castle_total moves row rook_col rook_to king_to between label :
  0 ≤ row < 8 → castle_side rook_col rook_to king_to between label →
  is_Some (castle s moves row rook_col rook_to king_to between label).
Proof.
  intros Hrow Hside. unfold castle.
  destruct (negb _); [|by eexists].
  destruct (any_occupied_total row between) as [occ ->]; [done| |].
  { destruct Hside; repeat constructor; lia. }
  cbn [mbind option_bind]. destruct (negb occ); [|by eexists].
  assert (∀ c sec, 0 ≤ c < 8 → ∀ c', 0 ≤ c' < 8 →
    is_Some (MoveM.init (board s) (row, c) (row, c') None None None sec))
    as Hinit.
  { intros c sec Hc c' Hc'.
    apply init_Some; rewrite ?captured_coord_None; try by split.
    - apply Hinv.
    - apply cells_ok_cell; [apply Hinv..|by split]. }
  destruct (Hinit rook_col None) with (c' := rook_to) as [rook ->];
    [destruct Hside; lia..|].
  cbn [mbind option_bind].
  destruct (Hinit 4 (Some rook)) with (c' := king_to) as [king ->];
    [destruct Hside; lia..|].
  by eexists.
Qed.

Lemma get_castles_total moves : is_Some (get_castles s moves).
Proof.
  unfold get_castles. destruct (negb _); [|by eexists].
  set (row := if white_move s then 7 else 0).
  assert (0 ≤ row < 8) as Hrow by (subst row; destruct (white_move s); lia).
  destruct (castle_total moves row 7 5 6 [5; 6] "O-O" Hrow kingside) as [m1 ->].
  cbn [mbind option_bind]. by apply castle_total, queenside.
Qed.

Lemma scan_square_total moves r c p :
  sq_ok r c → String.length p ≠ 1%nat →
  is_Some (scan_square s moves r c p).
Proof.
  intros Hsq Hlen. unfold scan_square.
  destruct (Py.startswith p (turn_colour s)) eqn:Est; [|by eexists].
  destruct (proj2 (index1_is_Some p)) as [k ->].
  { assert (p ≠ ""%string) as Hne.
    { eapply startswith_nonempty; [|done]. unfold turn_colour.
      by destruct (white_move s). }
    destruct p as [|? [|? ?]]; simpl in *; try done; lia. }
  simpl.
  destruct (String.eqb k "P").
  { destruct (get_pawn_moves_total moves r c Hsq) as [m1 ->]. simpl.
    by apply get_en_passant_total. }
  destruct (String.eqb k "K").
  { destruct (step_all_total king_offsets moves r c Hsq) as [m1 Hm1].
    unfold get_king_moves. rewrite Hm1. simpl. apply get_castles_total. }
  destruct (String.eqb k "Q"); [by apply get_queen_moves_total|].
  destruct (String.eqb k "R"); [by apply rays_total|].
  destruct (String.eqb k "N"); [by apply step_all_total|].
  destruct (String.eqb k "B"); [by apply rays_total|].
  by eexists.
Qed.

Lemma scan_row_total rest moves r c :
  0 ≤ r < 8 → 0 ≤ c → c + Z.of_nat (length rest) ≤ 8 →
  Forall (λ x : string, String.length x ≠ 1%nat) rest →
  is_Some (scan_row s moves r c rest).
Proof.
  intros Hr. revert moves c.
  induction rest as [|p rest IH]; intros moves c Hc Hlen Hok; simpl;
    [by eexists|].
  apply Forall_cons in Hok as [Hp Hok]. simpl in Hlen.
  destruct (scan_square_total moves r c p) as [m1 ->]; [split; lia|done|].
  simpl. apply IH; [lia|lia|done].
Qed.

Lemma scan_rows_total rows moves r :
  0 ≤ r → r + Z.of_nat (length rows) ≤ 8 →
  Forall (λ row : list string, length row = 8%nat) rows →
  Forall (Forall (λ x : string, String.length x ≠ 1%nat)) rows →
  is_Some (scan_rows s moves r rows).
Proof.
  revert moves r.
  induction rows as [|row rows IH]; intros moves r Hr Hlen Hwf Hok; simpl;
    [by eexists|].
  apply Forall_cons in Hok as [Hrow Hok]. apply Forall_cons in Hwf as [Hl Hwf].
  simpl in Hlen.
  destruct (scan_row_total row moves r 0) as [m1 ->]; [lia|lia|lia|done|].
  simpl. apply IH; [lia|lia|done|done].
Qed.

Theorem get_possible_moves_total : is_Some (get_possible_moves s).
Proof.
  unfold get_possible_moves. destruct (inv_wf s Hinv) as [Hlen Hrows].
  apply scan_rows_total; [lia|lia|done|apply Hinv].
Qed.

End Totality.

(** ** Making and undoing a move *)

Lemma restored1_written1 m f r c :
  built_on f m → restored1 m (written1 m f) r c = f r c.
Proof.
  intros (Hpm & Hpc & Hend). unfold restored1, written1, upd.
  repeat case_decide; simplify_eq; try done; destruct Hend as [?|[? ?]];
    simplify_eq; congruence.
Qed.

Lemma restored_written m f r c :
  built_on f m →
  match secondary_move m with
  | Some second => built_on f second
  | None => True
  end →
  restored m (written m f) r c = f r c.
Proof.
  intros Hm Hsec. unfold restored, written.
  destruct (secondary_move m) as [second|]; [|by apply restored1_written1].
  destruct Hm as (Hpm & Hpc & Hend). destruct Hsec as (Hpm' & Hpc' & Hend').
  unfold restored1, written1, upd.
  repeat case_decide; simplify_eq; try done;
    destruct Hend as [?|[? ?]]; destruct Hend' as [?|[? ?]];
    simplify_eq; congruence.
Qed.

Lemma board_set_cells b r c v b' :
  board_set b r c v = Some b' → cells_ok b → String.length v ≠ 1%nat → cells_ok b'.
Proof.
  unfold board_set, cells_ok. intros H Hok Hv.
  apply bind_Some in H as (i & Hi & H). apply bind_Some in H as (row & Hrow & H).
  apply bind_Some in H as (j & Hj & H). simplify_eq.
  apply Forall_insert; [done|]. apply Forall_insert; [|done].
  rewrite Forall_lookup in Hok. by eapply Hok.
Qed.

Lemma truthy_or_empty x : (if Py.truthy x then x else ""%string) = x.
Proof. destruct (Py.truthy x) eqn:E; [done|]. by apply truthy_false in E. Qed.

Lemma write_squares b m :
  wf_board b → squares_ok m →
  ∃ b3,
    (b1 ← board_set b (startRow m) (startCol m) "";
     b2 ← board_set b1 (piece_captured_row m) (piece_captured_col m) "";
     board_set b2 (endRow m) (endCol m) (piece_moved m)) = Some b3
    ∧ wf_board b3
    ∧ (∀ r c, sq_ok r c → cell b3 r c = written1 m (cell b) r c)
    ∧ (cells_ok b → String.length (piece_moved m) ≠ 1%nat → cells_ok b3).
Proof.
  intros Hwf (Hs & He & Hc).
  destruct (board_set_spec b _ _ "" Hwf Hs) as (b1 & E1 & Hwf1 & Hc1).
  destruct (board_set_spec b1 _ _ "" Hwf1 Hc) as (b2 & E2 & Hwf2 & Hc2).
  destruct (board_set_spec b2 _ _ (piece_moved m) Hwf2 He) as (b3 & E3 & Hwf3 & Hc3).
  exists b3. rewrite E1. cbn [mbind option_bind]. rewrite E2. cbn [mbind option_bind].
  split; [done|]. split; [done|]. split.
  - intros r c Hsq. unfold written1, upd.
    rewrite Hc3, Hc2, Hc1 by done. done.
  - intros Hok Hlen. eapply board_set_cells; [exact E3| |done].
    eapply board_set_cells; [exact E2| |done].
    by eapply board_set_cells; [exact E1| |].
Qed.

Lemma restore_squares_spec b m :
  wf_board b → squares_ok m →
  ∃ b3, restore_squares b m = Some b3 ∧ wf_board b3
    ∧ (∀ r c, sq_ok r c → cell b3 r c = restored1 m (cell b) r c).
Proof.
  intros Hwf (Hs & He & Hc). unfold restore_squares. rewrite truthy_or_empty.
  destruct (board_set_spec b _ _ (piece_moved m) Hwf Hs) as (b1 & E1 & Hwf1 & Hc1).
  destruct (board_set_spec b1 _ _ "" Hwf1 He) as (b2 & E2 & Hwf2 & Hc2).
  destruct (board_set_spec b2 _ _ (piece_captured m) Hwf2 Hc)
    as (b3 & E3 & Hwf3 & Hc3).
  exists b3. rewrite E1. cbn [mbind option_bind]. rewrite E2. cbn [mbind option_bind].
  split; [done|]. split; [done|].
  intros r c Hsq. unfold restored1, upd. rewrite Hc3, Hc2, Hc1 by done. done.
Qed.

Lemma make_move_unfold self move log :
  make_move self move log =
  b1 ← board_set (board self) (startRow move) (startCol move) "";
  b2 ← board_set b1 (piece_captured_row move) (piece_captured_col move) "";
  b3 ← board_set b2 (endRow move) (endCol move) (piece_moved move);
  match secondary_move move with
  | Some second => make_move (after_writes self move log b3) second false
  | None => Some (toggle_turn (after_writes self move log b3))
  end.
Proof. destruct move; reflexivity. Qed.

Lemma after_writes_fields self move log b3 :
  board (after_writes self move log b3) = b3
  ∧ white_move (after_writes self move log b3) = white_move self
  ∧ movelog (after_writes self move log b3)
    = (if log then movelog self ++ [move] else movelog self)
  ∧ checkmate (after_writes self move log b3) = checkmate self
  ∧ stalemate (after_writes self move log b3) = stalemate self.
Proof.
  unfold after_writes.
  destruct log, (String.eqb (piece_moved move) "wK"),
    (String.eqb (piece_moved move) "bK"); done.
Qed.

Lemma make_move_plain s m log :
  wf_board (board s) → squares_ok m → secondary_move m = None →
  ∃ s1, make_move s m log = Some s1
    ∧ wf_board (board s1)
    ∧ (∀ r c, sq_ok r c → cell (board s1) r c = written1 m (cell (board s)) r c)
    ∧ (cells_ok (board s) → String.length (piece_moved m) ≠ 1%nat →
       cells_ok (board s1))
    ∧ white_move s1 = negb (white_move s)
    ∧ movelog s1 = (if log then movelog s ++ [m] else movelog s)
    ∧ same_flags s s1.
Proof.
  intros Hwf Hsq Hsec. rewrite make_move_unfold, Hsec.
  destruct (write_squares (board s) m Hwf Hsq) as (b3 & E & Hwf3 & Hcell & Hok).
  apply bind_Some in E as (b1 & E1 & E). apply bind_Some in E as (b2 & E2 & E3).
  rewrite E1. cbn [mbind option_bind]. rewrite E2. cbn [mbind option_bind].
  rewrite E3. cbn [mbind option_bind].
  destruct (after_writes_fields s m log b3) as (Fb & Fw & Fl & Fc & Fs).
  eexists. split; [done|]. unfold toggle_turn, same_flags. simpl.
  rewrite Fb, Fw, Fl, Fc, Fs. done.
Qed.

Lemma make_move_spec s m :
  wf_board (board s) → move_ok (board s) m →
  ∃ s1, make_move s m true = Some s1
    ∧ wf_board (board s1)
    ∧ (∀ r c, sq_ok r c → cell (board s1) r c = written m (cell (board s)) r c)
    ∧ (cells_ok (board s) → cells_ok (board s1))
    ∧ white_move s1 = negb (white_move s)
    ∧ movelog s1 = movelog s ++ [m]
    ∧ same_flags s s1.
Proof.
  intros Hwf (Hsq & Hbuilt & Hsec). unfold written.
  assert (∀ x, squares_ok x → built_on (cell (board s)) x → cells_ok (board s) →
            String.length (piece_moved x) ≠ 1%nat) as Hlen.
  { intros x (Hs & _) (Hpm & _) Hok. rewrite <-Hpm. by apply cells_ok_cell. }
  destruct (secondary_move m) as [second|] eqn:E2.
  - destruct Hsec as (Hsq2 & Hbuilt2 & Hsec2).
    rewrite make_move_unfold, E2.
    destruct (write_squares (board s) m Hwf Hsq) as (b3 & E & Hwf3 & Hcell & Hok).
    apply bind_Some in E as (b1 & Eb1 & E). apply bind_Some in E as (b2 & Eb2 & Eb3).
    rewrite Eb1. cbn [mbind option_bind]. rewrite Eb2. cbn [mbind option_bind].
    rewrite Eb3. cbn [mbind option_bind].
    destruct (after_writes_fields s m true b3) as (Fb & Fw & Fl & Fc & Fs).
    destruct (make_move_plain (after_writes s m true b3) second false)
      as (s1 & Es1 & Hwf1 & Hcell1 & Hok1 & Hw1 & Hl1 & Hf1 & Hf2);
      [by rewrite Fb|done|done|].
    exists s1. split; [done|]. rewrite Fb in *. rewrite Fw in Hw1.
    rewrite Fl in Hl1. rewrite Fc in Hf1. rewrite Fs in Hf2.
    split; [done|]. split; [|split; [|by repeat split]].
    + intros r c Hrc. rewrite Hcell1 by done. unfold written1 at 1 3, upd.
      by rewrite Hcell by done.
    + intros Hcells. apply Hok1; [apply Hok|]; auto.
  - destruct (make_move_plain s m true Hwf Hsq E2)
      as (s1 & Es1 & Hwf1 & Hcell1 & Hok1 & Hw1 & Hl1 & Hf1).
    exists s1. split; [done|]. split; [done|]. split; [done|].
    split; [|done]. intros Hcells. auto.
Qed.

Lemma undo_move_spec s m :
  wf_board (board s) → last (movelog s) = Some m → squares_ok m →
  match secondary_move m with
  | Some second => squares_ok second
  | None => True
  end →
  ∃ s2, undo_move s = Some s2
    ∧ wf_board (board s2)
    ∧ (∀ r c, sq_ok r c → cell (board s2) r c = restored m (cell (board s)) r c)
    ∧ white_move s2 = negb (white_move s)
    ∧ movelog s2 = removelast (movelog s)
    ∧ same_flags s s2.
Proof.
  intros Hwf Hlast Hsq Hsec. unfold undo_move, restored. rewrite Hlast. simpl.
  destruct (restore_squares_spec (board s) m Hwf Hsq) as (b1 & E1 & Hwf1 & Hc1).
  rewrite E1. cbn [mbind option_bind].
  destruct (secondary_move m) as [second|].
  - destruct (restore_squares_spec b1 second Hwf1 Hsec) as (b2 & E2 & Hwf2 & Hc2).
    rewrite E2. cbn [mbind option_bind]. eexists. split; [done|]. simpl.
    split; [done|]. split; [|done].
    intros r c Hrc. rewrite Hc2 by done. unfold restored1 at 1 3, upd.
    by rewrite Hc1 by done.
  - cbn [mbind option_bind]. eexists. split; [done|]. simpl. done.
Qed.

Lemma make_undo s m :
  wf_board (board s) → move_ok (board s) m →
  ∃ s1, make_move s m true = Some s1
    ∧ ∃ s2, undo_move s1 = Some s2 ∧ same_position s s2 ∧ same_flags s s2.
Proof.
  intros Hwf Hok.
  destruct (make_move_spec s m Hwf Hok)
    as (s1 & E1 & Hwf1 & Hc1 & _ & Hw1 & Hl1 & Hf1 & Hf1').
  destruct Hok as (Hsq & Hbuilt & Hsec).
  destruct (undo_move_spec s1 m) as (s2 & E2 & Hwf2 & Hc2 & Hw2 & Hl2 & Hf2 & Hf2');
    [done|by rewrite Hl1, last_snoc|done| |].
  { destruct (secondary_move m); [apply Hsec|done]. }
  exists s1. split; [done|]. exists s2. split; [done|]. split; [split; [|split]|].
  - symmetry. apply board_ext; [done..|]. intros r c Hrc.
    rewrite Hc2 by done. rewrite <-(restored_written m (cell (board s)) r c).
    + unfold restored. destruct (secondary_move m) as [second|].
      * unfold restored1, upd. repeat case_decide; try done; by rewrite Hc1.
      * unfold restored1, upd. repeat case_decide; try done; by rewrite Hc1.
    + done.
    + destruct (secondary_move m); [apply Hsec|done].
  - by rewrite Hw2, Hw1, negb_involutive.
  - by rewrite Hl2, Hl1, removelast_last.
  - split; congruence.
Qed.

(** ** Pseudo-legal moves in positions that satisfy the invariants *)

Lemma init_plain b r c er ec sec p m :
  wf_board b → 0 ≤ r → 0 ≤ c → board_get b r c = Some p →
  MoveM.init b (r, c) (er, ec) None None None sec = Some m →
  sq_ok r c ∧ sq_ok er ec
  ∧ startRow m = r ∧ startCol m = c ∧ endRow m = er ∧ endCol m = ec
  ∧ piece_captured_row m = er ∧ piece_captured_col m = ec
  ∧ piece_moved m = p ∧ p = cell b r c
  ∧ piece_captured m = cell b er ec
  ∧ secondary_move m = sec.
Proof.
  intros Hwf Hr Hc Hp Hm.
  apply init_fields in Hm
    as (F1 & F2 & F3 & F4 & F5 & F6 & F7 & F8 & _ & F10 & F11 & F12).
  rewrite !captured_coord_None in *.
  pose proof (board_get_sq_ok b r c p Hwf Hr Hc Hp) as Hsq.
  assert (sq_ok er ec) as Hsq' by done.
  rewrite board_get_cell in Hp, F7, F8 by done.
  injection Hp as Hp. injection F7 as F7. injection F8 as F8.
  split; [done|]. split; [done|]. repeat split; congruence.
Qed.

Lemma own_facts s r c k :
  inv s → own s r c k →
  sq_ok r c ∧ board_get (board s) r c = Some (cell (board s) r c)
  ∧ Py.index1 (cell (board s) r c) = Some k
  ∧ (2 ≤ String.length (cell (board s) r c))%nat.
Proof.
  intros Hinv (Hr & Hc & p & Hp & Hst & Hk).
  pose proof (board_get_sq_ok _ r c p (inv_wf s Hinv) Hr Hc Hp) as Hsq.
  pose proof Hp as Hp'. rewrite board_get_cell in Hp' by (done || apply Hinv).
  simplify_eq. repeat split; try done; try apply Hsq.
  apply index1_is_Some. by eexists.
Qed.

Lemma board_get_empty b r c :
  wf_board b → sq_ok r c → board_get b r c = Some ""%string → cell b r c = ""%string.
Proof. intros Hwf Hsq H. unfold cell. by rewrite H. Qed.

Lemma pseudo_shape s m :
  inv s → pseudo s m →
  squares_ok m
  ∧ piece_moved m = cell (board s) (startRow m) (startCol m)
  ∧ piece_captured m
    = cell (board s) (piece_captured_row m) (piece_captured_col m)
  ∧ (2 ≤ String.length (piece_moved m))%nat
  ∧ shape s m.
Proof.
  intros Hinv Hps. pose proof (inv_wf s Hinv) as Hwf.
  assert (∀ r c k er ec m,
    own s r c k →
    MoveM.init (board s) (r, c) (er, ec) None None None None = Some m →
    squares_ok m
    ∧ piece_moved m = cell (board s) (startRow m) (startCol m)
    ∧ piece_captured m
      = cell (board s) (piece_captured_row m) (piece_captured_col m)
    ∧ (2 ≤ String.length (piece_moved m))%nat
    ∧ (piece_captured_row m, piece_captured_col m) = (endRow m, endCol m)
    ∧ secondary_move m = None
    ∧ startRow m = r ∧ startCol m = c ∧ endRow m = er ∧ endCol m = ec
    ∧ Py.index1 (piece_moved m) = Some k) as Hplain.
  { clear m Hps. intros r c k er ec m Hown Hm.
    destruct (own_facts s r c k Hinv Hown) as (Hsq & Hget & Hk & Hlen).
    destruct Hown as (Hr & Hc & _).
    destruct (init_plain _ r c er ec None _ m Hwf Hr Hc Hget Hm)
      as (G1 & G2 & G3 & G4 & G5 & G6 & G7 & G8 & G9 & _ & G11 & G12).
    unfold squares_ok. rewrite G3, G4, G5, G6, G7, G8, G9, G11.
    repeat split; try done; try apply G1; try apply G2. }
  destruct Hps as [r c m Hown Hfree Hm | r c m Hown Hhome Hfree1 Hfree2 Hm
    | r c dc t m Hown Hdc Ht Hne Hm | r c lm m Hown Hlast HP Hr Hsr Her Hec Hm
    | r c k er ec t m Hown Hk Ht Hst Hm
    | rook_col rook_to king_to between label rook king Hside Hking Hrook Hocc
        Hrk Hkg].
  - destruct (Hplain _ _ _ _ _ _ Hown Hm)
      as (H1 & H2 & H3 & H4 & H5 & H6 & H7 & H8 & H9 & H10 & H11).
    repeat split; try done; try apply H1. apply shape_simple; [done..|].
    intros _ Hrow. rewrite H9. rewrite H7 in Hrow. subst r.
    unfold forward. destruct (white_move s); split; lia.
  - destruct (Hplain _ _ _ _ _ _ Hown Hm)
      as (H1 & H2 & H3 & H4 & H5 & H6 & H7 & H8 & H9 & H10 & H11).
    repeat split; try done; try apply H1. apply shape_simple; [done..|].
    intros _ Hrow. rewrite H9, H10, H8. rewrite H7 in Hrow. subst r.
    unfold home_row, forward in *. destruct (white_move s); [lia|].
    split; [lia|]. intros _. split; [|done].
    apply board_get_empty; [done| |done].
    destruct H1 as ((_ & Hc) & _). rewrite H8 in Hc. split; [lia|done].
  - destruct (Hplain _ _ _ _ _ _ Hown Hm)
      as (H1 & H2 & H3 & H4 & H5 & H6 & H7 & H8 & H9 & H10 & H11).
    repeat split; try done; try apply H1. apply shape_simple; [done..|].
    intros _ Hrow. rewrite H9. rewrite H7 in Hrow. subst r.
    unfold forward. destruct (white_move s); split; lia.
  - destruct (own_facts s r c "P" Hinv Hown) as (Hsq & Hget & Hk & Hlen).
    destruct (inv_last s Hinv lm Hlast) as (Hlmlen & Hlmend & Hlm).
    specialize (Hlm HP Hsr) as (Hne5 & H3).
    assert (white_move s = true) as Hw.
    { unfold passing_row in Her. destruct (white_move s); [done|lia]. }
    unfold passing_row, forward in *. rewrite Hw in *. subst r.
    apply init_fields in Hm
      as (F1 & F2 & F3 & F4 & F5 & F6 & F7 & F8 & _ & F10 & F11 & F12).
    rewrite captured_coord_same in *.
    rewrite captured_coord_nonzero in * by lia.
    rewrite Her in *.
    assert (sq_ok 3 (endCol lm)) as Hcap by (split; [lia|apply Hlmend]).
    rewrite board_get_cell in F7, F8 by done.
    injection F7 as F7. injection F8 as F8. specialize (H3 eq_refl).
    replace (3 + -1) with 2 in * by lia.
    unfold squares_ok. rewrite F1, F2, F3, F4, F5, F6, <-F7, <-F8.
    split; [|split; [done|split; [done|split; [done|]]]].
    { split; [done|]. split; [|done]. split; [lia|apply Hlmend]. }
    apply shape_en_passant; rewrite ?F1, ?F2, ?F3, ?F4, ?F5, ?F6; auto; lia.
  - destruct (Hplain _ _ _ _ _ _ Hown Hm)
      as (H1 & H2 & H3 & H4 & H5 & H6 & H7 & H8 & H9 & H10 & H11).
    repeat split; try done; try apply H1. apply shape_simple; [done..|].
    intros HP. congruence.
  - assert (back_row s = 0 ∨ back_row s = 7) as Hrow
      by (unfold back_row; destruct (white_move s); auto).
    assert (0 ≤ back_row s) as Hrow0 by lia.
    assert (sq_ok (back_row s) 4) as Hsq4 by (split; lia).
    assert (sq_ok (back_row s) rook_col) as Hsqr
      by (destruct Hside; split; lia).
    assert (0 ≤ rook_col) as Hrc0 by apply Hsqr.
    assert (0 ≤ 4) as H40 by lia.
    destruct (init_plain _ _ _ _ _ _ _ rook Hwf Hrow0 Hrc0
                (board_get_cell _ _ _ Hwf Hsqr) Hrk)
      as (G1 & G2 & G3 & G4 & G5 & G6 & G7 & G8 & G9 & _ & G11 & G12).
    destruct (init_plain _ _ _ _ _ _ _ king Hwf Hrow0 H40
                (board_get_cell _ _ _ Hwf Hsq4) Hkg)
      as (K1 & K2 & K3 & K4 & K5 & K6 & K7 & K8 & K9 & _ & K11 & K12).
    unfold squares_ok. simpl. rewrite K3, K4, K5, K6, K7, K8, K9, K11.
    repeat split; try done; try apply K2; try lia.
    + apply (inv_kings s Hinv) in Hking; [|done].
      pose proof (cells_ok_cell _ _ _ Hwf (inv_cells s Hinv) Hsq4).
      destruct (cell (board s) (back_row s) 4) as [|? [|? ?]]; simpl in *;
        try done; lia.
    + apply (shape_castle s _ rook); simpl;
        rewrite ?K3, ?K4, ?K5, ?K6, ?K7, ?K8; auto.
      * unfold squares_ok. rewrite G3, G4, G5, G6, G7, G8. done.
      * unfold built_on. rewrite G3, G4, G5, G6, G7, G8, G9, G11. auto.
      * congruence.
      * rewrite G4. destruct Hside; lia.
      * rewrite G6. destruct Hside; lia.
Qed.

Lemma pseudo_move_ok s m : inv s → pseudo s m → move_ok (board s) m.
Proof.
  intros Hinv Hps.
  destruct (pseudo_shape s m Hinv Hps) as (Hsq & Hpm & Hpc & Hlen & Hshape).
  unfold move_ok, built_on.
  destruct Hshape as [Hcap Hsec _ | _ Hsec Hfree Hrows _ _
    | second Hcap Hsec _ Hsq2 Hbuilt2 Hsec2 _ _ _]; rewrite Hsec.
  - repeat split; try done; try apply Hsq; auto.
  - repeat split; try done; try apply Hsq. right. split; [done|]. congruence.
  - repeat split; try done; try apply Hsq; try apply Hsq2; try apply Hbuilt2; auto.
Qed.

Lemma log_starts_at_snoc s s1 m sq :
  movelog s1 = movelog s ++ [m] →
  log_starts_at s1 sq
  = log_starts_at s sq || ((startRow m =? sq.1) && (startCol m =? sq.2)).
Proof.
  intros Hl. unfold log_starts_at. rewrite Hl, existsb_app. simpl.
  by rewrite orb_false_r.
Qed.

Lemma long_nonempty x : (2 ≤ String.length x)%nat → x ≠ ""%string.
Proof. destruct x; simpl; [lia|done]. Qed.

Lemma make_move_inv s m :
  inv s → pseudo s m →
  ∃ s1, make_move s m true = Some s1 ∧ inv s1
    ∧ white_move s1 = negb (white_move s)
    ∧ movelog s1 = movelog s ++ [m]
    ∧ same_flags s s1.
Proof.
  intros Hinv Hps. pose proof (inv_wf s Hinv) as Hwf.
  pose proof (pseudo_move_ok s m Hinv Hps) as Hok.
  destruct (pseudo_shape s m Hinv Hps) as (Hsq & Hpm & Hpc & Hlen & Hshape).
  destruct (make_move_spec s m Hwf Hok)
    as (s1 & E1 & Hwf1 & Hc1 & Hcells1 & Hw1 & Hl1 & Hf1).
  exists s1. split; [done|]. split; [|done]. split.
  - done.
  - apply Hcells1, Hinv.
  - intros lm Hlast. rewrite Hl1, last_snoc in Hlast. injection Hlast as <-.
    split; [done|]. split; [apply Hsq|]. intros HP Hrow.
    destruct Hshape as [Hcap Hsec Hdouble | _ Hsec Hfree Hrows Hpass _
      | second Hcap Hsec Hback _ _ _ _ _ _]; [|lia|lia].
    destruct (Hdouble HP Hrow) as (Hne5 & Hthree). split; [done|].
    intros H3. destruct (Hthree H3) as (Hempty & Hcol).
    rewrite Hc1 by (split; [lia|apply Hsq]).
    unfold written, written1, upd. rewrite Hsec.
    injection Hcap as Hcr Hcc. rewrite Hcr, Hcc.
    repeat case_decide; simplify_eq; try done; lia.
  - intros row Hrow Hlog.
    rewrite (log_starts_at_snoc s s1 m) in Hlog by done.
    apply orb_false_iff in Hlog as [Hlog Hstart]. simpl in Hstart.
    pose proof (inv_kings s Hinv row Hrow Hlog) as Hking.
    pose proof (long_nonempty _ Hlen) as Hne.
    rewrite Hc1 by (split; lia).
    assert (¬ (row = startRow m ∧ 4 = startCol m)) as Hns.
    { intros [-> Hc]. rewrite <-Hc in Hstart. by rewrite !Z.eqb_refl in Hstart. }
    unfold written, written1, upd.
    destruct Hshape as [Hcap Hsec _ | _ Hsec Hfree Hrows Hpass Hcaprow
      | second Hcap Hsec Hback _ _ Hsec2 Hcap2 Hsc2 Hec2]; rewrite Hsec.
    + injection Hcap as Hcr Hcc. rewrite Hcr, Hcc.
      repeat case_decide; simplify_eq; try done. by destruct Hns.
    + repeat case_decide; simplify_eq; try done; try lia; by destruct Hns.
    + injection Hcap as Hcr Hcc. rewrite Hcr, Hcc.
      injection Hcap2 as Hcr2 Hcc2. rewrite Hcr2, Hcc2.
      repeat case_decide; simplify_eq; try done. by destruct Hns.
Qed.

(** ** The legality filter leaves the position unchanged *)

Lemma same_position_refl s : same_position s s.
Proof. done. Qed.

Lemma same_position_sym s s' : same_position s s' → same_position s' s.
Proof. intros (? & ? & ?). by repeat split. Qed.

Lemma same_position_trans s1 s2 s3 :
  same_position s1 s2 → same_position s2 s3 → same_position s1 s3.
Proof. intros (? & ? & ?) (? & ? & ?). repeat split; congruence. Qed.

Lemma inv_same s s' : same_position s s' → inv s → inv s'.
Proof.
  intros (Hb & Hw & Hl) [H1 H2 H3 H4].
  split; unfold last_ok, kings_ok, log_starts_at in *; rewrite <-?Hb, <-?Hl; done.
Qed.

Lemma own_same s s' r c k : same_position s s' → own s r c k → own s' r c k.
Proof.
  intros (Hb & Hw & Hl). unfold own, turn_colour. by rewrite Hb, Hw.
Qed.

Lemma pseudo_same s s' m : same_position s s' → pseudo s m → pseudo s' m.
Proof.
  intros Hsame Hps. pose proof Hsame as (Hb & Hw & Hl).
  destruct Hps;
    [eapply ps_push1|eapply ps_push2|eapply ps_take|eapply ps_en_passant
    |eapply ps_piece|eapply ps_castle];
    unfold forward, home_row, back_row, passing_row, log_starts_at, turn_colour in *;
    rewrite <-?Hb, <-?Hw, <-?Hl; eauto using own_same.
Qed.

Lemma get_possible_moves_same s s' :
  same_position s s' → inv s →
  ∀ moves, get_possible_moves s' = Some moves → Forall (pseudo s) moves.
Proof.
  intros Hsame Hinv moves H. apply get_possible_moves_sound in H.
  eapply Forall_impl; [exact H|]. intros m. apply pseudo_same.
  by apply same_position_sym.
Qed.

Lemma toggle_toggle s : toggle_turn (toggle_turn s) = s.
Proof. destruct s. unfold toggle_turn, set_white_move. simpl. by rewrite negb_involutive. Qed.

Lemma in_check_toggled s :
  inv s → ∃ checked, in_check (toggle_turn s) = Some (toggle_turn s, checked).
Proof.
  intros Hinv. destruct (get_possible_moves_total s Hinv) as [moves Hm].
  unfold in_check, square_attacked.
  destruct (white_move (toggle_turn s)); rewrite !toggle_toggle, Hm; by eexists.
Qed.

Lemma list_remove_count x l :
  (1 ≤ count_id (move_id x) l)%nat →
  ∃ l', Py.list_remove MoveM.eqb x l = Some l'
    ∧ ∀ i, count_id i l'
           = (count_id i l - (if (move_id x =? i)%Z then 1 else 0))%nat.
Proof.
  induction l as [|y l IH]; simpl; [lia|]. intros Hc. unfold MoveM.eqb at 1.
  destruct (Z.eqb_spec (move_id y) (move_id x)) as [Heq|Hne].
  - eexists. split; [done|]. intros i. rewrite Heq.
    destruct (move_id x =? i); lia.
  - destruct IH as (l' & -> & Hl'); [lia|]. eexists. split; [done|].
    intros i. simpl. rewrite Hl'.
    destruct (Z.eqb_spec (move_id x) i) as [<-|]; [|lia].
    destruct (Z.eqb_spec (move_id y) (move_id x)); [done|lia].
Qed.

Lemma list_remove_subseteq x (l l' : list Move) :
  Py.list_remove MoveM.eqb x l = Some l' → l' ⊆ l.
Proof.
  revert l'. induction l as [|y l IH]; intros l' H; simpl in H; [done|].
  destruct (MoveM.eqb y x).
  - injection H as <-. by apply list_subseteq_cons.
  - apply fmap_Some in H as (l0 & H0 & ->). specialize (IH _ H0).
    intros z Hz. apply elem_of_cons in Hz as [->|Hz]; [by left|].
    right. by apply IH.
Qed.

Lemma remove_selfchecks_loop_spec copy :
  ∀ s moves,
    inv s → Forall (pseudo s) copy →
    (∀ i, (count_id i copy ≤ count_id i moves)%nat) →
    ∃ s' moves', remove_selfchecks_loop s copy moves = Some (s', moves')
      ∧ same_position s s' ∧ same_flags s s'.
Proof.
  induction copy as [|m rest IH]; intros s moves Hinv Hall Hcount.
  - simpl. eexists _, _. done.
  - apply Forall_cons in Hall as [Hm Hrest]. cbn [remove_selfchecks_loop].
    destruct (make_move_inv s m Hinv Hm) as (s1 & E1 & Hinv1 & _ & _ & _).
    destruct (make_undo s m (inv_wf s Hinv) (pseudo_move_ok s m Hinv Hm))
      as (s1' & E1' & s2 & E2 & Hpos & Hflags).
    assert (s1' = s1) as -> by congruence.
    rewrite E1. cbn [mbind option_bind].
    destruct (in_check_toggled s1 Hinv1) as (checked & ->).
    cbn [mbind option_bind].
    assert (∃ moves1,
      (if checked then Py.list_remove MoveM.eqb m moves else Some moves)
        = Some moves1
      ∧ ∀ i, (count_id i rest ≤ count_id i moves1)%nat) as (moves1 & -> & Hcount1).
    { destruct checked.
      - destruct (list_remove_count m moves) as (l' & -> & Hl').
        { specialize (Hcount (move_id m)). simpl in Hcount.
          rewrite Z.eqb_refl in Hcount. lia. }
        eexists. split; [done|]. intros i. rewrite Hl'.
        specialize (Hcount i). simpl in Hcount.
        destruct (move_id m =? i); lia.
      - eexists. split; [done|]. intros i. specialize (Hcount i).
        simpl in Hcount. lia. }
    cbn [mbind option_bind]. rewrite toggle_toggle, E2. cbn [mbind option_bind].
    destruct (IH s2 moves1) as (s' & moves' & E & Hpos' & Hflags').
    + by eapply inv_same.
    + eapply Forall_impl; [exact Hrest|]. intros x. by apply pseudo_same.
    + done.
    + exists s', moves'. split; [done|]. split.
      * by eapply same_position_trans.
      * destruct Hflags, Hflags'. split; congruence.
Qed.

Lemma remove_selfchecks_loop_subseteq copy :
  ∀ s moves s' moves',
    remove_selfchecks_loop s copy moves = Some (s', moves') → moves' ⊆ moves.
Proof.
  induction copy as [|m rest IH]; intros s moves s' moves' H;
    cbn [remove_selfchecks_loop] in H.
  - by simplify_eq.
  - apply bind_Some in H as (s1 & _ & H).
    apply bind_Some in H as ([s2 checked] & _ & H).
    apply bind_Some in H as (moves1 & Hrm & H).
    apply bind_Some in H as (s3 & _ & H).
    apply IH in H. etrans; [exact H|].
    destruct checked; [by eapply list_remove_subseteq|by simplify_eq].
Qed.

Lemma check_game_state_never_sets_stalemate s moves :
  stalemate (check_game_state s moves) = stalemate s.
Proof. by destruct moves. Qed.

Lemma check_game_state_position s moves :
  same_position s (check_game_state s moves).
Proof. unfold check_game_state, in_check_method_truth. by destruct moves. Qed.

Theorem get_valid_moves_frame s :
  inv s →
  ∃ s' moves, get_valid_moves s = Some (s', moves) ∧ same_position s s'.
Proof.
  intros Hinv. unfold get_valid_moves, remove_selfchecks.
  destruct (get_possible_moves_total s Hinv) as [possible Hp]. rewrite Hp.
  cbn [mbind option_bind].
  destruct (remove_selfchecks_loop_spec possible s possible)
    as (s' & moves & -> & Hpos & _);
    [done|by apply get_possible_moves_sound|done|].
  cbn [mbind option_bind]. eexists _, _. split; [done|].
  eapply same_position_trans; [exact Hpos|apply check_game_state_position].
Qed.

Lemma get_valid_moves_pseudo s s' moves :
  get_valid_moves s = Some (s', moves) → Forall (pseudo s) moves.
Proof.
  unfold get_valid_moves, remove_selfchecks. intros H.
  apply bind_Some in H as (possible & Hp & H).
  apply bind_Some in H as ([s1 moves1] & Hloop & H). simplify_eq.
  apply remove_selfchecks_loop_subseteq in Hloop.
  apply get_possible_moves_sound in Hp. rewrite Forall_forall in Hp.
  apply Forall_forall. intros m Hm. apply Hp. by apply Hloop.
Qed.

(** ** Reachable states *)

Lemma inv_init : inv GameState_init.
Proof.
  split.
  - split; [done|]. repeat constructor.
  - unfold cells_ok. simpl. repeat constructor; simpl; lia.
  - intros lm Hlm. done.
  - intros row [->| ->] _; done.
Qed.

Lemma played_inv s : played s → inv s.
Proof.
  induction 1 as [s Hsame | s m s1 s' _ _ Hinv Hps Hmake Hsame].
  - eapply inv_same; [exact Hsame|apply inv_init].
  - destruct (make_move_inv s m Hinv Hps) as (s1' & E & Hinv1 & _).
    assert (s1' = s1) as -> by congruence. by eapply inv_same.
Qed.

Lemma played_same s s' : same_position s s' → played s → played s'.
Proof.
  intros Hsame Hpl. destruct Hpl as [s H0 | s m s1 s2 Hpl Hinv Hps Hmake H1].
  - apply played_init. by eapply same_position_trans.
  - eapply played_move; [exact Hpl|done|exact Hps|exact Hmake|].
    by eapply same_position_trans.
Qed.

Lemma undo_move_same s1 s2 s1' :
  same_position s1 s2 → undo_move s1 = Some s1' →
  ∃ s2', undo_move s2 = Some s2' ∧ same_position s1' s2'.
Proof.
  intros (Hb & Hw & Hl). unfold undo_move. rewrite Hl.
  destruct (last (movelog s2)) as [m|].
  - simpl. rewrite Hb. intros H.
    apply bind_Some in H as (b1 & E1 & H). apply bind_Some in H as (b2 & E2 & H).
    simplify_eq. rewrite E1. cbn [mbind option_bind]. rewrite E2.
    cbn [mbind option_bind]. eexists. split; [done|].
    unfold same_position. simpl. by rewrite Hw.
  - intros H. simplify_eq. eexists. split; [done|]. by repeat split.
Qed.

Lemma played_undo s s' : played s → undo_move s = Some s' → played s'.
Proof.
  intros Hpl Hundo.
  destruct Hpl as [s H0 | s0 m s1 s Hpl Hinv Hps Hmake H1].
  - destruct H0 as (Hb & Hw & Hl). unfold undo_move in Hundo.
    rewrite <-Hl in Hundo. simpl in Hundo. simplify_eq.
    apply played_init. by repeat split.
  - destruct (make_undo s0 m (inv_wf s0 Hinv) (pseudo_move_ok s0 m Hinv Hps))
      as (s1' & E1 & s2 & E2 & Hpos & _).
    assert (s1' = s1) as -> by congruence.
    destruct (undo_move_same s1 s s2 H1 E2) as (s2' & E2' & Hpos').
    assert (s2' = s') as -> by congruence.
    eapply played_same; [|exact Hpl]. by eapply same_position_trans.
Qed.

Lemma reachable_played s : reachable s → played s.
Proof.
  induction 1 as [| s s' moves _ IH Hq | s s' moves m s'' _ IH Hq Hm Hmake
    | s s' _ IH Hundo].
  - by apply played_init.
  - destruct (get_valid_moves_frame s (played_inv s IH)) as (s1 & moves1 & E & Hpos).
    assert (s1 = s') as -> by congruence. by eapply played_same.
  - destruct (get_valid_moves_frame s (played_inv s IH)) as (s1 & moves1 & E & Hpos).
    assert (s1 = s') as -> by congruence.
    pose proof (played_same s s' Hpos IH) as Hpl'.
    eapply played_move; [exact Hpl'|by apply played_inv| |exact Hmake|done].
    eapply pseudo_same; [exact Hpos|].
    apply get_valid_moves_pseudo in Hq. rewrite Forall_forall in Hq. by apply Hq.
  - by eapply played_undo.
Qed.

(** C10. In every reachable state [get_valid_moves] returns, and the
    state it leaves has the board, the side-to-move flag and the move log
    it was called with. *)
Theorem get_valid_moves_restores_position s :
  reachable s →
  ∃ s' moves, get_valid_moves s = Some (s', moves)
    ∧ board s' = board s ∧ white_move s' = white_move s ∧ movelog s' = movelog s.
Proof.
  intros Hr.
  destruct (get_valid_moves_frame s (played_inv s (reachable_played s Hr)))
    as (s' & moves & E & Hb & Hw & Hl).
  by exists s', moves.
Qed.

(** In a reachable state a valid move can be made and undone, and that
    restores the board, the side to move and the log. *)
Theorem make_undo_restores_position s s' moves m :
  reachable s → get_valid_moves s = Some (s', moves) → m ∈ moves →
  ∃ s1 s2, make_move s' m true = Some s1 ∧ undo_move s1 = Some s2
    ∧ board s2 = board s' ∧ white_move s2 = white_move s'
    ∧ movelog s2 = movelog s'.
Proof.
  intros Hr Hq Hm.
  pose proof (reachable_played s' (reach_query s s' moves Hr Hq)) as Hpl.
  pose proof (played_inv s' Hpl) as Hinv.
  assert (pseudo s' m) as Hps.
  { destruct (get_valid_moves_frame s (played_inv s (reachable_played s Hr)))
      as (s0 & moves0 & E & Hpos).
    assert (s0 = s') as -> by congruence.
    eapply pseudo_same; [exact Hpos|].
    apply get_valid_moves_pseudo in Hq. rewrite Forall_forall in Hq. by apply Hq. }
  destruct (make_undo s' m (inv_wf s' Hinv) (pseudo_move_ok s' m Hinv Hps))
    as (s1 & E1 & s2 & E2 & (Hb & Hw & Hl) & _).
  by exists s1, s2.
Qed.

(** The side that moves down the board never gets an en-passant capture:
    with Black to move every generated move captures on its end square. *)
Theorem black_captures_on_end_square s moves m :
  reachable s → white_move s = false →
  get_possible_moves s = Some moves → m ∈ moves →
  (piece_captured_row m, piece_captured_col m) = (endRow m, endCol m).
Proof.
  intros Hr Hw Hgen Hm.
  pose proof (played_inv s (reachable_played s Hr)) as Hinv.
  apply get_possible_moves_sound in Hgen. rewrite Forall_forall in Hgen.
  destruct (pseudo_shape s m Hinv (Hgen m Hm)) as (_ & _ & _ & _ & Hshape).
  destruct Hshape as [Hcap _ _ | Hw' _ _ _ _ _ | second Hcap _ _ _ _ _ _ _ _];
    [done|congruence|done].
Qed.

Lemma undo_move_flags s s' : undo_move s = Some s' → same_flags s s'.
Proof.
  unfold undo_move. destruct (last (movelog s)); [|by intros [= <-]].
  intros H. apply bind_Some in H as (b1 & _ & H).
  apply bind_Some in H as (b2 & _ & H). by simplify_eq.
Qed.

Lemma get_valid_moves_flags s s' moves :
  inv s → get_valid_moves s = Some (s', moves) →
  stalemate s' = stalemate s ∧ (moves = [] → checkmate s' = true).
Proof.
  intros Hinv H. unfold get_valid_moves, remove_selfchecks in H.
  apply bind_Some in H as (possible & Hp & H).
  destruct (remove_selfchecks_loop_spec possible s possible)
    as (s1 & moves1 & E & _ & _ & Hst);
    [done|by apply get_possible_moves_sound|done|].
  rewrite E in H. cbn [mbind option_bind] in H. injection H as <- <-.
  rewrite check_game_state_never_sets_stalemate. split; [done|].
  by intros ->.
Qed.

(** The stalemate flag is never set in a game played from the initial
    position. *)
Theorem stalemate_never_set s : reachable s → stalemate s = false.
Proof.
  induction 1 as [| s s' moves Hr IH Hq | s s' moves m s'' Hr IH Hq Hm Hmake
    | s s' Hr IH Hundo].
  - done.
  - pose proof (played_inv s (reachable_played s Hr)) as Hinv.
    destruct (get_valid_moves_flags s s' moves Hinv Hq) as [-> _]. done.
  - pose proof (played_inv s (reachable_played s Hr)) as Hinv.
    destruct (get_valid_moves_flags s s' moves Hinv Hq) as [Hst _].
    pose proof (reachable_played s' (reach_query s s' moves Hr Hq)) as Hpl'.
    pose proof (played_inv s' Hpl') as Hinv'.
    assert (pseudo s' m) as Hps.
    { destruct (get_valid_moves_frame s Hinv) as (s0 & moves0 & E & Hpos).
      assert (s0 = s') as -> by congruence.
      eapply pseudo_same; [exact Hpos|].
      apply get_valid_moves_pseudo in Hq. rewrite Forall_forall in Hq.
      by apply Hq. }
    destruct (make_move_inv s' m Hinv' Hps) as (s1 & E & _ & _ & _ & _ & Hst1).
    assert (s1 = s'') as -> by congruence. congruence.
  - destruct (undo_move_flags s s' Hundo) as [_ Hst]. congruence.
Qed.

(** ** Castling *)

Lemma any_occupied_false b row cols :
  any_occupied b row cols = Some false →
  Forall (λ c, board_get b row c = Some ""%string) cols.
Proof.
  induction cols as [|c cols IH]; simpl; intros H; [constructor|].
  apply bind_Some in H as (x & Hx & H). apply bind_Some in H as (r & Hr & H).
  injection H as H. apply orb_false_iff in H as [Hx0 ->].
  apply negb_false_iff, String.eqb_eq in Hx0 as ->. constructor; auto.
Qed.

Lemma pseudo_castle s m rook :
  pseudo s m → secondary_move m = Some rook → castling_conditions s m rook.
Proof.
  intros Hps Hsec.
  destruct Hps as [r c m Hown Hfree Hm | r c m Hown Hhome Hfree1 Hfree2 Hm
    | r c dc t m Hown Hdc Ht Hne Hm | r c lm m Hown Hlast HP Hr Hsr Her Hec Hm
    | r c k er ec t m Hown Hk Ht Hst Hm
    | rook_col rook_to king_to between label rook0 king Hside Hking Hrook Hocc
        Hrk Hkg];
    try (apply init_fields in Hm as (_ & _ & _ & _ & _ & _ & _ & _ & _ & F & _);
         congruence).
  apply init_fields in Hrk
    as (G1 & G2 & G3 & G4 & _ & _ & _ & _ & _ & G10 & _).
  apply init_fields in Hkg
    as (K1 & K2 & K3 & K4 & _ & _ & _ & _ & _ & K10 & _).
  simpl in Hsec. assert (rook0 = rook) as -> by congruence.
  exists rook_col, rook_to, king_to, between, label. simpl.
  rewrite G1, G2, G3, G4, K1, K2, K3, K4.
  repeat split; try done. by apply any_occupied_false.
Qed.

Lemma make_move_logged s m rook s1 :
  secondary_move m = Some rook → secondary_move rook = None →
  make_move s m true = Some s1 → movelog s1 = movelog s ++ [m].
Proof.
  intros Hsec Hsec2 H. rewrite make_move_unfold, Hsec in H.
  apply bind_Some in H as (b1 & _ & H). apply bind_Some in H as (b2 & _ & H).
  apply bind_Some in H as (b3 & _ & H).
  rewrite make_move_unfold, Hsec2 in H.
  apply bind_Some in H as (c1 & _ & H). apply bind_Some in H as (c2 & _ & H).
  apply bind_Some in H as (c3 & _ & H). injection H as <-.
  destruct (after_writes_fields s m true b3) as (_ & _ & Fl & _).
  destruct (after_writes_fields (after_writes s m true b3) rook false c3)
    as (_ & _ & Fl' & _).
  unfold toggle_turn. simpl. by rewrite Fl', Fl.
Qed.

(** A generated move with a secondary move is a castling move of the
    side to move: no logged move starts from the king's original square
    or from the corner square, the squares between them are empty, the
    move goes from the king's original square to its castling square and
    the secondary move from the corner to the square next to it, whatever
    stands in the corner.  Once such a move has been made and stays in the
    log, no move with a secondary move is generated for that side. *)
Theorem castling_only_when_unmoved_and_clear s moves m rook :
  get_possible_moves s = Some moves → m ∈ moves → secondary_move m = Some rook →
  castling_conditions s m rook
  ∧ ∀ s1 s2 moves2,
      make_move s m true = Some s1 →
      movelog s1 `prefix_of` movelog s2 → white_move s2 = white_move s →
      get_possible_moves s2 = Some moves2 →
      Forall (λ m2, secondary_move m2 = None) moves2.
Proof.
  intros Hgen Hin Hsec.
  assert (castling_conditions s m rook) as Hcond.
  { apply get_possible_moves_sound in Hgen. rewrite Forall_forall in Hgen.
    apply pseudo_castle; [by apply Hgen|done]. }
  split; [done|]. intros s1 s2 moves2 Hmake [rest Hlog] Hturn Hgen2.
  destruct Hcond as (rc & rt & kt & bt & lb & _ & _ & _ & _ & Hstart & _ & _ & _
    & Hsec2 & _).
  rewrite (make_move_logged s m rook s1 Hsec Hsec2 Hmake) in Hlog.
  assert (log_starts_at s2 (back_row s2, 4) = true) as Hmoved.
  { unfold log_starts_at. rewrite Hlog. rewrite !existsb_app. simpl.
    injection Hstart as -> ->. unfold back_row. rewrite Hturn.
    rewrite !Z.eqb_refl. simpl. by rewrite orb_true_r. }
  apply get_possible_moves_sound in Hgen2.
  eapply Forall_impl; [exact Hgen2|]. intros m2 Hps2.
  destruct (secondary_move m2) as [rook2|] eqn:E2; [|done].
  destruct (pseudo_castle s2 m2 rook2 Hps2 E2) as (? & ? & ? & ? & ? & _ & Hk & _).
  congruence.
Qed.

(** C8. Two moves built with coordinates in 0..7 are equal under [==]
    exactly when their start and end squares are equal, whatever the
    captured square, the boards they were built on and their secondary
    moves. *)
Lemma init_move_id b sr sc er ec cro cco prim sec m :
  MoveM.init b (sr, sc) (er, ec) cro cco prim sec = Some m →
  MoveM.make_id sr sc er ec = Some (move_id m).
Proof.
  unfold MoveM.init. intros H.
  apply bind_Some in H as (pm & _ & H). apply bind_Some in H as (pc & _ & H).
  apply bind_Some in H as (id & Hid & H). apply bind_Some in H as (pgn & _ & H).
  by simplify_eq.
Qed.

Theorem move_equality_is_square_equality
    b b' sr sc er ec sr' sc' er' ec' cro cco cro' cco' prim prim' sec sec' m m' :
  sq_ok sr sc → sq_ok er ec → sq_ok sr' sc' → sq_ok er' ec' →
  MoveM.init b (sr, sc) (er, ec) cro cco prim sec = Some m →
  MoveM.init b' (sr', sc') (er', ec') cro' cco' prim' sec' = Some m' →
  MoveM.eqb m m' = true ↔ ((sr, sc), (er, ec)) = ((sr', sc'), (er', ec')).
Proof.
  intros [? ?] [? ?] [? ?] [? ?] Hm Hm'.
  apply init_move_id in Hm, Hm'.
  rewrite make_id_on_board in Hm, Hm' by done.
  injection Hm as Hm. injection Hm' as Hm'.
  unfold MoveM.eqb. rewrite Z.eqb_eq, <-Hm, <-Hm'. split.
  - intros Heq.
    assert (sr = sr' ∧ sc = sc' ∧ er = er' ∧ ec = ec') as (-> & -> & -> & ->) by lia.
    done.
  - intros Heq. by simplify_eq.
Qed.

(** C9. With an empty move log [undo_move] returns without error and
    leaves the whole state unchanged. *)
Theorem undo_move_empty_log s : movelog s = [] → undo_move s = Some s.
Proof. intros H. unfold undo_move. by rewrite H. Qed.

(** ** Concrete games *)

Lemma find_elem_of {A} (f : A → bool) (l : list A) x : find f l = Some x → x ∈ l.
Proof. intros H. apply list_elem_of_In. by apply find_some in H as [? _]. Qed.

Lemma play_reachable clicks : ∀ s s', reachable s → play s clicks = Some s' → reachable s'.
Proof.
  induction clicks as [|[start end_] rest IH]; intros s s' Hr H; simpl in H.
  - by simplify_eq.
  - apply bind_Some in H as ([s1 valid] & Hq & H).
    apply bind_Some in H as (s2 & Hclick & H).
    eapply IH; [|exact H]. unfold click_move in Hclick.
    apply bind_Some in Hclick as (m & _ & Hclick).
    destruct (find (MoveM.eqb m) valid) as [stored|] eqn:Hfind; [|done].
    eapply reach_move; [exact Hr|exact Hq| |exact Hclick]. by eapply find_elem_of.
Qed.

Lemma after_reachable clicks : is_Some (play GameState_init clicks) → reachable (after clicks).
Proof.
  intros [s Hs]. unfold after. rewrite Hs. simpl.
  eapply play_reachable; [apply reach_init|exact Hs].
Qed.

(** C1. In the initial position [get_valid_moves] for White returns a
    sequence of 74 moves, not 20: the queen generator doubles the list twice.
    Only 20 of them are distinct. *)
Theorem initial_position_yields_74_moves :
  (λ r, length r.2) <$> get_valid_moves GameState_init = Some 74%nat
  ∧ (λ r, length (remove_dups (move_id <$> r.2))) <$> get_valid_moves GameState_init
    = Some 20%nat.
Proof. split; vm_compute; reflexivity. Qed.

(** C2. After 1.e4 e5 the king move Ke2 is among White's valid moves;
    [make_move] followed by [undo_move] restores the board but leaves
    [white_king_loc] at (6, 4) instead of the (7, 4) it held before.  The
    same happens from the state the valid-move query leaves: after
    1.e4 e5 2.d4 d5 that state has (6, 4) in the field, and making and
    undoing Kd2 leaves (6, 3). *)
Theorem undo_move_keeps_moved_king_square :
  (reachable (after open_game)
   ∧ snd <$> get_valid_moves (after open_game) = Some (valid_after open_game)
   ∧ move_Ke2 ∈ valid_after open_game
   ∧ white_king_loc (after open_game) = (7, 4)
   ∧ white_king_loc <$> make_then_undo (after open_game) move_Ke2 = Some (6, 4)
   ∧ board <$> make_then_undo (after open_game) move_Ke2
     = Some (board (after open_game)))
  ∧ (reachable (queried_after centre_game)
     ∧ snd <$> get_valid_moves (queried_after centre_game)
       = Some (valid_after centre_game)
     ∧ move_Kd2 ∈ valid_after centre_game
     ∧ white_king_loc (queried_after centre_game) = (6, 4)
     ∧ white_king_loc <$> make_then_undo (queried_after centre_game) move_Kd2
       = Some (6, 3)).
Proof.
  split.
  - split; [apply after_reachable; vm_compute; by eexists|].
    split; [vm_compute; reflexivity|].
    split; [solve_elem|].
    split; [vm_compute; reflexivity|].
    split; vm_compute; reflexivity.
  - split.
    { apply (reach_query (after centre_game) _ (valid_after centre_game)).
      - apply after_reachable. vm_compute. by eexists.
      - vm_compute. reflexivity. }
    split; [vm_compute; reflexivity|].
    split; [solve_elem|].
    split; vm_compute; reflexivity.
Qed.

(** C3. In a position where Black has no valid move and the black king
    is not attacked, [get_valid_moves] returns the empty list with the
    checkmate flag set and the stalemate flag still false. *)
Theorem stalemate_position_flagged_checkmate :
  (λ r, (r.2, checkmate r.1, stalemate r.1)) <$> get_valid_moves stalemate_position
    = Some ([], true, false)
  ∧ snd <$> in_check stalemate_position = Some false.
Proof. split; vm_compute; reflexivity. Qed.

(** C4. After 1.e4 e5 2.Qh5 the pawn move f7-f6 is among Black's valid
    moves, and applying it leaves the black king on (0, 4) attacked by
    White. *)
Theorem valid_move_exposes_own_king :
  reachable (after queen_sortie)
  ∧ white_move (after queen_sortie) = false
  ∧ get_valid_moves (after queen_sortie)
    = Some (queried_after queen_sortie, valid_after queen_sortie)
  ∧ move_f6 ∈ valid_after queen_sortie
  ∧ (s1 ← make_move (queried_after queen_sortie) move_f6 true;
     king ← board_get (board s1) 0 4;
     '(_, attacked) ← square_attacked (toggle_turn s1) 0 4;
     Some (king, attacked))
    = Some ("bK"%string, true).
Proof.
  split; [apply after_reachable; vm_compute; by eexists|].
  split; [vm_compute; reflexivity|].
  split; [vm_compute; reflexivity|].
  split; [solve_elem|].
  vm_compute; reflexivity.
Qed.

(** C5. After 1.e3 e6 pseudo-legal generation for White contains the
    pawn move from (6, 3) to (5, 4), a square that holds a white pawn. *)
Theorem pawn_captures_own_piece :
  reachable (after quiet_game)
  ∧ white_move (after quiet_game) = true
  ∧ get_possible_moves (after quiet_game) = Some (possible_after quiet_game)
  ∧ move_dxe3 ∈ possible_after quiet_game
  ∧ board_get (board (after quiet_game)) 5 4 = Some "wP"%string.
Proof.
  split; [apply after_reachable; vm_compute; by eexists|].
  split; [vm_compute; reflexivity|].
  split; [vm_compute; reflexivity|].
  split; [solve_elem|].
  vm_compute; reflexivity.
Qed.

(** C6. After 1.a3 d5 2.a4 d4 3.e4 the last logged move is the white
    double step to (4, 4), next to the black pawn on (4, 3), and no
    generated move of Black goes from (4, 3) to (5, 4): the en-passant
    capture is missing for Black.  For White, after 1.e4 a6 2.e5 d5, the
    capture from (3, 4) to (2, 3) taking the pawn on (3, 3) is generated. *)
Theorem black_en_passant_not_generated :
  reachable (after black_passing_game)
  ∧ white_move (after black_passing_game) = false
  ∧ last (movelog (after black_passing_game)) = Some move_e4
  ∧ board_get (board (after black_passing_game)) 4 3 = Some "bP"%string
  ∧ get_possible_moves (after black_passing_game)
    = Some (possible_after black_passing_game)
  ∧ forallb (λ m, negb ((startRow m =? 4) && (startCol m =? 3)
                        && (endRow m =? 5) && (endCol m =? 4)))
      (possible_after black_passing_game) = true
  ∧ reachable (after white_passing_game)
  ∧ move_exd6 ∈ valid_after white_passing_game.
Proof.
  split; [apply after_reachable; vm_compute; by eexists|].
  do 5 (split; [vm_compute; reflexivity|]).
  split; [apply after_reachable; vm_compute; by eexists|].
  solve_elem.
Qed.

(** C7. After 1.g4 b6 2.Bh3 Bb7 3.Nf3 a6 4.Nd4 Bxh1 a black bishop stands
    in White's corner, where the rook was captured without ever having
    moved.  [get_valid_moves] returns the castling move O-O all the same:
    its secondary move carries the black bishop, and making the move puts
    that bishop beside the white king. *)
Theorem castling_relocates_a_bishop :
  reachable (after corner_game)
  ∧ white_move (after corner_game) = true
  ∧ board (after corner_game) !! 7%nat
    = Some ["wR"; "wN"; "wB"; "wQ"; "wK"; ""; ""; "bB"]%string
  ∧ get_valid_moves (after corner_game)
    = Some (queried_after corner_game, valid_after corner_game)
  ∧ move_OO_corner ∈ valid_after corner_game
  ∧ secondary_move move_OO_corner = Some move_corner_f1
  ∧ piece_moved move_corner_f1 = "bB"%string
  ∧ (s1 ← make_move (queried_after corner_game) move_OO_corner true;
     board s1 !! 7%nat)
    = Some ["wR"; "wN"; "wB"; "wQ"; ""; "bB"; "wK"; ""]%string.
Proof.
  split; [apply after_reachable; vm_compute; by eexists|].
  split; [vm_compute; reflexivity|].
  split; [vm_compute; reflexivity|].
  split; [vm_compute; reflexivity|].
  split; [solve_elem|].
  split; [reflexivity|].
  split; [reflexivity|].
  vm_compute; reflexivity.
Qed.

(** ** Instances of the theorems *)

Lemma castling_witness :
  get_possible_moves (after italian_game) = Some (possible_after italian_game)
  ∧ move_OO ∈ possible_after italian_game
  ∧ castling_conditions (after italian_game) move_OO move_Rf1.
Proof.
  assert (get_possible_moves (after italian_game)
          = Some (possible_after italian_game)) as H1 by (vm_compute; reflexivity).
  assert (move_OO ∈ possible_after italian_game) as H2 by solve_elem.
  split; [exact H1|]. split; [exact H2|].
  exact (proj1 (castling_only_when_unmoved_and_clear (after italian_game)
                  (possible_after italian_game) move_OO move_Rf1 H1 H2 eq_refl)).
Defined.

Lemma move_equality_witness :
  MoveM.init initial_board (6, 4) (4, 4) None None None None = Some move_e4
  ∧ MoveM.init initial_board (6, 4) (4, 4) (Some 5) (Some 3) None (Some move_Rf1)
    = Some move_e4_marked
  ∧ (MoveM.eqb move_e4 move_e4_marked = true
     ↔ ((6, 4), (4, 4)) = ((6, 4), (4, 4))).
Proof.
  assert (MoveM.init initial_board (6, 4) (4, 4) None None None None
          = Some move_e4) as H1 by (vm_compute; reflexivity).
  assert (MoveM.init initial_board (6, 4) (4, 4) (Some 5) (Some 3) None
            (Some move_Rf1) = Some move_e4_marked) as H2
    by (vm_compute; reflexivity).
  split; [exact H1|]. split; [exact H2|].
  apply (move_equality_is_square_equality initial_board initial_board
           6 4 4 4 6 4 4 4 None None (Some 5) (Some 3) None None None
           (Some move_Rf1) move_e4 move_e4_marked);
    try (split; lia); assumption.
Defined.

Lemma undo_move_empty_log_witness :
  movelog GameState_init = [] ∧ undo_move GameState_init = Some GameState_init.
Proof. split; [reflexivity|]. apply (undo_move_empty_log GameState_init). reflexivity. Defined.

Lemma get_valid_moves_restores_position_witness :
  reachable (after open_game)
  ∧ ∃ s' moves, get_valid_moves (after open_game) = Some (s', moves)
      ∧ board s' = board (after open_game)
      ∧ white_move s' = white_move (after open_game)
      ∧ movelog s' = movelog (after open_game).
Proof.
  assert (reachable (after open_game)) as H
    by (apply after_reachable; vm_compute; by eexists).
  split; [exact H|]. exact (get_valid_moves_restores_position (after open_game) H).
Defined.

(** * Further properties *)

(** ** What [make_move] and [undo_move] do to the turn, the log and the flags *)

Lemma secondary_depth_unfold m :
  secondary_depth m
  = match secondary_move m with
    | Some second => S (secondary_depth second)
    | None => 0%nat
    end.
Proof. by destruct m. Qed.

Lemma make_move_bookkeeping_depth n :
  ∀ m s log s1,
    secondary_depth m = n → make_move s m log = Some s1 →
    white_move s1 = negb (white_move s)
    ∧ movelog s1 = (if log then movelog s ++ [m] else movelog s)
    ∧ checkmate s1 = checkmate s ∧ stalemate s1 = stalemate s.
Proof.
  induction n as [|n IH]; intros m s log s1 Hd H;
    rewrite secondary_depth_unfold in Hd; rewrite make_move_unfold in H;
    apply bind_Some in H as (b1 & _ & H); apply bind_Some in H as (b2 & _ & H);
    apply bind_Some in H as (b3 & _ & H);
    destruct (after_writes_fields s m log b3) as (_ & Fw & Fl & Fc & Fs);
    destruct (secondary_move m) as [second|]; try done.
  - injection H as <-. unfold toggle_turn. simpl. by rewrite Fw, Fl, Fc, Fs.
  - injection Hd as Hd.
    destruct (IH second _ false s1 Hd H) as (Hw & Hl & Hc & Hs).
    rewrite Hw, Hl, Hc, Hs. by rewrite Fw, Fl, Fc, Fs.
Qed.

(** However long the chain of secondary moves, a call of [make_move] that
    logs flips the turn once, appends the move itself to the log once, and
    leaves the two flags alone. *)
Theorem make_move_bookkeeping m s s1 :
  make_move s m true = Some s1 →
  white_move s1 = negb (white_move s)
  ∧ movelog s1 = movelog s ++ [m]
  ∧ checkmate s1 = checkmate s ∧ stalemate s1 = stalemate s.
Proof. intros H. by eapply (make_move_bookkeeping_depth _ m s true). Qed.

(** ** Every generated move, with its geometry *)

Section Geometry.
Context (s : GameState).
Implicit Types moves : list Move.

Lemma pawn_capture_generated moves r c dc moves' guard :
  own s r c "P" → dc = -1 ∨ dc = 1 →
  pawn_capture s moves r c (r + forward s) (c + dc) guard = Some moves' →
  Forall (generated s) moves → Forall (generated s) moves'.
Proof.
  intros Hown Hdc H Hall. unfold pawn_capture in H.
  destruct (on_board _ && guard); [|by simplify_eq].
  apply bind_Some in H as (t & Ht & H).
  destruct (Py.truthy t) eqn:Et; [|by simplify_eq].
  apply append_move_Some in H as (m & Hm & ->).
  apply Forall_snoc; [done|]. apply truthy_true in Et. by eapply gen_take.
Qed.

Lemma pawn_advance_generated moves r c moves' :
  own s r c "P" →
  pawn_advance s moves r c (forward s) (home_row s) = Some moves' →
  Forall (generated s) moves → Forall (generated s) moves'.
Proof.
  intros Hown H Hall. unfold pawn_advance in H.
  destruct (on_board _); [|by simplify_eq].
  apply bind_Some in H as (t & Ht & H).
  destruct (Py.truthy t) eqn:Et; simpl in H; [by simplify_eq|].
  apply truthy_false in Et as ->.
  apply bind_Some in H as (moves1 & H1 & H).
  apply append_move_Some in H1 as (m1 & Hm1 & ->).
  assert (Forall (generated s) (moves ++ [m1])) as Hall1.
  { apply Forall_snoc; [done|]. by eapply gen_push1. }
  destruct (Z.eqb_spec r (home_row s)) as [Hr|]; [|by simplify_eq].
  apply bind_Some in H as (t2 & Ht2 & H).
  destruct (Py.truthy t2) eqn:Et2; simpl in H; [by simplify_eq|].
  apply truthy_false in Et2 as ->.
  apply append_move_Some in H as (m2 & Hm2 & ->).
  apply Forall_snoc; [done|]. by eapply gen_push2.
Qed.

Lemma get_pawn_moves_generated moves r c moves' :
  own s r c "P" →
  get_pawn_moves s moves r c = Some moves' →
  Forall (generated s) moves → Forall (generated s) moves'.
Proof.
  intros Hown H Hall. unfold get_pawn_moves in H.
  pose proof (pawn_advance_generated moves r c) as Hadv.
  pose proof (λ mv mv', pawn_capture_generated mv r c (-1) mv') as Hl.
  pose proof (λ mv mv', pawn_capture_generated mv r c 1 mv') as Hr.
  unfold forward, home_row in Hadv, Hl, Hr.
  destruct (white_move s);
    apply bind_Some in H as (moves1 & H1 & H);
    apply bind_Some in H as (moves2 & H2 & H);
    eapply Hr; eauto; eapply Hl; eauto.
Qed.

Lemma get_en_passant_generated moves r c moves' :
  own s r c "P" →
  get_en_passant s moves r c = Some moves' →
  Forall (generated s) moves → Forall (generated s) moves'.
Proof.
  intros Hown H Hall. unfold get_en_passant in H.
  destruct (last (movelog s)) as [lm|] eqn:Hlast; [|by simplify_eq].
  apply bind_Some in H as (k & Hk & H).
  destruct (String.eqb_spec k "P") as [->|]; [|by simplify_eq].
  assert (en_passant_side s moves lm r c (passing_row s) 1 (passing_row s)
            (forward s) = Some moves') as Hside
    by (unfold passing_row, forward; by destruct (white_move s)).
  clear H. unfold en_passant_side in Hside.
  destruct (Z.eqb_spec r (passing_row s)) as [Hr|]; [|by simplify_eq].
  destruct (Z.eqb_spec (startRow lm) 1) as [Hsr|]; simpl in Hside;
    [|by simplify_eq].
  destruct (Z.eqb_spec (endRow lm) (passing_row s)) as [Her|]; [|by simplify_eq].
  destruct (Z.eqb_spec (endCol lm) (c + 1)) as [Hec|].
  - apply append_move_Some in Hside as (m & Hm & ->).
    apply Forall_snoc; [done|]. rewrite <-Hec in Hm. eapply gen_en_passant; eauto.
  - destruct (Z.eqb_spec (endCol lm) (c - 1)) as [Hec|]; [|by simplify_eq].
    apply append_move_Some in Hside as (m & Hm & ->).
    apply Forall_snoc; [done|]. rewrite <-Hec in Hm. eapply gen_en_passant; eauto.
Qed.

Lemma step_all_generated offsets k :
  (k = "K"%string ∧ offsets = king_offsets)
  ∨ (k = "N"%string ∧ offsets = knight_offsets) →
  ∀ todo moves r c moves',
    todo ⊆ offsets → own s r c k →
    step_all s moves r c todo = Some moves' →
    Forall (generated s) moves → Forall (generated s) moves'.
Proof.
  intros Hk todo. induction todo as [|[i j] rest IH];
    intros moves r c moves' Hsub Hown H Hall; simpl in H.
  - by simplify_eq.
  - apply bind_Some in H as (moves1 & H1 & H).
    eapply IH; [|done|exact H|].
    { intros x Hx. apply Hsub. by right. }
    unfold step_to in H1.
    destruct (on_board (r + i) && on_board (c + j)); [|by simplify_eq].
    apply bind_Some in H1 as (t & Ht & H1).
    destruct (Py.startswith t (turn_colour s)) eqn:Est; simpl in H1;
      [by simplify_eq|].
    apply append_move_Some in H1 as (m & Hm & ->).
    apply Forall_snoc; [done|].
    eapply gen_step; eauto. apply Hsub. by left.
Qed.

Lemma ray_generated k d :
  ((k = "R"%string ∨ k = "Q"%string) ∧ d ∈ rook_directs)
  ∨ ((k = "B"%string ∨ k = "Q"%string) ∧ d ∈ bishop_directs) →
  ∀ steps pre moves r c moves',
    pre ++ steps = ray_steps → Forall (ray_passes s r c d) pre →
    own s r c k →
    ray s moves r c d steps = Some moves' →
    Forall (generated s) moves → Forall (generated s) moves'.
Proof.
  intros Hk steps. induction steps as [|i rest IH];
    intros pre moves r c moves' Hsplit Hpre Hown H Hall; simpl in H.
  - by simplify_eq.
  - assert ((pre ++ [i]) ++ rest = ray_steps) as Hsplit'
      by by rewrite <-app_assoc.
    destruct (on_board (r + d.1 * i) && on_board (c + d.2 * i)) eqn:Hon.
    + apply bind_Some in H as (t & Ht & H).
      apply bind_Some in H as (moves1 & H1 & H).
      assert (Forall (generated s) moves1) as Hall1.
      { destruct (Py.startswith t (turn_colour s)) eqn:Est; simpl in H1;
          [by simplify_eq|].
        apply append_move_Some in H1 as (m & Hm & ->).
        apply Forall_snoc; [done|]. eapply gen_slide; eauto. }
      destruct (Py.truthy t) eqn:Et; [by simplify_eq|].
      apply truthy_false in Et as ->.
      eapply (IH (pre ++ [i])); [done| |done|exact H|done].
      apply Forall_app. split; [done|]. constructor; [|done]. by intros _.
    + eapply (IH (pre ++ [i])); [done| |done|exact H|done].
      apply Forall_app. split; [done|]. constructor; [|done].
      intros Hon'. congruence.
Qed.

Lemma rays_generated k directs0 :
  ((k = "R"%string ∨ k = "Q"%string) ∧ directs0 = rook_directs)
  ∨ ((k = "B"%string ∨ k = "Q"%string) ∧ directs0 = bishop_directs) →
  ∀ directs moves r c moves',
    directs ⊆ directs0 → own s r c k →
    rays s moves r c directs = Some moves' →
    Forall (generated s) moves → Forall (generated s) moves'.
Proof.
  intros Hk directs. induction directs as [|d rest IH];
    intros moves r c moves' Hsub Hown H Hall; cbn [rays] in H.
  - by simplify_eq.
  - apply bind_Some in H as (moves1 & H1 & H).
    eapply IH; [|done|exact H|].
    { intros x Hx. apply Hsub. by right. }
    assert (d ∈ directs0) as Hd by (apply Hsub; by left).
    assert (((k = "R"%string ∨ k = "Q"%string) ∧ d ∈ rook_directs)
            ∨ ((k = "B"%string ∨ k = "Q"%string) ∧ d ∈ bishop_directs)) as Hkd
      by (destruct Hk as [[Hk ->]|[Hk ->]]; [left|right]; done).
    by apply (ray_generated k d Hkd ray_steps [] moves r c moves1 eq_refl
                (Forall_nil_2 _) Hown H1).
Qed.

Lemma get_queen_moves_generated moves r c moves' :
  own s r c "Q" →
  get_queen_moves s moves r c = Some moves' →
  Forall (generated s) moves → Forall (generated s) moves'.
Proof.
  intros Hown H Hall. unfold get_queen_moves in H.
  apply bind_Some in H as (l1 & H1 & H).
  apply bind_Some in H as (l2 & H2 & H). injection H as <-.
  assert (Forall (generated s) l1) as Hl1.
  { eapply (rays_generated "Q" rook_directs); [left; auto|done|done|exact H1|done]. }
  assert (Forall (generated s) l2) as Hl2.
  { eapply (rays_generated "Q" bishop_directs);
      [right; auto|done|done|exact H2|]. by apply Forall_app. }
  by apply Forall_app.
Qed.

Lemma castle_generated moves rook_col rook_to king_to between label moves' r c :
  own s r c "K" →
  castle_side rook_col rook_to king_to between label →
  log_starts_at s (back_row s, 4) = false →
  castle s moves (back_row s) rook_col rook_to king_to between label = Some moves' →
  Forall (generated s) moves → Forall (generated s) moves'.
Proof.
  intros Hown Hside Hking H Hall. unfold castle in H.
  destruct (log_starts_at s (back_row s, rook_col)) eqn:Hrook; simpl in H;
    [by simplify_eq|].
  apply bind_Some in H as (occ & Hocc & H).
  destruct occ; simpl in H; [by simplify_eq|].
  apply bind_Some in H as (rook & Hr & H).
  apply bind_Some in H as (king & Hkg & H). simplify_eq.
  apply Forall_snoc; [done|]. by eapply gen_castle.
Qed.

Lemma get_castles_generated moves moves' r c :
  own s r c "K" →
  get_castles s moves = Some moves' →
  Forall (generated s) moves → Forall (generated s) moves'.
Proof.
  intros Hown H Hall. unfold get_castles in H. fold (back_row s) in H.
  destruct (log_starts_at s (back_row s, 4)) eqn:Hking; simpl in H;
    [by simplify_eq|].
  apply bind_Some in H as (moves1 & H1 & H).
  eapply castle_generated; [done|apply queenside|done|done|].
  eapply castle_generated; [done|apply kingside|done|done|done].
Qed.

Lemma scan_square_generated moves r c p moves' :
  0 ≤ r → 0 ≤ c → board_get (board s) r c = Some p →
  scan_square s moves r c p = Some moves' →
  Forall (generated s) moves → Forall (generated s) moves'.
Proof.
  intros Hr Hc Hp H Hall. unfold scan_square in H.
  destruct (Py.startswith p (turn_colour s)) eqn:Est; [|by simplify_eq].
  apply bind_Some in H as (k & Hk & H).
  assert (own s r c k) as Hown by (repeat split; eauto).
  destruct (String.eqb_spec k "P") as [->|HP].
  { apply bind_Some in H as (moves1 & H1 & H).
    eapply get_en_passant_generated; [done..|]. by eapply get_pawn_moves_generated. }
  destruct (String.eqb_spec k "K") as [->|HK].
  { apply bind_Some in H as (moves1 & H1 & H).
    eapply get_castles_generated; [done|done|].
    eapply (step_all_generated king_offsets "K"); [left; auto|done|done|exact H1|done]. }
  destruct (String.eqb_spec k "Q") as [->|HQ]; [by eapply get_queen_moves_generated|].
  destruct (String.eqb_spec k "R") as [->|HR].
  { eapply (rays_generated "R" rook_directs); [left; auto|done|done|exact H|done]. }
  destruct (String.eqb_spec k "N") as [->|HN].
  { eapply (step_all_generated knight_offsets "N");
      [right; auto|done|done|exact H|done]. }
  destruct (String.eqb_spec k "B") as [->|HB].
  { eapply (rays_generated "B" bishop_directs);
      [right; auto|done|done|exact H|done]. }
  by simplify_eq.
Qed.

Lemma scan_row_generated rest moves r c moves' :
  0 ≤ r → 0 ≤ c →
  (∀ j p, rest !! j = Some p → board_get (board s) r (c + Z.of_nat j) = Some p) →
  scan_row s moves r c rest = Some moves' →
  Forall (generated s) moves → Forall (generated s) moves'.
Proof.
  intros Hr. revert moves c.
  induction rest as [|p rest IH]; intros moves c Hc Hget H Hall; simpl in H.
  - by simplify_eq.
  - apply bind_Some in H as (moves1 & H1 & H).
    eapply (IH moves1 (c + 1)); [lia| |done|].
    + intros j q Hj. specialize (Hget (S j) q Hj).
      by replace (c + 1 + Z.of_nat j) with (c + Z.of_nat (S j)) by lia.
    + eapply (scan_square_generated moves r c p moves1); [done|done| |done|done].
      specialize (Hget O p eq_refl). by rewrite Z.add_0_r in Hget.
Qed.

Lemma scan_rows_generated rows moves r moves' :
  0 ≤ r →
  (∀ i row, rows !! i = Some row → board s !! (Z.to_nat r + i)%nat = Some row) →
  scan_rows s moves r rows = Some moves' →
  Forall (generated s) moves → Forall (generated s) moves'.
Proof.
  revert moves r.
  induction rows as [|row rows IH]; intros moves r Hr Hget H Hall; simpl in H.
  - by simplify_eq.
  - apply bind_Some in H as (moves1 & H1 & H).
    eapply (IH moves1 (r + 1)); [lia| |done|].
    + intros i row' Hi. specialize (Hget (S i) row' Hi).
      by replace (Z.to_nat (r + 1) + i)%nat with (Z.to_nat r + S i)%nat by lia.
    + eapply (scan_row_generated row moves r 0 moves1); [done|lia| |done|done].
      intros j p Hj. specialize (Hget O row eq_refl).
      rewrite Nat.add_0_r in Hget.
      pose proof (board_get_lookup _ _ _ _ _ Hget Hj) as Hb.
      by rewrite Z2Nat.id in Hb by done.
Qed.

Lemma get_possible_moves_generated moves :
  get_possible_moves s = Some moves → Forall (generated s) moves.
Proof.
  intros H. eapply (scan_rows_generated (board s) [] 0); [lia| |done|done].
  intros i row Hi. done.
Qed.

End Geometry.

(** ** What the geometry says of each piece *)

Lemma ray_steps_split pre i post :
  pre ++ i :: post = ray_steps →
  1 ≤ i ≤ 7 ∧ ∀ j, 1 ≤ j < i → j ∈ pre.
Proof.
  change ray_steps with (seqZ 1 7). intros Hsplit.
  assert (seqZ 1 7 !! length pre = Some i) as Hi.
  { rewrite <-Hsplit. by rewrite list_lookup_middle. }
  apply lookup_seqZ in Hi as [-> Hlen]. split; [lia|].
  intros j Hj.
  assert (seqZ 1 7 !! Z.to_nat (j - 1) = Some j) as Hlook.
  { apply lookup_seqZ. lia. }
  rewrite <-Hsplit, lookup_app_l in Hlook by lia.
  by eapply list_elem_of_lookup_2.
Qed.

Lemma directs_unit d :
  d ∈ rook_directs ∨ d ∈ bishop_directs → -1 ≤ d.1 ≤ 1 ∧ -1 ≤ d.2 ≤ 1.
Proof.
  unfold rook_directs, bishop_directs. intros [H|H];
    repeat (apply elem_of_cons in H as [->|H]; [simpl; lia|]);
    by apply elem_of_nil in H.
Qed.

(** What a move built from the square of an own piece records. *)
Lemma init_own s m r c k er ec cro cco sec :
  own s r c k →
  MoveM.init (board s) (r, c) (er, ec) cro cco None sec = Some m →
  startRow m = r ∧ startCol m = c ∧ endRow m = er ∧ endCol m = ec
  ∧ Py.index1 (piece_moved m) = Some k
  ∧ Py.startswith (piece_moved m) (turn_colour s) = true
  ∧ secondary_move m = sec
  ∧ piece_captured_row m = captured_coord cro er
  ∧ piece_captured_col m = captured_coord cco ec
  ∧ board_get (board s) (piece_captured_row m) (piece_captured_col m)
    = Some (piece_captured m)
  ∧ 0 ≤ er < 8 ∧ 0 ≤ ec < 8.
Proof.
  intros (_ & _ & p & Hp & Hst & Hk) Hm.
  apply init_fields in Hm
    as (Hsr & Hsc & Her & Hec & Hcr & Hcc & Hpm & Hpc & _ & Hsec & Hr & Hc).
  rewrite Hp in Hpm. injection Hpm as <-. rewrite Hcr, Hcc. done.
Qed.

Lemma set_PGN_fields label m :
  startRow (MoveM.set_PGN label m) = startRow m
  ∧ startCol (MoveM.set_PGN label m) = startCol m
  ∧ endRow (MoveM.set_PGN label m) = endRow m
  ∧ endCol (MoveM.set_PGN label m) = endCol m
  ∧ piece_moved (MoveM.set_PGN label m) = piece_moved m
  ∧ piece_captured_row (MoveM.set_PGN label m) = piece_captured_row m
  ∧ piece_captured_col (MoveM.set_PGN label m) = piece_captured_col m
  ∧ piece_captured (MoveM.set_PGN label m) = piece_captured m
  ∧ secondary_move (MoveM.set_PGN label m) = secondary_move m
  ∧ move_id (MoveM.set_PGN label m) = move_id m.
Proof. done. Qed.

Lemma generated_elem s moves m :
  get_possible_moves s = Some moves → m ∈ moves → generated s m.
Proof.
  intros Hposs Hin. apply get_possible_moves_generated in Hposs.
  rewrite Forall_forall in Hposs. by apply Hposs.
Qed.

Lemma castle_has_secondary b start end_ rook king label :
  MoveM.init b start end_ None None None (Some rook) = Some king →
  secondary_move (MoveM.set_PGN label king) = Some rook.
Proof.
  intros Hk. destruct start, end_.
  apply init_fields in Hk as (_ & _ & _ & _ & _ & _ & _ & _ & _ & Hsec & _).
  exact Hsec.
Qed.

(** Rooks, bishops and queens slide along their directions over empty
    squares only, up to a square that does not hold a piece of the side to
    move. *)
Theorem sliding_moves_never_jump s moves m k :
  wf_board (board s) →
  get_possible_moves s = Some moves → m ∈ moves →
  secondary_move m = None →
  Py.index1 (piece_moved m) = Some k →
  k = "R"%string ∨ k = "B"%string ∨ k = "Q"%string →
  ∃ d i,
    1 ≤ i ≤ 7
    ∧ (((k = "R"%string ∨ k = "Q"%string) ∧ d ∈ rook_directs)
       ∨ ((k = "B"%string ∨ k = "Q"%string) ∧ d ∈ bishop_directs))
    ∧ (endRow m, endCol m) = (startRow m + d.1 * i, startCol m + d.2 * i)
    ∧ (∀ j, 1 ≤ j < i →
         board_get (board s) (startRow m + d.1 * j) (startCol m + d.2 * j)
         = Some ""%string)
    ∧ ∃ t, board_get (board s) (endRow m) (endCol m) = Some t
           ∧ Py.startswith t (turn_colour s) = false.
Proof.
  intros Hwf Hposs Hin Hsec Hk Hkind.
  pose proof (generated_elem s moves m Hposs Hin) as Hgen.
  generated_cases Hgen;
    try (destruct (init_own _ _ _ _ _ _ _ _ _ _ Hown Hm)
           as (Hsr' & Hsc' & Her' & Hec' & Hk' & _);
         rewrite Hk in Hk'; try injection Hk' as Hk').
  1-4: destruct Hkind as [?|[?|?]]; congruence.
  - destruct Hoff as [[? _]|[? _]]; destruct Hkind as [?|[?|?]]; congruence.
  - apply ray_steps_split in Hsplit as [Hi Hjs].
    subst k0. exists d, i. rewrite Hsr', Hsc', Her', Hec'.
    split; [done|]. split; [done|]. split; [done|]. split; [|by exists t].
    intros j Hj.
    assert (-1 ≤ d.1 ≤ 1 ∧ -1 ≤ d.2 ≤ 1) as [Hd1 Hd2].
    { apply directs_unit. destruct Hd as [[_ ?]|[_ ?]]; auto. }
    destruct Hown as (Hr0 & Hc0 & p & Hp & _).
    pose proof (board_get_sq_ok _ _ _ _ Hwf Hr0 Hc0 Hp) as [Hr8 Hc8].
    apply init_fields in Hm as (_ & _ & _ & _ & _ & _ & _ & _ & _ & _ & Hre & Hce).
    rewrite Forall_forall in Hpre. apply (Hpre j (Hjs j Hj)).
    apply andb_true_iff. split; apply on_board_true; nia.
  - by rewrite (castle_has_secondary _ _ _ _ _ label Hking) in Hsec.
Qed.

(** Kings step to a neighbouring square and knights jump in their L shape,
    never onto a piece of the side to move. *)
Theorem king_and_knight_steps s moves m k :
  get_possible_moves s = Some moves → m ∈ moves →
  secondary_move m = None →
  Py.index1 (piece_moved m) = Some k →
  k = "K"%string ∨ k = "N"%string →
  (if String.eqb k "K"
   then Z.max (Z.abs (endRow m - startRow m)) (Z.abs (endCol m - startCol m)) = 1
   else Z.abs (endRow m - startRow m) * Z.abs (endCol m - startCol m) = 2)
  ∧ ∃ t, board_get (board s) (endRow m) (endCol m) = Some t
         ∧ Py.startswith t (turn_colour s) = false.
Proof.
  intros Hposs Hin Hsec Hk Hkind.
  pose proof (generated_elem s moves m Hposs Hin) as Hgen.
  generated_cases Hgen;
    try (destruct (init_own _ _ _ _ _ _ _ _ _ _ Hown Hm)
           as (Hsr' & Hsc' & Her' & Hec' & Hk' & _);
         rewrite Hk in Hk'; try injection Hk' as Hk').
  1-4: destruct Hkind as [?|?]; congruence.
  - subst k0. rewrite Hsr', Hsc', Her', Hec'. split; [|by exists t].
    destruct Hoff as [[-> ->]|[-> ->]]; simpl.
    + assert ((i, j) ≠ (0, 0)) as Hne.
      { intros [= -> ->]. rewrite !Z.add_0_r in Hb.
        destruct Hown as (_ & _ & p & Hp & Hpst & _). congruence. }
      unfold king_offsets in Hij.
      repeat (apply elem_of_cons in Hij as [[= -> ->]|Hij]; [try done; lia|]).
      by apply elem_of_nil in Hij.
    + unfold knight_offsets in Hij.
      repeat (apply elem_of_cons in Hij as [[= -> ->]|Hij]; [lia|]).
      by apply elem_of_nil in Hij.
  - destruct Hd as [[? _]|[? _]]; destruct Hkind as [?|?]; intuition congruence.
  - by rewrite (castle_has_secondary _ _ _ _ _ label Hking) in Hsec.
Qed.

(** Pawns go one row forward: straight onto an empty square, two rows from
    their home row when both squares are empty, or one column aside onto
    an occupied square or past the pawn that moved last. *)
Theorem pawn_moves_go_forward s moves m :
  get_possible_moves s = Some moves → m ∈ moves →
  secondary_move m = None →
  Py.index1 (piece_moved m) = Some "P"%string →
  (endCol m = startCol m
   ∧ board_get (board s) (endRow m) (endCol m) = Some ""%string
   ∧ (endRow m = startRow m + forward s
      ∨ (startRow m = home_row s ∧ endRow m = startRow m + 2 * forward s
         ∧ board_get (board s) (startRow m + forward s) (startCol m)
           = Some ""%string)))
  ∨ (endRow m = startRow m + forward s
     ∧ (endCol m = startCol m + 1 ∨ endCol m = startCol m - 1)
     ∧ ((∃ t, board_get (board s) (endRow m) (endCol m) = Some t ∧ t ≠ ""%string)
        ∨ (∃ lm, last (movelog s) = Some lm ∧ endCol lm = endCol m
                 ∧ endRow lm = startRow m
                 ∧ Py.index1 (piece_moved lm) = Some "P"%string))).
Proof.
  intros Hposs Hin Hsec Hk.
  pose proof (generated_elem s moves m Hposs Hin) as Hgen.
  generated_cases Hgen;
    try (destruct (init_own _ _ _ _ _ _ _ _ _ _ Hown Hm)
           as (Hsr' & Hsc' & Her' & Hec' & Hk' & _);
         rewrite Hk in Hk'; try injection Hk' as Hk').
  - left. rewrite Hsr', Hsc', Her', Hec'. auto.
  - left. rewrite Hsr', Hsc', Her', Hec'. split; [done|]. split; [done|].
    right. auto.
  - right. rewrite Hsr', Hsc', Her', Hec'. split; [done|].
    split; [destruct Hdc as [->| ->]; [right|left]; lia|]. left. by exists t.
  - right. rewrite Hsr', Hsc', Her', Hec'. split; [done|].
    split; [destruct Hec as [->| ->]; [left|right]; lia|]. right.
    exists lm. by rewrite Her.
  - destruct Hoff as [[? _]|[? _]]; congruence.
  - destruct Hd as [[[?|?] _]|[[?|?] _]]; congruence.
  - by rewrite (castle_has_secondary _ _ _ _ _ label Hking) in Hsec.
Qed.

(** A move that captures off its end square is a pawn's capture of the
    pawn that moved last: that pawn came from row 1, stands beside the
    capturing pawn, and the capturing pawn ends on its column. *)
Theorem off_square_capture_is_en_passant s moves m :
  get_possible_moves s = Some moves → m ∈ moves →
  (piece_captured_row m, piece_captured_col m) ≠ (endRow m, endCol m) →
  ∃ lm, last (movelog s) = Some lm
    ∧ Py.index1 (piece_moved lm) = Some "P"%string
    ∧ Py.index1 (piece_moved m) = Some "P"%string
    ∧ (piece_captured_row m, piece_captured_col m) = (endRow lm, endCol lm)
    ∧ startRow lm = 1
    ∧ endRow lm = startRow m ∧ startRow m = passing_row s
    ∧ (endCol lm = startCol m + 1 ∨ endCol lm = startCol m - 1)
    ∧ (endRow m, endCol m) = (startRow m + forward s, endCol lm).
Proof.
  intros Hposs Hin Hcap.
  pose proof (generated_elem s moves m Hposs Hin) as Hgen.
  generated_cases Hgen;
    try (destruct (init_own _ _ _ _ _ _ _ _ _ _ Hown Hm)
           as (Hsr' & Hsc' & Her' & Hec' & Hk' & _ & _ & Hcr & Hcc & _);
         rewrite ?captured_coord_None in Hcr, Hcc).
  1-3, 5-6: by rewrite Hcr, Hcc, Her', Hec' in Hcap.
  - exists lm. rewrite captured_coord_same in Hcc.
    rewrite captured_coord_nonzero in Hcr
      by (rewrite Her; unfold passing_row; destruct (white_move s); lia).
    rewrite Hcr, Hcc, Hsr', Hsc', Her', Hec'. rewrite Her. auto 10.
  - exfalso. apply Hcap.
    apply init_fields in Hking
      as (_ & _ & Her' & Hec' & Hcr & Hcc & _).
    rewrite captured_coord_None in Hcr, Hcc.
    cbn [MoveM.set_PGN piece_captured_row piece_captured_col endRow endCol].
    by rewrite Hcr, Hcc, Her', Hec'.
Qed.

(** ** The legality filter only removes moves *)

Lemma list_remove_sublist x (l l' : list Move) :
  Py.list_remove MoveM.eqb x l = Some l' → l' `sublist_of` l.
Proof.
  revert l'. induction l as [|y l IH]; intros l' H; simpl in H; [done|].
  destruct (MoveM.eqb y x).
  - injection H as <-. by apply sublist_cons.
  - apply fmap_Some in H as (l1 & H1 & ->). apply sublist_skip. by apply IH.
Qed.

Lemma remove_selfchecks_loop_sublist copy :
  ∀ s moves s' moves',
    remove_selfchecks_loop s copy moves = Some (s', moves') →
    moves' `sublist_of` moves.
Proof.
  induction copy as [|m rest IH]; intros s moves s' moves' H;
    cbn [remove_selfchecks_loop] in H.
  - by simplify_eq.
  - apply bind_Some in H as (s1 & _ & H).
    apply bind_Some in H as ([s2 checked] & _ & H).
    apply bind_Some in H as (moves1 & Hrm & H).
    apply bind_Some in H as (s3 & _ & H).
    apply IH in H. etrans; [exact H|].
    destruct checked; [by eapply list_remove_sublist|by simplify_eq].
Qed.

(** The list [get_valid_moves] returns is the list of [get_possible_moves]
    with some entries taken out: nothing is added and the order is kept. *)
Theorem valid_moves_sublist_of_possible s s' moves :
  get_valid_moves s = Some (s', moves) →
  ∃ possible, get_possible_moves s = Some possible
    ∧ moves `sublist_of` possible.
Proof.
  intros H. unfold get_valid_moves, remove_selfchecks in H.
  apply bind_Some in H as (possible & Hp & H).
  apply bind_Some in H as ([s1 moves1] & Hloop & H). injection H as _ <-.
  exists possible. split; [done|]. by eapply remove_selfchecks_loop_sublist.
Qed.

(** ** The two flags *)

Lemma square_attacked_state s r c s' b : square_attacked s r c = Some (s', b) → s' = s.
Proof.
  unfold square_attacked. intros H.
  apply bind_Some in H as (possible & _ & H). injection H as <- _.
  apply toggle_toggle.
Qed.

Lemma in_check_state s s' b : in_check s = Some (s', b) → s' = s.
Proof.
  unfold in_check. destruct (white_move s); apply square_attacked_state.
Qed.

Lemma make_move_flags m s log s1 :
  make_move s m log = Some s1 → same_flags s s1.
Proof.
  intros H.
  by destruct (make_move_bookkeeping_depth _ m s log s1 eq_refl H) as (_ & _ & ? & ?).
Qed.

Lemma remove_selfchecks_loop_flags copy :
  ∀ s moves s' moves',
    remove_selfchecks_loop s copy moves = Some (s', moves') → same_flags s s'.
Proof.
  induction copy as [|m rest IH]; intros s moves s' moves' H;
    cbn [remove_selfchecks_loop] in H.
  - by simplify_eq.
  - apply bind_Some in H as (s1 & Hmake & H).
    apply bind_Some in H as ([s2 checked] & Hchk & H).
    apply bind_Some in H as (moves1 & _ & H).
    apply bind_Some in H as (s3 & Hundo & H).
    apply IH in H. apply in_check_state in Hchk as ->.
    rewrite toggle_toggle in Hundo.
    apply make_move_flags in Hmake. apply undo_move_flags in Hundo.
    unfold same_flags in *. intuition congruence.
Qed.

(** [get_valid_moves] sets the checkmate flag when it returns no move,
    whether or not the king is attacked; it never clears that flag and
    never touches the stalemate flag. *)
Theorem get_valid_moves_checkmate_flag s s' moves :
  get_valid_moves s = Some (s', moves) →
  checkmate s' = (if moves is [] then true else checkmate s)
  ∧ stalemate s' = stalemate s.
Proof.
  intros H. unfold get_valid_moves, remove_selfchecks in H.
  apply bind_Some in H as (possible & Hp & H).
  apply bind_Some in H as ([s1 moves1] & Hloop & H). injection H as <- <-.
  apply remove_selfchecks_loop_flags in Hloop as [Hc Hs].
  rewrite check_game_state_never_sets_stalemate.
  split; [|done]. by destruct moves1.
Qed.

(** ** The side to move and the length of the log *)

Lemma played_parity s : played s → white_move s = Nat.even (length (movelog s)).
Proof.
  induction 1 as [s (Hb & Hw & Hl) | s m s1 s' Hpl IH Hinv Hps Hmake (Hb & Hw & Hl)].
  - by rewrite <-Hw, <-Hl.
  - destruct (make_move_inv s m Hinv Hps) as (s1' & E & _ & Hw1 & Hl1 & _).
    assert (s1' = s1) as -> by congruence.
    rewrite <-Hw, <-Hl, Hw1, Hl1, IH, length_app. simpl.
    rewrite Nat.add_1_r, Nat.even_succ. by rewrite Nat.negb_even.
Qed.

(** In a game played from the initial position White is to move exactly
    when the log holds an even number of moves. *)
Theorem turn_follows_log_parity s :
  reachable s → white_move s = Nat.even (length (movelog s)).
Proof. intros H. by apply played_parity, reachable_played. Qed.

(** ** Undoing a whole game *)

Lemma played_undo_total s :
  played s →
  ∃ s', undo_move s = Some s' ∧ played s'
    ∧ length (movelog s') = pred (length (movelog s)).
Proof.
  intros Hpl.
  destruct Hpl as [s H0 | s0 m s1 s Hpl Hinv Hps Hmake H1].
  - exists s. destruct H0 as (Hb & Hw & Hl). unfold undo_move.
    rewrite <-Hl. simpl. split; [done|]. split; [|done].
    apply played_init. by repeat split.
  - destruct (make_undo s0 m (inv_wf s0 Hinv) (pseudo_move_ok s0 m Hinv Hps))
      as (s1' & E1 & s2 & E2 & Hpos & _).
    assert (s1' = s1) as -> by congruence.
    destruct (undo_move_same s1 s s2 H1 E2) as (s2' & E2' & Hpos').
    exists s2'. split; [done|]. split.
    + eapply played_same; [|exact Hpl]. by eapply same_position_trans.
    + destruct (make_move_inv s0 m Hinv Hps) as (s1' & E & _ & _ & Hl1 & _).
      assert (s1' = s1) as -> by congruence.
      destruct H1 as (_ & _ & Hl). destruct Hpos as (_ & _ & Hl0).
      destruct Hpos' as (_ & _ & Hl2).
      rewrite <-Hl2, <-Hl0, <-Hl, Hl1, length_app. simpl. lia.
Qed.

Lemma played_empty_log s :
  played s → movelog s = [] → same_position GameState_init s.
Proof.
  intros Hpl Hl.
  destruct Hpl as [s H0 | s0 m s1 s Hpl Hinv Hps Hmake H1]; [done|].
  destruct (make_move_inv s0 m Hinv Hps) as (s1' & E & _ & _ & Hl1 & _).
  assert (s1' = s1) as -> by congruence.
  destruct H1 as (_ & _ & Hl2). rewrite <-Hl2, Hl1 in Hl.
  by destruct (movelog s0).
Qed.

Lemma played_undo_moves n :
  ∀ s, played s → length (movelog s) = n →
  ∃ s0, undo_moves n s = Some s0 ∧ same_position GameState_init s0.
Proof.
  induction n as [|n IH]; intros s Hpl Hlen.
  - exists s. split; [done|]. apply played_empty_log; [done|].
    by destruct (movelog s).
  - destruct (played_undo_total s Hpl) as (s' & E & Hpl' & Hlen').
    destruct (IH s' Hpl') as (s0 & E0 & Hpos); [lia|].
    exists s0. simpl. rewrite E. done.
Qed.

(** Undoing as many moves as the log holds never raises and leads back to
    the initial board with White to move and an empty log. *)
Theorem undo_all_returns_to_start s :
  reachable s →
  ∃ s0, undo_moves (length (movelog s)) s = Some s0
    ∧ board s0 = initial_board ∧ white_move s0 = true ∧ movelog s0 = [].
Proof.
  intros Hr.
  destruct (played_undo_moves _ s (reachable_played s Hr) eq_refl)
    as (s0 & E & Hb & Hw & Hl).
  exists s0. by rewrite <-Hb, <-Hw, <-Hl.
Qed.

(** ** The notation tables of move.py *)

Lemma rows_ranks_inverse row rank :
  MoveM.rows_to_ranks row = Some rank ↔ MoveM.ranks_to_rows rank = Some row.
Proof.
  unfold MoveM.rows_to_ranks, MoveM.ranks_to_rows. split.
  - repeat match goal with
           | |- context [?x =? ?y] => destruct (Z.eqb_spec x y) as [->|?]
           end; intros [= <-]; done.
  - repeat match goal with
           | |- context [String.eqb ?x ?y] =>
               destruct (String.eqb_spec x y) as [->|?]
           end; intros [= <-]; done.
Qed.

Lemma cols_files_inverse col file :
  MoveM.cols_to_files col = Some file ↔ MoveM.files_to_cols file = Some col.
Proof.
  unfold MoveM.cols_to_files, MoveM.files_to_cols. split.
  - repeat match goal with
           | |- context [?x =? ?y] => destruct (Z.eqb_spec x y) as [->|?]
           end; intros [= <-]; done.
  - repeat match goal with
           | |- context [String.eqb ?x ?y] =>
               destruct (String.eqb_spec x y) as [->|?]
           end; intros [= <-]; done.
Qed.

Lemma ranks_to_rows_None rank :
  MoveM.ranks_to_rows rank = None ↔ rank ∉ rank_names.
Proof.
  unfold MoveM.ranks_to_rows, rank_names. split.
  - intros H Hin.
    repeat (apply elem_of_cons in Hin as [->|Hin]; [done|]).
    by apply elem_of_nil in Hin.
  - intros Hnot.
    repeat match goal with
           | |- context [String.eqb ?x ?y] =>
               destruct (String.eqb_spec x y) as [->|?];
               [exfalso; apply Hnot; solve_elem|]
           end.
    done.
Qed.

Lemma files_to_cols_None file :
  MoveM.files_to_cols file = None ↔ file ∉ file_names.
Proof.
  unfold MoveM.files_to_cols, file_names. split.
  - intros H Hin.
    repeat (apply elem_of_cons in Hin as [->|Hin]; [done|]).
    by apply elem_of_nil in Hin.
  - intros Hnot.
    repeat match goal with
           | |- context [String.eqb ?x ?y] =>
               destruct (String.eqb_spec x y) as [->|?];
               [exfalso; apply Hnot; solve_elem|]
           end.
    done.
Qed.

Lemma rows_to_ranks_None row : MoveM.rows_to_ranks row = None ↔ ¬ 0 ≤ row < 8.
Proof.
  rewrite <-rows_to_ranks_Some. destruct (MoveM.rows_to_ranks row) as [x|].
  - split; [done|]. intros H. destruct H. by eexists.
  - split; [|done]. intros _ [x ?]. done.
Qed.

Lemma cols_to_files_None col : MoveM.cols_to_files col = None ↔ ¬ 0 ≤ col < 8.
Proof.
  rewrite <-cols_to_files_Some. destruct (MoveM.cols_to_files col) as [x|].
  - split; [done|]. intros H. destruct H. by eexists.
  - split; [|done]. intros _ [x ?]. done.
Qed.

(** The two pairs of tables are inverse to each other: a row has a rank
    exactly when the rank has that row, and likewise for columns and
    files.  Outside the tables the lookups raise: [rows_to_ranks] and
    [cols_to_files] for every index that is not in 0..7, [ranks_to_rows]
    for every string that is not one of "1".."8", [files_to_cols] for every
    string that is not one of "a".."h". *)
Theorem notation_tables_inverse :
  (∀ row rank,
     MoveM.rows_to_ranks row = Some rank ↔ MoveM.ranks_to_rows rank = Some row)
  ∧ (∀ col file,
       MoveM.cols_to_files col = Some file ↔ MoveM.files_to_cols file = Some col)
  ∧ (∀ row, MoveM.rows_to_ranks row = None ↔ ¬ 0 ≤ row < 8)
  ∧ (∀ col, MoveM.cols_to_files col = None ↔ ¬ 0 ≤ col < 8)
  ∧ (∀ rank, MoveM.ranks_to_rows rank = None ↔ rank ∉ rank_names)
  ∧ (∀ file, MoveM.files_to_cols file = None ↔ file ∉ file_names).
Proof.
  split; [apply rows_ranks_inverse|]. split; [apply cols_files_inverse|].
  split; [apply rows_to_ranks_None|]. split; [apply cols_to_files_None|].
  split; [apply ranks_to_rows_None|apply files_to_cols_None].
Qed.

Lemma get_rank_file_chars row col name :
  MoveM.get_rank_file row col = Some name →
  ∃ file rank, name = (file ++ rank)%string
    ∧ String.length file = 1%nat ∧ String.length rank = 1%nat
    ∧ MoveM.cols_to_files col = Some file ∧ MoveM.rows_to_ranks row = Some rank.
Proof.
  unfold MoveM.get_rank_file. intros H.
  apply bind_Some in H as (file & Hf & H).
  apply bind_Some in H as (rank & Hr & H). injection H as <-.
  exists file, rank. split; [done|].
  split; [|split; [|done]].
  - unfold MoveM.cols_to_files in Hf.
    repeat match type of Hf with
           | context [?x =? ?y] => destruct (x =? y); [by injection Hf as <-|]
           end. done.
  - unfold MoveM.rows_to_ranks in Hr.
    repeat match type of Hr with
           | context [?x =? ?y] => destruct (x =? y); [by injection Hr as <-|]
           end. done.
Qed.

Lemma char_at_two x y :
  String.length x = 1%nat → String.length y = 1%nat →
  char_at (x ++ y) 0 = x ∧ char_at (x ++ y) 1 = y.
Proof.
  destruct x as [|a [|]]; try done. destruct y as [|b [|]]; done.
Qed.

Lemma get_rank_file_name row col name :
  MoveM.get_rank_file row col = Some name →
  sq_ok row col
  ∧ String.length name = 2%nat
  ∧ MoveM.files_to_cols (char_at name 0) = Some col
  ∧ MoveM.ranks_to_rows (char_at name 1) = Some row.
Proof.
  intros H.
  assert (sq_ok row col) as Hsq.
  { unfold MoveM.get_rank_file in H.
    apply bind_Some in H as (file & Hf & H).
    apply bind_Some in H as (rank & Hr & H).
    split; [by apply rows_to_ranks_Some|by apply cols_to_files_Some]. }
  apply get_rank_file_chars in H as (file & rank & -> & Hlf & Hlr & Hf & Hr).
  destruct (char_at_two file rank Hlf Hlr) as [-> ->].
  split; [done|]. split.
  - destruct file as [|a [|]]; try done. destruct rank as [|b [|]]; done.
  - split; [by apply cols_files_inverse|by apply rows_ranks_inverse].
Qed.

Lemma get_rank_file_Some row col : sq_ok row col → is_Some (MoveM.get_rank_file row col).
Proof.
  intros [Hr Hc]. apply rows_to_ranks_Some in Hr as [rank Hr].
  apply cols_to_files_Some in Hc as [file Hc].
  unfold MoveM.get_rank_file. rewrite Hc, Hr. by eexists.
Qed.

(** For a square of the board [get_rank_file] returns a name of two
    characters, the file of the column and the rank of the row, which the
    tables [files_to_cols] and [ranks_to_rows] decode back to the square;
    for any other pair of indices it raises. *)
Theorem get_rank_file_decodes row col :
  (sq_ok row col →
   ∃ name, MoveM.get_rank_file row col = Some name
     ∧ String.length name = 2%nat
     ∧ MoveM.files_to_cols (char_at name 0) = Some col
     ∧ MoveM.ranks_to_rows (char_at name 1) = Some row)
  ∧ (¬ sq_ok row col → MoveM.get_rank_file row col = None).
Proof.
  split.
  - intros Hsq. destruct (get_rank_file_Some row col Hsq) as [name H].
    exists name. split; [done|]. by apply get_rank_file_name in H as (_ & ? & ? & ?).
  - intros Hsq. destruct (MoveM.get_rank_file row col) as [name|] eqn:E; [|done].
    by apply get_rank_file_name in E as (? & _).
Qed.

(** ** The constructor of a move *)

Lemma init_end_on_board b sr sc er ec cro cco prim sec :
  is_Some (MoveM.init b (sr, sc) (er, ec) cro cco prim sec) → sq_ok er ec.
Proof. intros [m Hm]. by apply init_fields in Hm as (_&_&_&_&_&_&_&_&_&_&?&?). Qed.

(** On a board of shape (8, 8) whose cells are empty or at least two
    characters long, building a move from a square of the board succeeds
    exactly when its end square is on the board: an end square reached by a
    negative index is refused, although the array accepts it. *)
Theorem move_built_iff_end_on_board b sr sc er ec prim sec :
  wf_board b → cells_ok b → sq_ok sr sc →
  is_Some (MoveM.init b (sr, sc) (er, ec) None None prim sec) ↔ sq_ok er ec.
Proof.
  intros Hwf Hcells Hstart. split; [apply init_end_on_board|].
  intros Hend. apply init_Some; [done|done|done|done|by apply cells_ok_cell].
Qed.

Lemma init_PGN b sr sc er ec cro cco prim sec m :
  MoveM.init b (sr, sc) (er, ec) cro cco prim sec = Some m →
  ∃ piece name,
    PGN m = (piece ++ name)%string
    ∧ piece = (if Py.truthy (piece_moved m)
               then default ""%string (Py.index1 (piece_moved m)) else ""%string)
    ∧ (String.length piece ≤ 1)%nat
    ∧ MoveM.get_rank_file er ec = Some name.
Proof.
  unfold MoveM.init. intros H.
  apply bind_Some in H as (pm & Hpm & H).
  apply bind_Some in H as (pc & Hpc & H).
  apply bind_Some in H as (id & Hid & H).
  apply bind_Some in H as (pgn & Hpgn & H). injection H as <-. simpl.
  unfold MoveM.move_notation in Hpgn.
  apply bind_Some in Hpgn as (piece & Hpiece & Hpgn).
  apply bind_Some in Hpgn as (name & Hname & Hpgn). injection Hpgn as <-.
  exists piece, name. split; [done|].
  destruct (Py.truthy pm).
  - rewrite Hpiece. simpl. split; [done|]. split; [|done].
    unfold Py.index1 in Hpiece. destruct (String.get 1 pm); by simplify_eq.
  - injection Hpiece as <-. simpl. split; [done|]. split; [lia|done].
Qed.

Lemma substring_app_r x y n :
  String.substring (String.length x) n (x ++ y) = String.substring 0 n y.
Proof. induction x as [|a x IH]; [done|]. simpl. exact IH. Qed.

Lemma substring_app_r_S x y n :
  String.substring (S (String.length x)) n (x ++ y) = String.substring 1 n y.
Proof. induction x as [|a x IH]; [done|]. simpl. exact IH. Qed.

Lemma length_app_string x y :
  String.length (x ++ y) = (String.length x + String.length y)%nat.
Proof. induction x as [|a x IH]; [done|]. simpl. by rewrite IH. Qed.

(** The notation of a move ends with the name of its end square: its last
    two characters decode to the end column and the end row, and what
    precedes them is the letter of the moved piece, or nothing when the
    start square is empty. *)
Theorem notation_ends_with_end_square b start end_ cro cco prim sec m :
  MoveM.init b start end_ cro cco prim sec = Some m →
  let n := String.length (MoveM.str m) in
  (2 ≤ n ≤ 3)%nat
  ∧ MoveM.files_to_cols (char_at (MoveM.str m) (n - 2)) = Some (endCol m)
  ∧ MoveM.ranks_to_rows (char_at (MoveM.str m) (n - 1)) = Some (endRow m)
  ∧ String.substring 0 (n - 2) (MoveM.str m)
    = (if Py.truthy (piece_moved m)
       then default ""%string (Py.index1 (piece_moved m)) else ""%string).
Proof.
  destruct start as [sr sc], end_ as [er ec]. intros Hm.
  pose proof (init_fields _ _ _ _ _ _ _ _ _ _ Hm) as (_&_&Her&Hec&_).
  apply init_PGN in Hm as (piece & name & HP & Hpiece & Hlen & Hname).
  apply get_rank_file_name in Hname as (_ & Hl2 & Hf & Hr).
  rewrite <-Hpiece. unfold MoveM.str. rewrite HP, Her, Hec. cbn zeta.
  rewrite length_app_string, Hl2.
  replace (String.length piece + 2 - 2)%nat with (String.length piece) by lia.
  replace (String.length piece + 2 - 1)%nat with (S (String.length piece)) by lia.
  unfold char_at in *. rewrite substring_app_r, substring_app_r_S.
  split; [lia|]. split; [done|]. split; [done|].
  clear. induction piece as [|a x IH]; simpl; [by destruct name|by rewrite IH].
Qed.

(** ** The pieces on the board have images *)

Lemma load_images_lookup x image :
  chessMain.load_images ∅ !! x = Some image →
  image = piece_image x ∧ (2 ≤ String.length x)%nat.
Proof.
  unfold chessMain.load_images. cbn [foldl]. intros H.
  repeat (apply lookup_insert_Some in H as [[<- <-]|[_ H]]; [split; [done|simpl; lia]|]).
  by rewrite lookup_empty in H.
Qed.

Lemma drawable_empty : drawable "".
Proof. by left. Qed.

Lemma sq_ok_coords r c : sq_ok r c → r ∈ coords ∧ c ∈ coords.
Proof.
  intros [Hr Hc]. split; apply list_elem_of_In, coords_elem; lia.
Qed.

Lemma pieces_ok_initial : pieces_ok initial_board.
Proof.
  intros r c Hsq. apply sq_ok_coords in Hsq as [Hr Hc]. unfold coords in *.
  repeat (apply elem_of_cons in Hr as [->|Hr];
    [repeat (apply elem_of_cons in Hc as [->|Hc];
       [first [by left|right; vm_compute; by eexists]|]);
     by apply elem_of_nil in Hc|]).
  by apply elem_of_nil in Hr.
Qed.

Lemma upd_drawable f r0 c0 v :
  (∀ r c, sq_ok r c → drawable (f r c)) → drawable v →
  ∀ r c, sq_ok r c → drawable (upd f r0 c0 v r c).
Proof. intros Hf Hv r c Hsq. unfold upd. case_decide; auto. Qed.

Lemma written1_drawable f m :
  squares_ok m → built_on f m →
  (∀ r c, sq_ok r c → drawable (f r c)) →
  ∀ g, (∀ r c, sq_ok r c → drawable (g r c)) →
  ∀ r c, sq_ok r c → drawable (written1 m g r c).
Proof.
  intros (Hstart & _) (Hpm & _) Hf g Hg. unfold written1.
  apply upd_drawable; [|rewrite <-Hpm; by apply Hf].
  apply upd_drawable; [|apply drawable_empty].
  apply upd_drawable; [done|apply drawable_empty].
Qed.

Lemma played_pieces s : played s → pieces_ok (board s).
Proof.
  induction 1 as [s (Hb & _) | s m s1 s' Hpl IH Hinv Hps Hmake (Hb & _)].
  - rewrite <-Hb. apply pieces_ok_initial.
  - rewrite <-Hb.
    pose proof (pseudo_move_ok s m Hinv Hps) as Hok.
    destruct (make_move_spec s m (inv_wf s Hinv) Hok) as (s1' & E & _ & Hcells & _).
    assert (s1' = s1) as -> by congruence.
    intros r c Hsq. rewrite Hcells by done.
    destruct Hok as (Hsq_m & Hbuilt & Hsec). unfold written.
    destruct (secondary_move m) as [second|].
    + destruct Hsec as (Hsq2 & Hbuilt2 & _).
      apply (written1_drawable (cell (board s)) second); [done..| |done].
      by apply (written1_drawable (cell (board s)) m).
    + by apply (written1_drawable (cell (board s)) m).
Qed.

(** In a game played from the initial position the board keeps its shape
    (8, 8) and every cell is empty or holds one of the twelve names that
    [load_images] gives an image. *)
Theorem board_holds_pieces_with_images s :
  reachable s →
  wf_board (board s)
  ∧ ∀ row col, sq_ok row col →
      ∃ x, board_get (board s) row col = Some x
        ∧ (x = ""%string ∨ chessMain.load_images ∅ !! x = Some (piece_image x)).
Proof.
  intros Hr. pose proof (reachable_played s Hr) as Hpl.
  pose proof (inv_wf s (played_inv s Hpl)) as Hwf. split; [done|].
  intros row col Hsq. exists (cell (board s) row col).
  split; [by apply board_get_cell|].
  destruct (played_pieces s Hpl row col Hsq) as [?|[image H]]; [by left|right].
  by destruct (load_images_lookup _ _ H) as [<- _].
Qed.

(** ** Drawing *)

Lemma for_each_appends {A B} (l : list A) (body : list B → A → option (list B))
    (f : A → list B) :
  (∀ x, x ∈ l → ∀ s, body s x = Some (s ++ f x)) →
  ∀ s, chessMain.for_each l body s = Some (s ++ l ≫= f).
Proof.
  induction l as [|x l IH]; intros Hbody s; simpl.
  - by rewrite app_nil_r.
  - rewrite Hbody by apply list_elem_of_here. simpl.
    rewrite IH by (intros y Hy; apply Hbody; by apply list_elem_of_further).
    by rewrite <-app_assoc.
Qed.

Lemma range_elem x n : x ∈ chessMain.range n ↔ 0 ≤ x < n.
Proof. unfold chessMain.range. rewrite elem_of_seqZ. lia. Qed.

Lemma draw_pieces_spec b screen :
  wf_board b → pieces_ok b →
  chessMain.draw_pieces (chessMain.load_images ∅) screen b
  = Some (screen ++ (row ← chessMain.range 8; col ← chessMain.range 8; blits b row col)).
Proof.
  intros Hwf Hok. unfold chessMain.draw_pieces.
  apply for_each_appends. intros row Hrow%range_elem screen1.
  apply for_each_appends. intros col Hcol%range_elem screen2.
  assert (sq_ok row col) as Hsq by done.
  rewrite (board_get_cell b row col Hwf Hsq). simpl. unfold blits.
  destruct (Hok row col Hsq) as [->|[image Himg]].
  - simpl. by rewrite app_nil_r.
  - rewrite Himg. destruct (load_images_lookup _ _ Himg) as [_ Hlen].
    destruct (Py.truthy (cell b row col)) eqn:Et; [done|].
    apply truthy_false in Et. rewrite Et in Hlen. simpl in Hlen. lia.
Qed.

Lemma blits_NoDup b :
  NoDup (row ← chessMain.range 8; col ← chessMain.range 8; blits b row col).
Proof.
  assert (∀ row col d, d ∈ blits b row col →
            ∃ image, d = chessMain.Blitted image (square_rect row col)) as Hd.
  { intros row col d. unfold blits.
    destruct (chessMain.load_images ∅ !! cell b row col) as [image|];
      [|by intros ?%elem_of_nil].
    intros ->%list_elem_of_singleton. by exists image. }
  assert (∀ i row col i' row' col',
            chessMain.Blitted i (square_rect row col)
            = chessMain.Blitted i' (square_rect row' col') →
            row = row' ∧ col = col') as Hrect.
  { unfold square_rect. change chessMain.SQUARE_SIZE with 64.
    intros i row col i' row' col' Heq. simplify_eq. lia. }
  apply NoDup_bind; [| |apply NoDup_seqZ].
  - intros row row' d _ _ (col & H1 & _)%list_elem_of_bind
      (col' & H2 & _)%list_elem_of_bind.
    apply Hd in H1 as (i1 & ->). apply Hd in H2 as (i2 & Heq).
    by apply Hrect in Heq as [? _].
  - intros row _. apply NoDup_bind; [| |apply NoDup_seqZ].
    + intros col col' d _ _ H1 H2.
      apply Hd in H1 as (i1 & ->). apply Hd in H2 as (i2 & Heq).
      by apply Hrect in Heq as [_ ?].
    + intros col _. unfold blits.
      destruct (chessMain.load_images ∅ !! cell b row col);
        [apply NoDup_singleton|apply NoDup_nil_2].
Qed.

(** In a game played from the initial position [draw_pieces] never raises
    and adds to the screen exactly one image for each occupied square: the
    image of the piece on it, in the rectangle of the square.  What it adds
    holds no image twice, an image for every occupied square and nothing
    else. *)
Theorem draw_pieces_draws_every_piece s screen :
  reachable s →
  ∃ drawn,
    chessMain.draw_pieces (chessMain.load_images ∅) screen (board s)
    = Some (screen ++ drawn)
    ∧ NoDup drawn
    ∧ ∀ d, d ∈ drawn ↔
        ∃ row col x, sq_ok row col
          ∧ board_get (board s) row col = Some x ∧ x ≠ ""%string
          ∧ d = chessMain.Blitted (piece_image x) (square_rect row col).
Proof.
  intros Hr. pose proof (reachable_played s Hr) as Hpl.
  pose proof (inv_wf s (played_inv s Hpl)) as Hwf.
  pose proof (played_pieces s Hpl) as Hok.
  eexists. split; [by apply draw_pieces_spec|].
  split; [apply blits_NoDup|].
  intros d. rewrite list_elem_of_bind. split.
  - intros (row & Hd & Hrow%range_elem).
    apply list_elem_of_bind in Hd as (col & Hd & Hcol%range_elem).
    assert (sq_ok row col) as Hsq by done.
    unfold blits in Hd.
    destruct (chessMain.load_images ∅ !! cell (board s) row col) as [image|] eqn:E;
      [|by apply elem_of_nil in Hd].
    apply list_elem_of_singleton in Hd as ->.
    destruct (load_images_lookup _ _ E) as [-> Hlen].
    exists row, col, (cell (board s) row col).
    split; [done|]. split; [by apply board_get_cell|]. split; [|done].
    by apply long_nonempty.
  - intros (row & col & x & Hsq & Hx & Hne & ->).
    exists row. split; [|apply range_elem; apply Hsq].
    apply list_elem_of_bind. exists col. split; [|apply range_elem; apply Hsq].
    rewrite (board_get_cell _ _ _ Hwf Hsq) in Hx. injection Hx as <-.
    unfold blits. destruct (Hok row col Hsq) as [?|[image E]]; [done|].
    rewrite E. destruct (load_images_lookup _ _ E) as [-> _].
    apply list_elem_of_singleton. done.
Qed.

Lemma foldl_appends {A B} (l : list A) (f : A → list B) :
  ∀ s, foldl (λ s x, s ++ f x) s l = s ++ l ≫= f.
Proof.
  induction l as [|x l IH]; intros s; simpl.
  - by rewrite app_nil_r.
  - by rewrite IH, <-app_assoc.
Qed.

Lemma foldl_ext_in {A S} (f g : S → A → S) (l : list A) :
  (∀ s x, x ∈ l → f s x = g s x) → ∀ s, foldl f s l = foldl g s l.
Proof.
  induction l as [|x l IH]; intros Hfg s; simpl; [done|].
  rewrite Hfg by apply list_elem_of_here.
  apply IH. intros s' y Hy. apply Hfg. by apply list_elem_of_further.
Qed.

Lemma draw_board_spec screen :
  chessMain.draw_board screen
  = screen ++ (row ← chessMain.range 8; col ← chessMain.range 8;
               [chessMain.Filled (square_colour row col) (square_rect row col)]).
Proof.
  unfold chessMain.draw_board. cbv zeta.
  rewrite <-(foldl_appends (chessMain.range 8)
    (λ row, col ← chessMain.range 8;
            [chessMain.Filled (square_colour row col) (square_rect row col)])).
  apply foldl_ext_in. intros s row _.
  by rewrite <-(foldl_appends (chessMain.range 8)
    (λ col, [chessMain.Filled (square_colour row col) (square_rect row col)])).
Qed.

Lemma inside_square_rect row col x y :
  inside (square_rect row col) x y
  ↔ row = y `div` chessMain.SQUARE_SIZE ∧ col = x `div` chessMain.SQUARE_SIZE.
Proof.
  unfold inside, square_rect. simpl.
  change chessMain.SQUARE_SIZE with 64. split.
  - intros [Hx Hy].
    split; [apply Z.div_unique_pos with (r := y - 64 * row)
           |apply Z.div_unique_pos with (r := x - 64 * col)]; lia.
  - intros [-> ->].
    pose proof (Z.mul_div_le x 64). pose proof (Z.mul_div_le y 64).
    pose proof (Z.mul_succ_div_gt x 64). pose proof (Z.mul_succ_div_gt y 64).
    lia.
Qed.

(** [draw_board] adds 64 rectangles to the screen, and every point of the
    window lies in exactly one of them: the rectangle of the square in row
    [y // SQUARE_SIZE] and column [x // SQUARE_SIZE], light when the sum of
    row and column is even and dark otherwise. *)
Theorem draw_board_tiles_window screen x y :
  0 ≤ x < chessMain.WIDTH → 0 ≤ y < chessMain.HEIGHT →
  let row := y `div` chessMain.SQUARE_SIZE in
  let col := x `div` chessMain.SQUARE_SIZE in
  ∃ drawn,
    chessMain.draw_board screen = screen ++ drawn
    ∧ length drawn = 64%nat
    ∧ chessMain.Filled (square_colour row col) (square_rect row col) ∈ drawn
    ∧ inside (square_rect row col) x y
    ∧ ∀ d, d ∈ drawn →
        ∃ colour rect, d = chessMain.Filled colour rect
          ∧ (inside rect x y →
             d = chessMain.Filled (square_colour row col) (square_rect row col)).
Proof.
  intros Hx Hy row col. eexists. split; [apply draw_board_spec|]. split; [done|].
  assert (0 ≤ row < 8 ∧ 0 ≤ col < 8) as [Hrow Hcol].
  { unfold row, col. change chessMain.SQUARE_SIZE with 64.
    change chessMain.WIDTH with 512 in Hx. change chessMain.HEIGHT with 512 in Hy.
    split; (split; [apply Z.div_pos; lia|apply Z.div_lt_upper_bound; lia]). }
  split; [|split].
  - apply list_elem_of_bind. exists row. split; [|by apply range_elem].
    apply list_elem_of_bind. exists col. split; [|by apply range_elem].
    by apply list_elem_of_singleton.
  - by apply inside_square_rect.
  - intros d Hd.
    apply list_elem_of_bind in Hd as (row' & Hd & _).
    apply list_elem_of_bind in Hd as (col' & Hd & _).
    apply list_elem_of_singleton in Hd as ->.
    eexists _, _. split; [done|].
    rewrite inside_square_rect. by intros [-> ->].
Qed.

(** ** The main loop *)

Lemma reachable_inv s : reachable s → inv s.
Proof. intros H. by apply played_inv, reachable_played. Qed.

Lemma reachable_query s :
  reachable s → ∃ s' moves, get_valid_moves s = Some (s', moves) ∧ reachable s'.
Proof.
  intros Hr. destruct (get_valid_moves_frame s (reachable_inv s Hr))
    as (s' & moves & E & _).
  exists s', moves. split; [done|]. by eapply reach_query.
Qed.

Lemma reachable_make s0 s moves m :
  reachable s0 → get_valid_moves s0 = Some (s, moves) → m ∈ moves →
  ∃ s1, make_move s m true = Some s1 ∧ reachable s1.
Proof.
  intros Hr Hq Hm.
  pose proof (reachable_inv s0 Hr) as Hinv.
  pose proof (reachable_inv s (reach_query s0 s moves Hr Hq)) as Hinv'.
  assert (pseudo s m) as Hps.
  { destruct (get_valid_moves_frame s0 Hinv) as (s' & moves0 & E & Hpos).
    assert (s' = s) as -> by congruence.
    eapply pseudo_same; [exact Hpos|].
    apply get_valid_moves_pseudo in Hq. rewrite Forall_forall in Hq. by apply Hq. }
  destruct (make_move_inv s m Hinv' Hps) as (s1 & E & _).
  exists s1. split; [done|]. by eapply reach_move.
Qed.

Lemma reachable_undo s : reachable s → ∃ s', undo_move s = Some s' ∧ reachable s'.
Proof.
  intros Hr. destruct (played_undo_total s (reachable_played s Hr)) as (s' & E & _).
  exists s'. split; [done|]. by eapply reach_undo.
Qed.

Lemma init_notation b start end_ cro cco prim sec m :
  MoveM.init b start end_ cro cco prim sec = Some m →
  MoveM.move_notation (piece_moved m) (endRow m) (endCol m) = Some (PGN m).
Proof.
  destruct start as [sr sc], end_ as [er ec]. unfold MoveM.init. intros H.
  apply bind_Some in H as (pm & Hpm & H).
  apply bind_Some in H as (pc & Hpc & H).
  apply bind_Some in H as (id & Hid & H).
  apply bind_Some in H as (pgn & Hpgn & H). by injection H as <-.
Qed.

Lemma reachable_draw s screen :
  reachable s →
  is_Some (chessMain.draw_game_state (chessMain.load_images ∅) screen s).
Proof.
  intros Hr. pose proof (reachable_played s Hr) as Hpl.
  unfold chessMain.draw_game_state. cbv zeta.
  rewrite draw_pieces_spec; [by eexists| |by apply played_pieces].
  apply (inv_wf s (played_inv s Hpl)).
Qed.

Lemma clicked_on_board pos :
  0 ≤ pos.1 < chessMain.WIDTH ∧ 0 ≤ pos.2 < chessMain.HEIGHT →
  sq_ok (pos.2 `div` chessMain.SQUARE_SIZE) (pos.1 `div` chessMain.SQUARE_SIZE).
Proof.
  change chessMain.SQUARE_SIZE with 64. change chessMain.WIDTH with 512.
  change chessMain.HEIGHT with 512. intros [Hx Hy].
  split; (split; [apply Z.div_pos; lia|apply Z.div_lt_upper_bound; lia]).
Qed.

Lemma mouse_button_down_settled st pos :
  settled st → chessMain.move_made st = false →
  0 ≤ pos.1 < chessMain.WIDTH ∧ 0 ≤ pos.2 < chessMain.HEIGHT →
  ∃ st', chessMain.mouse_button_down st pos = Some st' ∧ settled st'.
Proof.
  intros (Hr & [Hclicks Hsel] & Hstep) Hmade Hpos.
  destruct (Hstep Hmade) as (s0 & Hr0 & Hq).
  pose proof (clicked_on_board pos Hpos) as Hsq.
  unfold chessMain.mouse_button_down. cbv zeta.
  set (row := pos.2 `div` chessMain.SQUARE_SIZE) in *.
  set (col := pos.1 `div` chessMain.SQUARE_SIZE) in *.
  case_decide as Hsame.
  - simpl. eexists. split; [done|]. split; [done|]. split; [|done]. split; [done|].
    intros sq. simpl. done.
  - rewrite Hclicks.
    destruct (chessMain.selected_square st) as [sq|] eqn:Esel; simpl.
    + pose proof (Hsel sq eq_refl) as Hsq0. destruct sq as [r0 c0].
      pose proof (reachable_inv _ Hr) as Hinv.
      destruct (init_Some (board (chessMain.gs st)) r0 c0 row col None None None None)
        as [move Hmove]; [by apply inv_wf|done|done|done| |].
      { apply cells_ok_cell; [by apply inv_wf|by apply inv_cells|done]. }
      rewrite Hmove. simpl.
      destruct (find (MoveM.eqb move) (chessMain.valid_moves st)) as [stored|] eqn:Ef.
      * apply find_elem_of in Ef.
        destruct (reachable_make s0 _ _ stored Hr0 Hq Ef) as (s1 & E1 & Hr1).
        rewrite E1. simpl. eexists. split; [done|].
        split; [done|]. split; [|done]. split; [done|]. intros sq. simpl. done.
      * rewrite (init_notation _ _ _ _ _ _ _ _ Hmove). simpl.
        eexists. split; [done|]. split; [done|]. split; [|done].
        split; [done|]. simpl. by intros sq [= <-].
    + eexists. split; [done|]. split; [done|]. split; [|done].
      split; [done|]. simpl. by intros sq [= <-].
Qed.

Lemma handle_event_settled st event :
  settled st → (acting event = true → chessMain.move_made st = false) →
  in_window event →
  ∃ st', chessMain.handle_event st event = Some st' ∧ settled st'
    ∧ (acting event = false → chessMain.move_made st' = chessMain.move_made st).
Proof.
  intros Hst Hmade Hwin. destruct event as [|pos|[|]|]; simpl.
  - eexists. split; [done|]. split; [|done].
    destruct Hst as (Hr & Hclicks & Hstep). done.
  - destruct (mouse_button_down_settled st pos Hst (Hmade eq_refl) Hwin)
      as (st' & E & Hst').
    exists st'. done.
  - destruct Hst as (Hr & Hclicks & Hstep).
    destruct (reachable_undo _ Hr) as (s' & E & Hr').
    rewrite E. simpl. eexists. split; [done|]. split; [|done].
    split; [done|]. split; [done|]. done.
  - by exists st.
  - by exists st.
Qed.

Lemma events_settled events :
  ∀ st, settled st →
    (chessMain.move_made st = true → List.filter acting events = []) →
    (length (List.filter acting events) ≤ 1)%nat →
    Forall in_window events →
    ∃ st', chessMain.for_each events chessMain.handle_event st = Some st'
      ∧ settled st'.
Proof.
  induction events as [|event rest IH]; intros st Hst Hmade Hone Hwin.
  - by exists st.
  - apply Forall_cons in Hwin as [Hw Hwin]. simpl in Hmade, Hone.
    destruct (handle_event_settled st event Hst) as (st1 & E & Hst1 & Hquiet);
      [|done|].
    { intros Hact. rewrite Hact in Hmade.
      destruct (chessMain.move_made st); [by specialize (Hmade eq_refl)|done]. }
    simpl. rewrite E. simpl. apply IH; [done| | |done].
    + destruct (acting event) eqn:Hact.
      * intros _. simpl in Hone. destruct (List.filter acting rest); [done|].
        simpl in Hone. lia.
      * rewrite (Hquiet eq_refl). done.
    + destruct (acting event); simpl in Hone; lia.
Qed.

Lemma game_over_fields st :
  chessMain.gs (chessMain.game_over st) = chessMain.gs st
  ∧ chessMain.move_made (chessMain.game_over st) = chessMain.move_made st
  ∧ chessMain.valid_moves (chessMain.game_over st) = chessMain.valid_moves st
  ∧ chessMain.selected_square (chessMain.game_over st) = chessMain.selected_square st
  ∧ chessMain.player_clicks (chessMain.game_over st) = chessMain.player_clicks st.
Proof.
  unfold chessMain.game_over.
  destruct (stalemate (chessMain.gs st)) eqn:Es,
    (checkmate (chessMain.gs st)) eqn:Ec;
    cbn [orb chessMain.gs]; rewrite ?Es; cbn [chessMain.gs chessMain.log_line];
    rewrite ?Ec; done.
Qed.

Lemma frame_settled st events :
  settled st → chessMain.move_made st = false → calm events →
  ∃ st', chessMain.frame (chessMain.load_images ∅) st events = Some st'
    ∧ settled st' ∧ chessMain.move_made st' = false.
Proof.
  intros Hst Hmade [Hone Hwin].
  destruct (events_settled events st Hst) as (st1 & E & Hr1 & Hclicks1 & Hstep1);
    [by rewrite Hmade|done|done|].
  unfold chessMain.frame. rewrite E. cbn [mbind option_bind].
  assert (∃ st2,
    (if chessMain.move_made st1 then
       '(gs, valid_moves) ← get_valid_moves (chessMain.gs st1);
       Some (chessMain.Build_Loop gs (chessMain.running st1) false valid_moves
               (chessMain.selected_square st1) (chessMain.player_clicks st1)
               (chessMain.screen st1) (chessMain.logged st1))
     else Some st1) = Some st2
    ∧ settled st2 ∧ chessMain.move_made st2 = false) as (st2 & E2 & Hst2 & Hmade2).
  { destruct (chessMain.move_made st1) eqn:Em.
    - destruct (reachable_query _ Hr1) as (s' & moves & Eq & Hr').
      rewrite Eq. simpl. eexists. split; [done|]. split; [|done].
      split; [done|]. split; [done|]. intros _. by exists (chessMain.gs st1).
    - exists st1. split; [done|]. split; [|done].
      split; [done|]. split; [done|]. intros _. by apply Hstep1. }
  rewrite E2. cbn [mbind option_bind]. cbv zeta.
  destruct (game_over_fields st2) as (Eg & Em & Ev & Es & Ep).
  rewrite Eg, Em, Ev, Es, Ep.
  destruct Hst2 as (Hr2 & Hclicks2 & Hstep2).
  destruct (reachable_draw (chessMain.gs st2)
              (chessMain.screen (chessMain.game_over st2)) Hr2) as [drawn Ed].
  rewrite Ed. simpl. eexists. split; [done|]. done.
Qed.

Lemma main_loop_settled events :
  ∀ st, settled st → chessMain.move_made st = false → Forall calm events →
    ∃ st', chessMain.main_loop (chessMain.load_images ∅) st events = Some st'
      ∧ settled st' ∧ chessMain.move_made st' = false.
Proof.
  induction events as [|now later IH]; intros st Hst Hmade Hcalm.
  - by exists st.
  - apply Forall_cons in Hcalm as [Hnow Hlater]. simpl.
    destruct (chessMain.running st); [|by exists st].
    destruct (frame_settled st now Hst Hmade Hnow) as (st1 & E & Hst1 & Hmade1).
    rewrite E. simpl. by apply IH.
Qed.

Lemma main_settled events :
  Forall calm events →
  ∃ st, chessMain.main events = Some st
    ∧ settled st ∧ chessMain.move_made st = false.
Proof.
  intros Hcalm. unfold chessMain.main. cbv zeta.
  destruct (reachable_query _ reach_init) as (s' & moves & Eq & Hr').
  rewrite Eq. cbn [mbind option_bind].
  apply main_loop_settled; [|done|done].
  split; [exact Hr'|]. split; [split; [reflexivity|intros sq [=]]|]. intros _.
  exists GameState_init. split; [apply reach_init|exact Eq].
Qed.

(** When every pass of the loop sees at most one click or left-arrow key
    and every click is inside the window, [main] never raises; the state
    it holds is reachable by the protocol of valid-move queries, valid
    moves and undos, its list of valid moves is the one [get_valid_moves]
    returned for that state, and the clicks it keeps are the selected
    square, if any. *)
Theorem main_never_raises events :
  Forall calm events →
  ∃ st, chessMain.main events = Some st
    ∧ reachable (chessMain.gs st)
    ∧ in_step st
    ∧ clicks_ok st.
Proof.
  intros Hcalm.
  destruct (main_settled events Hcalm) as (st & E & (Hr & Hclicks & Hstep) & Hmade).
  exists st. auto.
Qed.

(** ** Every move of the rules is generated *)

Section Completeness.
Context (s : GameState).
Implicit Types moves : list Move.

(** The generators only add to the list they are given. *)
Ltac grows :=
  repeat match goal with
         | H : Some _ = Some _ |- _ => apply (inj Some) in H; subst
         | H : append_move _ _ _ _ _ _ _ = Some _ |- _ =>
             apply append_move_Some in H as (? & ? & ->)
         | H : (if ?b then _ else _) = Some _ |- _ => destruct b
         | H : (_ ≫= _) = Some _ |- _ =>
             let x := fresh in let Hx := fresh in
             apply bind_Some in H as (x & Hx & H)
         end;
  set_solver.

Lemma pawn_capture_grows moves r c er ec guard moves' :
  pawn_capture s moves r c er ec guard = Some moves' → moves ⊆ moves'.
Proof. unfold pawn_capture. intros H. grows. Qed.

Lemma pawn_advance_grows moves r c dir home moves' :
  pawn_advance s moves r c dir home = Some moves' → moves ⊆ moves'.
Proof. unfold pawn_advance. intros H. grows. Qed.

Lemma get_pawn_moves_grows moves r c moves' :
  get_pawn_moves s moves r c = Some moves' → moves ⊆ moves'.
Proof.
  unfold get_pawn_moves. intros H.
  destruct (white_move s);
    apply bind_Some in H as (m1 & H1%pawn_advance_grows & H);
    apply bind_Some in H as (m2 & H2%pawn_capture_grows & H%pawn_capture_grows);
    set_solver.
Qed.

Lemma en_passant_side_grows moves lm r c rank from_row to_row dir moves' :
  en_passant_side s moves lm r c rank from_row to_row dir = Some moves' →
  moves ⊆ moves'.
Proof. unfold en_passant_side. intros H. cbv zeta in H. grows. Qed.

Lemma get_en_passant_grows moves r c moves' :
  get_en_passant s moves r c = Some moves' → moves ⊆ moves'.
Proof.
  unfold get_en_passant. intros H.
  destruct (last (movelog s)); [|by simplify_eq].
  apply bind_Some in H as (k & _ & H).
  destruct (String.eqb k "P"); [|by simplify_eq].
  destruct (white_move s); by apply en_passant_side_grows in H.
Qed.

Lemma step_to_grows moves r c er ec moves' :
  step_to s moves r c er ec = Some moves' → moves ⊆ moves'.
Proof. unfold step_to. intros H. grows. Qed.

Lemma step_all_grows offsets : ∀ moves r c moves',
  step_all s moves r c offsets = Some moves' → moves ⊆ moves'.
Proof.
  induction offsets as [|[i j] rest IH]; intros moves r c moves' H; simpl in H.
  - by simplify_eq.
  - apply bind_Some in H as (m1 & H1%step_to_grows & H%IH). set_solver.
Qed.

Lemma ray_grows d steps : ∀ moves r c moves',
  ray s moves r c d steps = Some moves' → moves ⊆ moves'.
Proof.
  induction steps as [|i rest IH]; intros moves r c moves' H; simpl in H.
  - by simplify_eq.
  - destruct (on_board _ && on_board _); [|by apply IH in H].
    apply bind_Some in H as (t & _ & H).
    apply bind_Some in H as (m1 & H1 & H).
    assert (moves ⊆ m1) as Hm1.
    { destruct (negb _); [|by simplify_eq].
      apply append_move_Some in H1 as (? & _ & ->). set_solver. }
    destruct (Py.truthy t); [by simplify_eq|]. apply IH in H. set_solver.
Qed.

Lemma rays_grows directs : ∀ moves r c moves',
  rays s moves r c directs = Some moves' → moves ⊆ moves'.
Proof.
  induction directs as [|d rest IH]; intros moves r c moves' H; cbn [rays] in H.
  - by simplify_eq.
  - apply bind_Some in H as (m1 & H1%ray_grows & H%IH). set_solver.
Qed.

Lemma get_queen_moves_parts moves r c moves' :
  get_queen_moves s moves r c = Some moves' →
  ∃ l1 l2, get_rook_moves s moves r c = Some l1
    ∧ get_bishop_moves s (l1 ++ l1) r c = Some l2
    ∧ l1 ⊆ moves' ∧ l2 ⊆ moves'.
Proof.
  unfold get_queen_moves. intros H.
  apply bind_Some in H as (l1 & H1 & H).
  apply bind_Some in H as (l2 & H2 & H). injection H as <-.
  exists l1, l2. split; [done|]. split; [done|].
  apply rays_grows in H2. set_solver.
Qed.

Lemma castle_grows moves row rook_col rook_to king_to between label moves' :
  castle s moves row rook_col rook_to king_to between label = Some moves' →
  moves ⊆ moves'.
Proof. unfold castle. intros H. grows. Qed.

Lemma get_castles_grows moves moves' :
  get_castles s moves = Some moves' → moves ⊆ moves'.
Proof.
  unfold get_castles. intros H. cbv zeta in H.
  destruct (negb _); [|by simplify_eq].
  apply bind_Some in H as (m1 & H1%castle_grows & H%castle_grows). set_solver.
Qed.

Lemma scan_square_grows moves r c p moves' :
  scan_square s moves r c p = Some moves' → moves ⊆ moves'.
Proof.
  unfold scan_square. intros H.
  destruct (Py.startswith _ _); [|by simplify_eq].
  apply bind_Some in H as (k & _ & H).
  destruct (String.eqb k "P").
  { apply bind_Some in H as (m1 & H1%get_pawn_moves_grows & H%get_en_passant_grows).
    set_solver. }
  destruct (String.eqb k "K").
  { apply bind_Some in H as (m1 & H1%step_all_grows & H%get_castles_grows).
    set_solver. }
  destruct (String.eqb k "Q").
  { apply get_queen_moves_parts in H as (l1 & l2 & H1%rays_grows & _ & ? & _).
    set_solver. }
  destruct (String.eqb k "R"); [by apply rays_grows in H|].
  destruct (String.eqb k "N"); [by apply step_all_grows in H|].
  destruct (String.eqb k "B"); [by apply rays_grows in H|].
  by simplify_eq.
Qed.

Lemma scan_row_grows row : ∀ moves r c moves',
  scan_row s moves r c row = Some moves' → moves ⊆ moves'.
Proof.
  induction row as [|p rest IH]; intros moves r c moves' H; simpl in H.
  - by simplify_eq.
  - apply bind_Some in H as (m1 & H1%scan_square_grows & H%IH). set_solver.
Qed.

Lemma scan_rows_grows rows : ∀ moves r moves',
  scan_rows s moves r rows = Some moves' → moves ⊆ moves'.
Proof.
  induction rows as [|row rest IH]; intros moves r moves' H; simpl in H.
  - by simplify_eq.
  - apply bind_Some in H as (m1 & H1%scan_row_grows & H%IH). set_solver.
Qed.

(** Each rule, in the generator that implements it. *)

Lemma init_on_board b start er ec cro cco prim sec m :
  MoveM.init b start (er, ec) cro cco prim sec = Some m →
  on_board er = true ∧ on_board ec = true.
Proof.
  destruct start as [sr sc]. intros H.
  apply init_fields in H as (_&_&_&_&_&_&_&_&_&_&Hr&Hc).
  split; by apply on_board_true.
Qed.

Lemma pawn_advance_push1 moves r c m moves' :
  board_get (board s) (r + forward s) c = Some ""%string →
  MoveM.init (board s) (r, c) (r + forward s, c) None None None None = Some m →
  pawn_advance s moves r c (forward s) (home_row s) = Some moves' →
  m ∈ moves'.
Proof.
  intros Hb Hm H. unfold pawn_advance in H.
  destruct (init_on_board _ _ _ _ _ _ _ _ _ Hm) as [Hon _].
  rewrite Hon, Hb in H. cbn [mbind option_bind Py.truthy String.eqb negb] in H.
  apply bind_Some in H as (moves1 & H1 & H).
  apply append_move_Some in H1 as (m' & Hm' & ->).
  rewrite Hm in Hm'. injection Hm' as <-.
  destruct (r =? home_row s); [|injection H as <-; set_solver].
  apply bind_Some in H as (ahead2 & _ & H).
  destruct (negb (Py.truthy ahead2)); [|injection H as <-; set_solver].
  apply append_move_Some in H as (m2 & Hm2 & ->). set_solver.
Qed.

Lemma pawn_advance_push2 moves r c m moves' :
  r = home_row s →
  board_get (board s) (r + forward s) c = Some ""%string →
  board_get (board s) (r + 2 * forward s) c = Some ""%string →
  MoveM.init (board s) (r, c) (r + 2 * forward s, c) None None None None = Some m →
  pawn_advance s moves r c (forward s) (home_row s) = Some moves' →
  m ∈ moves'.
Proof.
  intros Hr Hb Hb2 Hm H. unfold pawn_advance in H.
  assert (on_board (r + forward s) = true) as Hon.
  { rewrite Hr. unfold home_row, forward. by destruct (white_move s). }
  rewrite Hon, Hb in H. cbn [mbind option_bind Py.truthy String.eqb negb] in H.
  apply bind_Some in H as (moves1 & _ & H).
  rewrite Hr, Z.eqb_refl in H. rewrite <-Hr, Hb2 in H.
  cbn [mbind option_bind Py.truthy String.eqb negb] in H.
  apply append_move_Some in H as (m' & Hm' & ->).
  rewrite Hm in Hm'. injection Hm' as <-. set_solver.
Qed.

Lemma pawn_capture_take moves r c er ec t m guard moves' :
  board_get (board s) er ec = Some t → t ≠ ""%string → guard = true →
  MoveM.init (board s) (r, c) (er, ec) None None None None = Some m →
  pawn_capture s moves r c er ec guard = Some moves' →
  m ∈ moves'.
Proof.
  intros Hb Ht -> Hm H. unfold pawn_capture in H.
  destruct (init_on_board _ _ _ _ _ _ _ _ _ Hm) as [Hon _].
  rewrite Hon, Hb in H. cbn [mbind option_bind andb] in H.
  apply truthy_true in Ht. rewrite Ht in H.
  apply append_move_Some in H as (m' & Hm' & ->).
  rewrite Hm in Hm'. injection Hm' as <-. set_solver.
Qed.

Lemma get_pawn_moves_complete moves r c m moves' :
  get_pawn_moves s moves r c = Some moves' →
  (board_get (board s) (r + forward s) c = Some ""%string
   ∧ MoveM.init (board s) (r, c) (r + forward s, c) None None None None = Some m)
  ∨ (r = home_row s
     ∧ board_get (board s) (r + forward s) c = Some ""%string
     ∧ board_get (board s) (r + 2 * forward s) c = Some ""%string
     ∧ MoveM.init (board s) (r, c) (r + 2 * forward s, c) None None None None
       = Some m)
  ∨ (∃ dc t, (dc = -1 ∨ dc = 1)
       ∧ board_get (board s) (r + forward s) (c + dc) = Some t ∧ t ≠ ""%string
       ∧ MoveM.init (board s) (r, c) (r + forward s, c + dc) None None None None
         = Some m) →
  m ∈ moves'.
Proof.
  intros H Hrule.
  assert (∃ m1 m2,
    pawn_advance s moves r c (forward s) (home_row s) = Some m1
    ∧ pawn_capture s m1 r c (r + forward s) (c + -1) (on_board (c + -1)) = Some m2
    ∧ pawn_capture s m2 r c (r + forward s) (c + 1) (c + 1 <? 8) = Some moves')
    as (m1 & m2 & H1 & H2 & H3).
  { unfold get_pawn_moves in H. unfold forward, home_row.
    destruct (white_move s);
      apply bind_Some in H as (m1 & H1 & H);
      apply bind_Some in H as (m2 & H2 & H3); by exists m1, m2. }
  pose proof (pawn_capture_grows _ _ _ _ _ _ _ H2) as G2.
  pose proof (pawn_capture_grows _ _ _ _ _ _ _ H3) as G3.
  destruct Hrule as [[Hb Hm]|[(Hr & Hb & Hb2 & Hm)|(dc & t & Hdc & Hb & Ht & Hm)]].
  - pose proof (pawn_advance_push1 _ _ _ _ _ Hb Hm H1). set_solver.
  - pose proof (pawn_advance_push2 _ _ _ _ _ Hr Hb Hb2 Hm H1). set_solver.
  - destruct (init_on_board _ _ _ _ _ _ _ _ _ Hm) as [_ Hc].
    destruct Hdc as [-> | ->].
    + pose proof (pawn_capture_take _ _ _ _ _ _ _ _ _ Hb Ht Hc Hm H2). set_solver.
    + apply (pawn_capture_take m2 r c _ _ t m (c + 1 <? 8) moves' Hb Ht);
        [|done|done].
      apply on_board_true in Hc. apply Z.ltb_lt. lia.
Qed.

Lemma get_en_passant_complete moves r c lm m moves' :
  last (movelog s) = Some lm →
  Py.index1 (piece_moved lm) = Some "P"%string →
  r = passing_row s → startRow lm = 1 → endRow lm = passing_row s →
  endCol lm = c + 1 ∨ endCol lm = c - 1 →
  MoveM.init (board s) (r, c) (r + forward s, endCol lm)
    (Some (endRow lm)) (Some (endCol lm)) None None = Some m →
  get_en_passant s moves r c = Some moves' →
  m ∈ moves'.
Proof.
  intros Hlast Hk Hr Hsr Her Hec Hm H. unfold get_en_passant in H.
  rewrite Hlast, Hk in H. cbn [mbind option_bind] in H.
  change (String.eqb "P" "P") with true in H. cbv iota in H.
  assert (en_passant_side s moves lm r c (passing_row s) 1 (passing_row s)
            (forward s) = Some moves') as Hside
    by (unfold passing_row, forward; by destruct (white_move s)).
  clear H. unfold en_passant_side in Hside. cbv zeta in Hside.
  destruct (Z.eqb_spec r (passing_row s)) as [_|E]; [|done].
  destruct (Z.eqb_spec (startRow lm) 1) as [_|E]; [|done].
  destruct (Z.eqb_spec (endRow lm) (passing_row s)) as [_|E]; [|done].
  cbn [andb] in Hside.
  destruct Hec as [Hec|Hec].
  - destruct (Z.eqb_spec (endCol lm) (c + 1)) as [_|E]; [|done].
    apply append_move_Some in Hside as (m' & Hm' & ->).
    rewrite <-Hec, Hm in Hm'. injection Hm' as <-. set_solver.
  - destruct (Z.eqb_spec (endCol lm) (c + 1)) as [E|_]; [lia|].
    destruct (Z.eqb_spec (endCol lm) (c - 1)) as [_|E]; [|done].
    apply append_move_Some in Hside as (m' & Hm' & ->).
    rewrite <-Hec, Hm in Hm'. injection Hm' as <-. set_solver.
Qed.

Lemma step_all_complete offsets : ∀ moves r c i j t m moves',
  (i, j) ∈ offsets →
  board_get (board s) (r + i) (c + j) = Some t →
  Py.startswith t (turn_colour s) = false →
  MoveM.init (board s) (r, c) (r + i, c + j) None None None None = Some m →
  step_all s moves r c offsets = Some moves' →
  m ∈ moves'.
Proof.
  induction offsets as [|[i0 j0] rest IH]; intros moves r c i j t m moves'
    Hij Hb Hst Hm H; [by apply elem_of_nil in Hij|].
  simpl in H. apply bind_Some in H as (m1 & H1 & H).
  apply elem_of_cons in Hij as [[= <- <-]|Hij]; [|by eapply IH].
  apply step_all_grows in H. apply H.
  unfold step_to in H1.
  destruct (init_on_board _ _ _ _ _ _ _ _ _ Hm) as [Hon1 Hon2].
  rewrite Hon1, Hon2, Hb in H1. cbn [mbind option_bind andb] in H1.
  rewrite Hst in H1. cbn [negb] in H1.
  apply append_move_Some in H1 as (m' & Hm' & ->).
  rewrite Hm in Hm'. injection Hm' as <-. set_solver.
Qed.

Lemma ray_complete d : ∀ steps pre i post moves r c t m moves',
  steps = pre ++ i :: post →
  Forall (ray_passes s r c d) pre →
  board_get (board s) (r + d.1 * i) (c + d.2 * i) = Some t →
  Py.startswith t (turn_colour s) = false →
  MoveM.init (board s) (r, c) (r + d.1 * i, c + d.2 * i) None None None None
    = Some m →
  ray s moves r c d steps = Some moves' →
  m ∈ moves'.
Proof.
  intros steps pre. revert steps.
  induction pre as [|j pre IH]; intros steps i post moves r c t m moves'
    -> Hpre Hb Hst Hm H; simpl in H.
  - destruct (init_on_board _ _ _ _ _ _ _ _ _ Hm) as [Hon1 Hon2].
    rewrite Hon1, Hon2, Hb in H. cbn [mbind option_bind andb] in H.
    rewrite Hst in H. cbn [negb] in H.
    apply bind_Some in H as (moves1 & H1 & H).
    apply append_move_Some in H1 as (m' & Hm' & ->).
    rewrite Hm in Hm'. injection Hm' as <-.
    destruct (Py.truthy t); [injection H as <-; set_solver|].
    apply ray_grows in H. set_solver.
  - apply Forall_cons in Hpre as [Hj Hpre].
    destruct (on_board (r + d.1 * j) && on_board (c + d.2 * j)) eqn:Hon.
    + rewrite (Hj Hon) in H.
      cbn [mbind option_bind Py.truthy String.eqb negb] in H.
      apply bind_Some in H as (m1 & _ & H). by eapply IH.
    + by eapply IH.
Qed.

Lemma rays_complete directs : ∀ moves r c d pre i post t m moves',
  d ∈ directs →
  pre ++ i :: post = ray_steps →
  Forall (ray_passes s r c d) pre →
  board_get (board s) (r + d.1 * i) (c + d.2 * i) = Some t →
  Py.startswith t (turn_colour s) = false →
  MoveM.init (board s) (r, c) (r + d.1 * i, c + d.2 * i) None None None None
    = Some m →
  rays s moves r c directs = Some moves' →
  m ∈ moves'.
Proof.
  induction directs as [|d0 rest IH]; intros moves r c d pre i post t m moves'
    Hd Hsplit Hpre Hb Hst Hm H; [by apply elem_of_nil in Hd|].
  cbn [rays] in H. apply bind_Some in H as (m1 & H1 & H).
  apply elem_of_cons in Hd as [->|Hd]; [|by eapply IH].
  apply rays_grows in H. apply H.
  by eapply (ray_complete d0 ray_steps pre i post).
Qed.

Lemma castle_complete moves rook_col rook_to king_to between label rook king moves' :
  log_starts_at s (back_row s, rook_col) = false →
  any_occupied (board s) (back_row s) between = Some false →
  MoveM.init (board s) (back_row s, rook_col) (back_row s, rook_to)
    None None None None = Some rook →
  MoveM.init (board s) (back_row s, 4) (back_row s, king_to)
    None None None (Some rook) = Some king →
  castle s moves (back_row s) rook_col rook_to king_to between label = Some moves' →
  MoveM.set_PGN label king ∈ moves'.
Proof.
  intros Hlr Hocc Hrook Hking H. unfold castle in H.
  rewrite Hlr in H. cbn [negb] in H.
  rewrite Hocc in H. cbn [mbind option_bind negb] in H.
  rewrite Hrook in H. cbn [mbind option_bind] in H.
  rewrite Hking in H. cbn [mbind option_bind] in H.
  injection H as <-. set_solver.
Qed.

Lemma get_castles_complete moves rook_col rook_to king_to between label rook king
    moves' :
  castle_side rook_col rook_to king_to between label →
  log_starts_at s (back_row s, 4) = false →
  log_starts_at s (back_row s, rook_col) = false →
  any_occupied (board s) (back_row s) between = Some false →
  MoveM.init (board s) (back_row s, rook_col) (back_row s, rook_to)
    None None None None = Some rook →
  MoveM.init (board s) (back_row s, 4) (back_row s, king_to)
    None None None (Some rook) = Some king →
  get_castles s moves = Some moves' →
  MoveM.set_PGN label king ∈ moves'.
Proof.
  intros Hside Hlk Hlr Hocc Hrook Hking H. unfold get_castles in H.
  fold (back_row s) in H. cbv zeta in H. rewrite Hlk in H. cbn [negb] in H.
  apply bind_Some in H as (m1 & H1 & H).
  destruct Hside.
  - apply castle_grows in H. apply H. by eapply castle_complete.
  - by eapply castle_complete.
Qed.

(** The scan reaches every square that can be read with indices that are
    not negative. *)
Lemma norm_index_nonneg n i k : 0 ≤ i → Py.norm_index n i = Some k → k = Z.to_nat i.
Proof.
  unfold Py.norm_index. intros Hi H.
  destruct ((0 <=? i) && (i <? Z.of_nat n)); [by injection H as <-|].
  destruct (Z.ltb_spec i 0); [lia|]. by rewrite andb_false_r in H.
Qed.

Lemma board_get_nonneg (b : Board) r c p :
  0 ≤ r → 0 ≤ c → board_get b r c = Some p →
  ∃ row, b !! Z.to_nat r = Some row ∧ row !! Z.to_nat c = Some p.
Proof.
  intros Hr Hc H. unfold board_get in H.
  apply bind_Some in H as (i & Hi & H). apply bind_Some in H as (row & Hrow & H).
  apply bind_Some in H as (j & Hj & H).
  apply norm_index_nonneg in Hi as ->; [|done].
  apply norm_index_nonneg in Hj as ->; [|done]. by exists row.
Qed.

Lemma scan_row_at row : ∀ moves r c0 moves' j p,
  scan_row s moves r c0 row = Some moves' → row !! j = Some p →
  ∃ before after,
    scan_square s before r (c0 + Z.of_nat j) p = Some after ∧ after ⊆ moves'.
Proof.
  induction row as [|q rest IH]; intros moves r c0 moves' j p H Hj; [done|].
  simpl in H. apply bind_Some in H as (m1 & H1 & H).
  destruct j as [|j]; simpl in Hj.
  - injection Hj as ->. exists moves, m1. rewrite Z.add_0_r. split; [done|].
    by apply scan_row_grows in H.
  - destruct (IH _ _ _ _ _ _ H Hj) as (before & after & E & Hsub).
    exists before, after. split; [|done].
    by replace (c0 + Z.of_nat (S j)) with (c0 + 1 + Z.of_nat j) by lia.
Qed.

Lemma scan_rows_at rows : ∀ moves r0 moves' i row,
  scan_rows s moves r0 rows = Some moves' → rows !! i = Some row →
  ∃ before after,
    scan_row s before (r0 + Z.of_nat i) 0 row = Some after ∧ after ⊆ moves'.
Proof.
  induction rows as [|row0 rest IH]; intros moves r0 moves' i row H Hi; [done|].
  simpl in H. apply bind_Some in H as (m1 & H1 & H).
  destruct i as [|i]; simpl in Hi.
  - injection Hi as ->. exists moves, m1. rewrite Z.add_0_r. split; [done|].
    by apply scan_rows_grows in H.
  - destruct (IH _ _ _ _ _ H Hi) as (before & after & E & Hsub).
    exists before, after. split; [|done].
    by replace (r0 + Z.of_nat (S i)) with (r0 + 1 + Z.of_nat i) by lia.
Qed.

Lemma scanned moves r c k :
  get_possible_moves s = Some moves → own s r c k →
  ∃ before after p,
    Py.startswith p (turn_colour s) = true ∧ Py.index1 p = Some k
    ∧ scan_square s before r c p = Some after ∧ after ⊆ moves.
Proof.
  intros H (Hr & Hc & p & Hp & Hst & Hk).
  apply board_get_nonneg in Hp as (row & Hrow & Hcell); [|done|done].
  destruct (scan_rows_at _ _ _ _ _ _ H Hrow) as (b1 & a1 & E1 & Hsub1).
  destruct (scan_row_at _ _ _ _ _ _ _ E1 Hcell) as (b2 & a2 & E2 & Hsub2).
  rewrite !Z.add_0_l, !Z2Nat.id in E2 by done.
  exists b2, a2, p. split; [done|]. split; [done|]. split; [done|]. set_solver.
Qed.

(** Every move the rules give is in the list [get_possible_moves]
    returns. *)
Lemma get_possible_moves_complete moves m :
  get_possible_moves s = Some moves → generated s m → m ∈ moves.
Proof.
  intros Hposs Hgen.
  generated_cases Hgen;
    destruct (scanned _ _ _ _ Hposs Hown) as (before & after & p & Hp & Hk & E & Hsub);
    apply Hsub; unfold scan_square in E; rewrite Hp, Hk in E;
    cbn [mbind option_bind] in E.
  - change (String.eqb "P" "P") with true in E. cbv iota in E.
    apply bind_Some in E as (m1 & E1 & E%get_en_passant_grows). apply E.
    eapply get_pawn_moves_complete; [done|]. left. done.
  - change (String.eqb "P" "P") with true in E. cbv iota in E.
    apply bind_Some in E as (m1 & E1 & E%get_en_passant_grows). apply E.
    eapply get_pawn_moves_complete; [done|]. right. left. done.
  - change (String.eqb "P" "P") with true in E. cbv iota in E.
    apply bind_Some in E as (m1 & E1 & E%get_en_passant_grows). apply E.
    eapply get_pawn_moves_complete; [done|]. right. right. by exists dc, t.
  - change (String.eqb "P" "P") with true in E. cbv iota in E.
    apply bind_Some in E as (m1 & E1 & E).
    exact (get_en_passant_complete m1 _ c lm m after Hlast Hlk eq_refl Hsr Her Hec
             Hm E).
  - destruct Hoff as [[-> ->]|[-> ->]].
    + change (String.eqb "K" "P") with false in E.
      change (String.eqb "K" "K") with true in E. cbv iota in E.
      apply bind_Some in E as (m1 & E1 & E%get_castles_grows). apply E.
      exact (step_all_complete _ _ _ _ i j t m _ Hij Hb Hst Hm E1).
    + change (String.eqb "N" "P") with false in E.
      change (String.eqb "N" "K") with false in E.
      change (String.eqb "N" "Q") with false in E.
      change (String.eqb "N" "R") with false in E.
      change (String.eqb "N" "N") with true in E. cbv iota in E.
      exact (step_all_complete _ _ _ _ i j t m _ Hij Hb Hst Hm E).
  - destruct Hd as [[[-> | ->] Hd]|[[-> | ->] Hd]].
    + change (String.eqb "R" "P") with false in E.
      change (String.eqb "R" "K") with false in E.
      change (String.eqb "R" "Q") with false in E.
      change (String.eqb "R" "R") with true in E. cbv iota in E.
      exact (rays_complete _ _ _ _ d pre i post t m _ Hd Hsplit Hpre Hb Hst Hm E).
    + change (String.eqb "Q" "P") with false in E.
      change (String.eqb "Q" "K") with false in E.
      change (String.eqb "Q" "Q") with true in E. cbv iota in E.
      apply get_queen_moves_parts in E as (l1 & l2 & E1 & E2 & Hl1 & Hl2).
      apply Hl1.
      exact (rays_complete _ _ _ _ d pre i post t m _ Hd Hsplit Hpre Hb Hst Hm E1).
    + change (String.eqb "B" "P") with false in E.
      change (String.eqb "B" "K") with false in E.
      change (String.eqb "B" "Q") with false in E.
      change (String.eqb "B" "R") with false in E.
      change (String.eqb "B" "N") with false in E.
      change (String.eqb "B" "B") with true in E. cbv iota in E.
      exact (rays_complete _ _ _ _ d pre i post t m _ Hd Hsplit Hpre Hb Hst Hm E).
    + change (String.eqb "Q" "P") with false in E.
      change (String.eqb "Q" "K") with false in E.
      change (String.eqb "Q" "Q") with true in E. cbv iota in E.
      apply get_queen_moves_parts in E as (l1 & l2 & E1 & E2 & Hl1 & Hl2).
      apply Hl2.
      exact (rays_complete _ _ _ _ d pre i post t m _ Hd Hsplit Hpre Hb Hst Hm E2).
  - change (String.eqb "K" "P") with false in E.
    change (String.eqb "K" "K") with true in E. cbv iota in E.
    apply bind_Some in E as (m1 & E1 & E).
    by eapply get_castles_complete.
Qed.

End Completeness.

(** In a game played from the initial position [get_possible_moves]
    returns, and the moves in its list are exactly the moves given by the
    rules of [generated]. *)
Theorem possible_moves_are_the_generated_moves s :
  reachable s →
  ∃ moves, get_possible_moves s = Some moves
    ∧ ∀ m, m ∈ moves ↔ generated s m.
Proof.
  intros Hr.
  destruct (get_possible_moves_total s (reachable_inv s Hr)) as [moves H].
  exists moves. split; [done|]. intros m. split.
  - by apply generated_elem.
  - by apply get_possible_moves_complete.
Qed.

(** ** Attacked squares *)

Lemma inv_toggle s : inv s → inv (toggle_turn s).
Proof. intros [H1 H2 H3 H4]. by split. Qed.

Lemma existsb_elem {A} (f : A → bool) (l : list A) :
  existsb f l = true ↔ ∃ x, x ∈ l ∧ f x = true.
Proof.
  rewrite existsb_exists. split; intros (x & Hx & Hf); exists x;
    (split; [by apply list_elem_of_In|done]).
Qed.

(** In a game played from the initial position [square_attacked] never
    raises, leaves the state as it was, and answers that the square is
    attacked exactly when some move the rules give the other side ends on
    it. *)
Theorem square_attacked_answers s row col :
  reachable s →
  ∃ attacked, square_attacked s row col = Some (s, attacked)
    ∧ (attacked = true ↔
       ∃ m, generated (toggle_turn s) m ∧ endRow m = row ∧ endCol m = col).
Proof.
  intros Hr. pose proof (inv_toggle s (reachable_inv s Hr)) as Hinv.
  destruct (get_possible_moves_total _ Hinv) as [moves Hm].
  unfold square_attacked. rewrite Hm. cbn [mbind option_bind].
  rewrite toggle_toggle. eexists. split; [done|].
  rewrite existsb_elem. split.
  - intros (m & Hin & Hsq). exists m.
    apply andb_true_iff in Hsq as [?%Z.eqb_eq ?%Z.eqb_eq].
    split; [by eapply generated_elem|done].
  - intros (m & Hgen & <- & <-). exists m.
    split; [exact (get_possible_moves_complete _ moves m Hm Hgen)|].
    by rewrite !Z.eqb_refl.
Qed.

(** ** A pair of clicks and the move it makes *)

Lemma generated_squares s m :
  wf_board (board s) → generated s m →
  sq_ok (startRow m) (startCol m) ∧ sq_ok (endRow m) (endCol m)
  ∧ MoveM.make_id (startRow m) (startCol m) (endRow m) (endCol m)
    = Some (move_id m).
Proof.
  intros Hwf Hgen.
  assert (∀ r c k er ec cro cco sec m0,
    own s r c k →
    MoveM.init (board s) (r, c) (er, ec) cro cco None sec = Some m0 →
    sq_ok (startRow m0) (startCol m0) ∧ sq_ok (endRow m0) (endCol m0)
    ∧ MoveM.make_id (startRow m0) (startCol m0) (endRow m0) (endCol m0)
      = Some (move_id m0)) as Hinit.
  { intros r c k er ec cro cco sec m0 (Hr & Hc & p & Hp & _) Hm0.
    pose proof (init_move_id _ _ _ _ _ _ _ _ _ _ Hm0) as Hid.
    apply init_fields in Hm0 as (-> & -> & -> & -> & _ & _ & _ & _ & _ & _ & ? & ?).
    split; [by eapply board_get_sq_ok|]. done. }
  generated_cases Hgen; try by eapply Hinit.
  pose proof (init_move_id _ _ _ _ _ _ _ _ _ _ Hking) as Hid.
  apply init_fields in Hking
    as (Hsr & Hsc & Her & Hec & _ & _ & _ & _ & _ & _ & ? & ?).
  cbn [MoveM.set_PGN startRow startCol endRow endCol move_id].
  rewrite Hsr, Hsc, Her, Hec. split; [|done].
  split; [|lia]. unfold back_row. destruct (white_move s); lia.
Qed.

Lemma valid_moves_generated s0 s moves m :
  get_valid_moves s0 = Some (s, moves) → m ∈ moves → generated s0 m.
Proof.
  intros H Hin. unfold get_valid_moves, remove_selfchecks in H.
  apply bind_Some in H as (possible & Hp & H).
  apply bind_Some in H as ([s1 moves1] & Hloop & H). injection H as _ <-.
  apply remove_selfchecks_loop_sublist in Hloop.
  eapply generated_elem; [done|]. by apply (sublist_subseteq _ _ Hloop).
Qed.

Lemma eqb_squares sr sc er ec m m' :
  sq_ok sr sc → sq_ok er ec →
  sq_ok (startRow m') (startCol m') → sq_ok (endRow m') (endCol m') →
  MoveM.make_id sr sc er ec = Some (move_id m) →
  MoveM.make_id (startRow m') (startCol m') (endRow m') (endCol m')
    = Some (move_id m') →
  MoveM.eqb m m' = true
  ↔ (startRow m', startCol m') = (sr, sc) ∧ (endRow m', endCol m') = (er, ec).
Proof.
  intros [? ?] [? ?] [? ?] [? ?] Hm Hm'.
  rewrite make_id_on_board in Hm, Hm' by done.
  injection Hm as Hm. injection Hm' as Hm'.
  unfold MoveM.eqb. rewrite Z.eqb_eq, <-Hm, <-Hm'. split.
  - intros Heq.
    assert (sr = startRow m' ∧ sc = startCol m' ∧ er = endRow m' ∧ ec = endCol m')
      as (-> & -> & -> & ->) by lia.
    done.
  - intros [[= -> ->] [= -> ->]]. done.
Qed.

(** A click inside the window, when the list of valid moves is the one of
    the state: on the selected square it clears the selection; with no
    square selected it selects the clicked square; with another square
    selected it makes the valid move from the selected square to the
    clicked one and clears the selection, or, when no valid move joins the
    two squares, selects the clicked square and leaves the game as it
    was. *)
Theorem click_pair_makes_clicked_move st pos :
  settled st → chessMain.move_made st = false →
  0 ≤ pos.1 < chessMain.WIDTH ∧ 0 ≤ pos.2 < chessMain.HEIGHT →
  let clicked :=
    (pos.2 `div` chessMain.SQUARE_SIZE, pos.1 `div` chessMain.SQUARE_SIZE) in
  let joins start m :=
    (startRow m, startCol m) = start ∧ (endRow m, endCol m) = clicked in
  ∃ st', chessMain.mouse_button_down st pos = Some st'
    ∧ chessMain.valid_moves st' = chessMain.valid_moves st
    ∧ match chessMain.selected_square st with
      | None =>
          chessMain.gs st' = chessMain.gs st
          ∧ chessMain.selected_square st' = Some clicked
          ∧ chessMain.player_clicks st' = [clicked]
      | Some start =>
          if decide (start = clicked) then
            chessMain.gs st' = chessMain.gs st
            ∧ chessMain.selected_square st' = None
            ∧ chessMain.player_clicks st' = []
          else
            (∃ m, m ∈ chessMain.valid_moves st ∧ joins start m
               ∧ make_move (chessMain.gs st) m true = Some (chessMain.gs st')
               ∧ chessMain.move_made st' = true
               ∧ chessMain.selected_square st' = None
               ∧ chessMain.player_clicks st' = [])
            ∨ ((∀ m, m ∈ chessMain.valid_moves st → ¬ joins start m)
               ∧ chessMain.gs st' = chessMain.gs st
               ∧ chessMain.selected_square st' = Some clicked
               ∧ chessMain.player_clicks st' = [clicked])
      end.
Proof.
  intros (Hr & [Hclicks Hsel] & Hstep) Hmade Hpos clicked joins.
  subst clicked joins. cbv beta.
  destruct (Hstep Hmade) as (s0 & Hr0 & Hq).
  pose proof (clicked_on_board pos Hpos) as Hsq.
  unfold chessMain.mouse_button_down. cbv zeta.
  set (row := pos.2 `div` chessMain.SQUARE_SIZE) in *.
  set (col := pos.1 `div` chessMain.SQUARE_SIZE) in *.
  rewrite Hclicks.
  destruct (chessMain.selected_square st) as [start|] eqn:Esel.
  - pose proof (Hsel start eq_refl) as Hsq0.
    destruct (decide (start = (row, col))) as [->|Hne].
    + rewrite decide_True by done. simpl. eexists. done.
    + rewrite decide_False by congruence. simpl.
      destruct start as [r0 c0].
      pose proof (reachable_inv _ Hr) as Hinv.
      pose proof (reachable_inv _ Hr0) as Hinv0.
      destruct (init_Some (board (chessMain.gs st)) r0 c0 row col
                  None None None None) as [move Hmove];
        [by apply inv_wf|done|done|done| |].
      { apply cells_ok_cell; [by apply inv_wf|by apply inv_cells|done]. }
      rewrite Hmove. simpl.
      pose proof (init_move_id _ _ _ _ _ _ _ _ _ _ Hmove) as Hid.
      assert (∀ m, m ∈ chessMain.valid_moves st →
                MoveM.eqb move m = true
                ↔ (startRow m, startCol m) = (r0, c0)
                  ∧ (endRow m, endCol m) = (row, col)) as Heqb.
      { intros m Hm.
        destruct (generated_squares s0 m (inv_wf _ Hinv0)
                    (valid_moves_generated _ _ _ _ Hq Hm)) as (? & ? & ?).
        by apply eqb_squares. }
      destruct (find (MoveM.eqb move) (chessMain.valid_moves st)) as [stored|] eqn:Ef.
      * pose proof (find_elem_of _ _ _ Ef) as Hin.
        apply find_some in Ef as [_ Heq]. apply Heqb in Heq; [|done].
        destruct (reachable_make s0 _ _ stored Hr0 Hq Hin) as (s1 & E1 & Hr1).
        rewrite E1. simpl. eexists. split; [done|]. split; [done|].
        left. exists stored. done.
      * rewrite (init_notation _ _ _ _ _ _ _ _ Hmove). simpl.
        eexists. split; [done|]. split; [done|]. right.
        split; [|done]. intros m Hm Hj. apply Heqb in Hj; [|done].
        apply list_elem_of_In in Hm.
        by rewrite (find_none _ _ Ef m Hm) in Hj.
  - simpl. eexists. done.
Qed.

(** ** The properties at concrete inputs *)

Lemma make_move_bookkeeping_witness :
  make_move GameState_init move_OO true
  = Some (default GameState_init (make_move GameState_init move_OO true))
  ∧ white_move (default GameState_init (make_move GameState_init move_OO true))
    = negb (white_move GameState_init)
  ∧ movelog (default GameState_init (make_move GameState_init move_OO true))
    = movelog GameState_init ++ [move_OO].
Proof.
  assert (make_move GameState_init move_OO true
          = Some (default GameState_init (make_move GameState_init move_OO true)))
    as H by (vm_compute; reflexivity).
  split; [exact H|].
  destruct (make_move_bookkeeping move_OO GameState_init _ H) as (H1 & H2 & _).
  exact (conj H1 H2).
Defined.

Lemma make_undo_restores_position_witness :
  reachable (after open_game)
  ∧ get_valid_moves (after open_game)
    = Some (queried_after open_game, valid_after open_game)
  ∧ move_Ke2 ∈ valid_after open_game
  ∧ ∃ s1 s2, make_move (queried_after open_game) move_Ke2 true = Some s1
      ∧ undo_move s1 = Some s2
      ∧ board s2 = board (queried_after open_game)
      ∧ white_move s2 = white_move (queried_after open_game)
      ∧ movelog s2 = movelog (queried_after open_game).
Proof.
  assert (reachable (after open_game)) as H
    by (apply after_reachable; vm_compute; by eexists).
  assert (get_valid_moves (after open_game)
          = Some (queried_after open_game, valid_after open_game)) as H1
    by (vm_compute; reflexivity).
  assert (move_Ke2 ∈ valid_after open_game) as H2 by solve_elem.
  split; [exact H|]. split; [exact H1|]. split; [exact H2|].
  exact (make_undo_restores_position _ _ _ _ H H1 H2).
Defined.

Lemma undo_all_returns_to_start_witness :
  reachable (after centre_game)
  ∧ ∃ s0, undo_moves (length (movelog (after centre_game))) (after centre_game)
          = Some s0
      ∧ board s0 = initial_board ∧ white_move s0 = true ∧ movelog s0 = [].
Proof.
  assert (reachable (after centre_game)) as H
    by (apply after_reachable; vm_compute; by eexists).
  split; [exact H|]. exact (undo_all_returns_to_start _ H).
Defined.

Lemma turn_follows_log_parity_witness :
  reachable (after queen_sortie)
  ∧ white_move (after queen_sortie)
    = Nat.even (length (movelog (after queen_sortie))).
Proof.
  assert (reachable (after queen_sortie)) as H
    by (apply after_reachable; vm_compute; by eexists).
  split; [exact H|]. exact (turn_follows_log_parity _ H).
Defined.

Lemma possible_moves_are_the_generated_moves_witness :
  reachable (after open_game)
  ∧ ∃ moves, get_possible_moves (after open_game) = Some moves
      ∧ ∀ m, m ∈ moves ↔ generated (after open_game) m.
Proof.
  assert (reachable (after open_game)) as H
    by (apply after_reachable; vm_compute; by eexists).
  split; [exact H|]. exact (possible_moves_are_the_generated_moves _ H).
Defined.

Lemma sliding_moves_never_jump_witness :
  wf_board (board (after open_game))
  ∧ get_possible_moves (after open_game) = Some (possible_after open_game)
  ∧ move_Bc4 ∈ possible_after open_game
  ∧ ∃ d i,
      1 ≤ i ≤ 7
      ∧ ((("B" = "R" ∨ "B" = "Q")%string ∧ d ∈ rook_directs)
         ∨ (("B" = "B" ∨ "B" = "Q")%string ∧ d ∈ bishop_directs))
      ∧ (endRow move_Bc4, endCol move_Bc4)
        = (startRow move_Bc4 + d.1 * i, startCol move_Bc4 + d.2 * i)
      ∧ (∀ j, 1 ≤ j < i →
           board_get (board (after open_game))
             (startRow move_Bc4 + d.1 * j) (startCol move_Bc4 + d.2 * j)
           = Some ""%string)
      ∧ ∃ t, board_get (board (after open_game)) (endRow move_Bc4) (endCol move_Bc4)
             = Some t
             ∧ Py.startswith t (turn_colour (after open_game)) = false.
Proof.
  assert (wf_board (board (after open_game))) as H0
    by (vm_compute; split; [reflexivity|repeat constructor]).
  assert (get_possible_moves (after open_game) = Some (possible_after open_game))
    as H1 by (vm_compute; reflexivity).
  assert (move_Bc4 ∈ possible_after open_game) as H2 by solve_elem.
  split; [exact H0|]. split; [exact H1|]. split; [exact H2|].
  apply (sliding_moves_never_jump _ _ move_Bc4 "B" H0 H1 H2);
    [reflexivity|reflexivity|right; left; reflexivity].
Defined.

Lemma king_and_knight_steps_witness :
  get_possible_moves (after open_game) = Some (possible_after open_game)
  ∧ move_Ke2 ∈ possible_after open_game
  ∧ Z.max (Z.abs (endRow move_Ke2 - startRow move_Ke2))
      (Z.abs (endCol move_Ke2 - startCol move_Ke2)) = 1
  ∧ ∃ t, board_get (board (after open_game)) (endRow move_Ke2) (endCol move_Ke2)
         = Some t
         ∧ Py.startswith t (turn_colour (after open_game)) = false.
Proof.
  assert (get_possible_moves (after open_game) = Some (possible_after open_game))
    as H1 by (vm_compute; reflexivity).
  assert (move_Ke2 ∈ possible_after open_game) as H2 by solve_elem.
  split; [exact H1|]. split; [exact H2|].
  apply (king_and_knight_steps _ _ move_Ke2 "K" H1 H2);
    [reflexivity|reflexivity|left; reflexivity].
Defined.

Lemma pawn_moves_go_forward_witness :
  get_possible_moves (after []) = Some (possible_after [])
  ∧ move_e4 ∈ possible_after []
  ∧ ((endCol move_e4 = startCol move_e4
      ∧ board_get (board (after [])) (endRow move_e4) (endCol move_e4)
        = Some ""%string
      ∧ (endRow move_e4 = startRow move_e4 + forward (after [])
         ∨ (startRow move_e4 = home_row (after [])
            ∧ endRow move_e4 = startRow move_e4 + 2 * forward (after [])
            ∧ board_get (board (after [])) (startRow move_e4 + forward (after []))
                (startCol move_e4) = Some ""%string)))
     ∨ (endRow move_e4 = startRow move_e4 + forward (after [])
        ∧ (endCol move_e4 = startCol move_e4 + 1
           ∨ endCol move_e4 = startCol move_e4 - 1)
        ∧ ((∃ t, board_get (board (after [])) (endRow move_e4) (endCol move_e4)
                 = Some t ∧ t ≠ ""%string)
           ∨ (∃ lm, last (movelog (after [])) = Some lm
                    ∧ endCol lm = endCol move_e4
                    ∧ endRow lm = startRow move_e4
                    ∧ Py.index1 (piece_moved lm) = Some "P"%string)))).
Proof.
  assert (get_possible_moves (after []) = Some (possible_after []))
    as H1 by (vm_compute; reflexivity).
  assert (move_e4 ∈ possible_after []) as H2 by solve_elem.
  split; [exact H1|]. split; [exact H2|].
  apply (pawn_moves_go_forward _ _ move_e4 H1 H2); reflexivity.
Defined.

Lemma off_square_capture_is_en_passant_witness :
  get_possible_moves (after white_passing_game)
  = Some (possible_after white_passing_game)
  ∧ move_exd6 ∈ possible_after white_passing_game
  ∧ (piece_captured_row move_exd6, piece_captured_col move_exd6)
    ≠ (endRow move_exd6, endCol move_exd6)
  ∧ ∃ lm, last (movelog (after white_passing_game)) = Some lm
      ∧ Py.index1 (piece_moved lm) = Some "P"%string
      ∧ Py.index1 (piece_moved move_exd6) = Some "P"%string
      ∧ (piece_captured_row move_exd6, piece_captured_col move_exd6)
        = (endRow lm, endCol lm)
      ∧ startRow lm = 1
      ∧ endRow lm = startRow move_exd6
      ∧ startRow move_exd6 = passing_row (after white_passing_game)
      ∧ (endCol lm = startCol move_exd6 + 1 ∨ endCol lm = startCol move_exd6 - 1)
      ∧ (endRow move_exd6, endCol move_exd6)
        = (startRow move_exd6 + forward (after white_passing_game), endCol lm).
Proof.
  assert (get_possible_moves (after white_passing_game)
          = Some (possible_after white_passing_game))
    as H1 by (vm_compute; reflexivity).
  assert (move_exd6 ∈ possible_after white_passing_game) as H2 by solve_elem.
  assert ((piece_captured_row move_exd6, piece_captured_col move_exd6)
          ≠ (endRow move_exd6, endCol move_exd6)) as H3 by (simpl; congruence).
  split; [exact H1|]. split; [exact H2|]. split; [exact H3|].
  exact (off_square_capture_is_en_passant _ _ move_exd6 H1 H2 H3).
Defined.

Lemma black_captures_on_end_square_witness :
  reachable (after black_passing_game)
  ∧ white_move (after black_passing_game) = false
  ∧ get_possible_moves (after black_passing_game)
    = Some (possible_after black_passing_game)
  ∧ move_d3 ∈ possible_after black_passing_game
  ∧ (piece_captured_row move_d3, piece_captured_col move_d3)
    = (endRow move_d3, endCol move_d3).
Proof.
  assert (reachable (after black_passing_game)) as H
    by (apply after_reachable; vm_compute; by eexists).
  assert (white_move (after black_passing_game) = false) as H0
    by (vm_compute; reflexivity).
  assert (get_possible_moves (after black_passing_game)
          = Some (possible_after black_passing_game))
    as H1 by (vm_compute; reflexivity).
  assert (move_d3 ∈ possible_after black_passing_game) as H2 by solve_elem.
  split; [exact H|]. split; [exact H0|]. split; [exact H1|]. split; [exact H2|].
  exact (black_captures_on_end_square _ _ move_d3 H H0 H1 H2).
Defined.

Lemma valid_moves_sublist_of_possible_witness :
  get_valid_moves (after open_game)
  = Some (queried_after open_game, valid_after open_game)
  ∧ ∃ possible, get_possible_moves (after open_game) = Some possible
      ∧ valid_after open_game `sublist_of` possible.
Proof.
  assert (get_valid_moves (after open_game)
          = Some (queried_after open_game, valid_after open_game)) as H1
    by (vm_compute; reflexivity).
  split; [exact H1|]. exact (valid_moves_sublist_of_possible _ _ _ H1).
Defined.

Lemma get_valid_moves_checkmate_flag_witness :
  get_valid_moves stalemate_position
  = Some (default stalemate_position (fst <$> get_valid_moves stalemate_position), [])
  ∧ checkmate (default stalemate_position (fst <$> get_valid_moves stalemate_position))
    = true
  ∧ stalemate (default stalemate_position (fst <$> get_valid_moves stalemate_position))
    = stalemate stalemate_position.
Proof.
  assert (get_valid_moves stalemate_position
          = Some (default stalemate_position
                    (fst <$> get_valid_moves stalemate_position), [])) as H1
    by (vm_compute; reflexivity).
  split; [exact H1|]. exact (get_valid_moves_checkmate_flag _ _ _ H1).
Defined.

Lemma stalemate_never_set_witness :
  reachable (after queen_sortie) ∧ stalemate (after queen_sortie) = false.
Proof.
  assert (reachable (after queen_sortie)) as H
    by (apply after_reachable; vm_compute; by eexists).
  split; [exact H|]. exact (stalemate_never_set _ H).
Defined.

Lemma square_attacked_answers_witness :
  reachable (after queen_sortie)
  ∧ ∃ attacked,
      square_attacked (after queen_sortie) 1 5 = Some (after queen_sortie, attacked)
      ∧ (attacked = true ↔
         ∃ m, generated (toggle_turn (after queen_sortie)) m
              ∧ endRow m = 1 ∧ endCol m = 5).
Proof.
  assert (reachable (after queen_sortie)) as H
    by (apply after_reachable; vm_compute; by eexists).
  split; [exact H|]. exact (square_attacked_answers _ 1 5 H).
Defined.

Lemma get_rank_file_decodes_witness :
  sq_ok 4 4
  ∧ ∃ name, MoveM.get_rank_file 4 4 = Some name
      ∧ String.length name = 2%nat
      ∧ MoveM.files_to_cols (char_at name 0) = Some 4
      ∧ MoveM.ranks_to_rows (char_at name 1) = Some 4.
Proof.
  assert (sq_ok 4 4) as H by (split; lia).
  split; [exact H|]. exact (proj1 (get_rank_file_decodes 4 4) H).
Defined.

Lemma move_built_iff_end_on_board_witness :
  wf_board initial_board ∧ cells_ok initial_board ∧ sq_ok 6 4
  ∧ (is_Some (MoveM.init initial_board (6, 4) (-1, 4) None None None None)
     ↔ sq_ok (-1) 4).
Proof.
  assert (wf_board initial_board) as H0
    by (split; [reflexivity|repeat constructor]).
  assert (cells_ok initial_board) as H1
    by (repeat constructor; simpl; lia).
  assert (sq_ok 6 4) as H2 by (split; lia).
  split; [exact H0|]. split; [exact H1|]. split; [exact H2|].
  exact (move_built_iff_end_on_board _ 6 4 (-1) 4 None None H0 H1 H2).
Defined.

Lemma notation_ends_with_end_square_witness :
  MoveM.init initial_board (6, 4) (4, 4) None None None None = Some move_e4
  ∧ (2 ≤ String.length (MoveM.str move_e4) ≤ 3)%nat
  ∧ MoveM.files_to_cols
      (char_at (MoveM.str move_e4) (String.length (MoveM.str move_e4) - 2))
    = Some (endCol move_e4)
  ∧ MoveM.ranks_to_rows
      (char_at (MoveM.str move_e4) (String.length (MoveM.str move_e4) - 1))
    = Some (endRow move_e4)
  ∧ String.substring 0 (String.length (MoveM.str move_e4) - 2)
      (MoveM.str move_e4)
    = (if Py.truthy (piece_moved move_e4)
       then default ""%string (Py.index1 (piece_moved move_e4)) else ""%string).
Proof.
  assert (MoveM.init initial_board (6, 4) (4, 4) None None None None
          = Some move_e4) as H1 by (vm_compute; reflexivity).
  split; [exact H1|].
  exact (notation_ends_with_end_square _ _ _ _ _ _ _ _ H1).
Defined.

Lemma board_holds_pieces_with_images_witness :
  reachable (after white_passing_game)
  ∧ wf_board (board (after white_passing_game))
  ∧ ∀ row col, sq_ok row col →
      ∃ x, board_get (board (after white_passing_game)) row col = Some x
        ∧ (x = ""%string ∨ chessMain.load_images ∅ !! x = Some (piece_image x)).
Proof.
  assert (reachable (after white_passing_game)) as H
    by (apply after_reachable; vm_compute; by eexists).
  split; [exact H|]. exact (board_holds_pieces_with_images _ H).
Defined.

Lemma draw_pieces_draws_every_piece_witness :
  reachable (after open_game)
  ∧ ∃ drawn,
      chessMain.draw_pieces (chessMain.load_images ∅) [] (board (after open_game))
      = Some ([] ++ drawn)
      ∧ NoDup drawn
      ∧ ∀ d, d ∈ drawn ↔
          ∃ row col x, sq_ok row col
            ∧ board_get (board (after open_game)) row col = Some x ∧ x ≠ ""%string
            ∧ d = chessMain.Blitted (piece_image x) (square_rect row col).
Proof.
  assert (reachable (after open_game)) as H
    by (apply after_reachable; vm_compute; by eexists).
  split; [exact H|]. exact (draw_pieces_draws_every_piece _ [] H).
Defined.

Lemma draw_board_tiles_window_witness :
  0 ≤ 300 < chessMain.WIDTH ∧ 0 ≤ 400 < chessMain.HEIGHT
  ∧ ∃ drawn,
      chessMain.draw_board [] = [] ++ drawn
      ∧ length drawn = 64%nat
      ∧ chessMain.Filled
          (square_colour (400 `div` chessMain.SQUARE_SIZE)
             (300 `div` chessMain.SQUARE_SIZE))
          (square_rect (400 `div` chessMain.SQUARE_SIZE)
             (300 `div` chessMain.SQUARE_SIZE)) ∈ drawn
      ∧ inside (square_rect (400 `div` chessMain.SQUARE_SIZE)
                  (300 `div` chessMain.SQUARE_SIZE)) 300 400
      ∧ ∀ d, d ∈ drawn →
          ∃ colour rect, d = chessMain.Filled colour rect
            ∧ (inside rect 300 400 →
               d = chessMain.Filled
                     (square_colour (400 `div` chessMain.SQUARE_SIZE)
                        (300 `div` chessMain.SQUARE_SIZE))
                     (square_rect (400 `div` chessMain.SQUARE_SIZE)
                        (300 `div` chessMain.SQUARE_SIZE))).
Proof.
  assert (0 ≤ 300 < chessMain.WIDTH) as H1 by (unfold chessMain.WIDTH; lia).
  assert (0 ≤ 400 < chessMain.HEIGHT) as H2 by (unfold chessMain.HEIGHT; lia).
  split; [exact H1|]. split; [exact H2|].
  exact (draw_board_tiles_window [] 300 400 H1 H2).
Defined.

Lemma main_never_raises_witness :
  Forall calm three_passes
  ∧ ∃ st, chessMain.main three_passes = Some st
      ∧ reachable (chessMain.gs st)
      ∧ in_step st
      ∧ clicks_ok st.
Proof.
  assert (Forall calm three_passes) as H
    by (repeat constructor; vm_compute; intros; try discriminate).
  split; [exact H|]. exact (main_never_raises _ H).
Defined.

Lemma loop_after_settled events :
  Forall calm events →
  settled (loop_after events) ∧ chessMain.move_made (loop_after events) = false.
Proof.
  intros H. destruct (main_settled events H) as (st & E & Hst & Hmade).
  unfold loop_after. rewrite E. exact (conj Hst Hmade).
Qed.

Lemma click_pair_makes_clicked_move_witness :
  settled (loop_after one_click)
  ∧ chessMain.move_made (loop_after one_click) = false
  ∧ (0 ≤ (300, 300).1 < chessMain.WIDTH ∧ 0 ≤ (300, 300).2 < chessMain.HEIGHT)
  ∧ ∃ st', chessMain.mouse_button_down (loop_after one_click) (300, 300) = Some st'
      ∧ chessMain.valid_moves st' = chessMain.valid_moves (loop_after one_click)
      ∧ match chessMain.selected_square (loop_after one_click) with
        | None =>
            chessMain.gs st' = chessMain.gs (loop_after one_click)
            ∧ chessMain.selected_square st'
              = Some ((300, 300).2 `div` chessMain.SQUARE_SIZE,
                      (300, 300).1 `div` chessMain.SQUARE_SIZE)
            ∧ chessMain.player_clicks st'
              = [((300, 300).2 `div` chessMain.SQUARE_SIZE,
                  (300, 300).1 `div` chessMain.SQUARE_SIZE)]
        | Some start =>
            if decide (start = ((300, 300).2 `div` chessMain.SQUARE_SIZE,
                                (300, 300).1 `div` chessMain.SQUARE_SIZE)) then
              chessMain.gs st' = chessMain.gs (loop_after one_click)
              ∧ chessMain.selected_square st' = None
              ∧ chessMain.player_clicks st' = []
            else
              (∃ m, m ∈ chessMain.valid_moves (loop_after one_click)
                 ∧ ((startRow m, startCol m) = start
                    ∧ (endRow m, endCol m)
                      = ((300, 300).2 `div` chessMain.SQUARE_SIZE,
                         (300, 300).1 `div` chessMain.SQUARE_SIZE))
                 ∧ make_move (chessMain.gs (loop_after one_click)) m true
                   = Some (chessMain.gs st')
                 ∧ chessMain.move_made st' = true
                 ∧ chessMain.selected_square st' = None
                 ∧ chessMain.player_clicks st' = [])
              ∨ ((∀ m, m ∈ chessMain.valid_moves (loop_after one_click) →
                    ¬ ((startRow m, startCol m) = start
                       ∧ (endRow m, endCol m)
                         = ((300, 300).2 `div` chessMain.SQUARE_SIZE,
                            (300, 300).1 `div` chessMain.SQUARE_SIZE)))
                 ∧ chessMain.gs st' = chessMain.gs (loop_after one_click)
                 ∧ chessMain.selected_square st'
                   = Some ((300, 300).2 `div` chessMain.SQUARE_SIZE,
                           (300, 300).1 `div` chessMain.SQUARE_SIZE)
                 ∧ chessMain.player_clicks st'
                   = [((300, 300).2 `div` chessMain.SQUARE_SIZE,
                       (300, 300).1 `div` chessMain.SQUARE_SIZE)])
        end.
Proof.
  assert (Forall calm one_click) as H
    by (repeat constructor; vm_compute; intros; try discriminate).
  destruct (loop_after_settled one_click H) as [H1 H2].
  assert (0 ≤ (300, 300).1 < chessMain.WIDTH ∧ 0 ≤ (300, 300).2 < chessMain.HEIGHT)
    as H3 by (unfold chessMain.WIDTH, chessMain.HEIGHT; simpl; lia).
  split; [exact H1|]. split; [exact H2|]. split; [exact H3|].
  exact (click_pair_makes_clicked_move _ (300, 300) H1 H2 H3).
Defined.

(** ** Castling on the board *)

(** Making a castling move of the list of [get_possible_moves], in a game
    played from the initial position: what stood on the king's original
    square stands on the king's castling square, what stood in the corner
    stands beside it, both original squares are empty and no other square
    changes. *)
Theorem castling_moves_king_and_rook s moves m rook :
  reachable s → get_possible_moves s = Some moves → m ∈ moves →
  secondary_move m = Some rook →
  ∃ s1 rook_col rook_to king_to between label,
    castle_side rook_col rook_to king_to between label
    ∧ make_move s m true = Some s1
    ∧ ∀ r c, sq_ok r c →
        cell (board s1) r c
        = if decide ((r, c) = (back_row s, king_to))
          then cell (board s) (back_row s) 4
          else if decide ((r, c) = (back_row s, rook_to))
          then cell (board s) (back_row s) rook_col
          else if decide ((r, c) = (back_row s, 4) ∨ (r, c) = (back_row s, rook_col))
          then ""%string
          else cell (board s) r c.
Proof.
  intros Hr Hposs Hin Hsec.
  pose proof (reachable_inv s Hr) as Hinv.
  assert (pseudo s m) as Hps.
  { apply get_possible_moves_sound in Hposs. rewrite Forall_forall in Hposs.
    by apply Hposs. }
  destruct (pseudo_castle s m rook Hps Hsec)
    as (rook_col & rook_to & king_to & between & label & Hside & _ & _ & _
        & Hstart & Hend & Hrstart & Hrend & Hrsec & _).
  pose proof (pseudo_move_ok s m Hinv Hps) as Hok.
  destruct (make_move_spec s m (inv_wf s Hinv) Hok) as (s1 & E & _ & Hcells & _).
  exists s1, rook_col, rook_to, king_to, between, label.
  split; [done|]. split; [done|].
  destruct (pseudo_shape s m Hinv Hps) as (_ & Hpm & _ & _ & Hshape).
  destruct Hshape as [_ Hnone _|_ Hnone _ _ _ _
    |second Hcap Hsec' _ _ Hbuilt _ Hcap2 _ _]; try congruence.
  assert (second = rook) as -> by congruence.
  destruct Hbuilt as (Hrpm & _).
  injection Hstart as Hsr Hsc. injection Hend as Her Hec.
  injection Hrstart as Hrsr Hrsc. injection Hrend as Hrer Hrec.
  injection Hcap as Hcr Hcc. injection Hcap2 as Hrcr Hrcc.
  intros r c Hsq. rewrite Hcells by done.
  unfold written. rewrite Hsec. unfold written1, upd.
  rewrite Hcr, Hcc, Hrcr, Hrcc, Her, Hec, Hrer, Hrec, Hsr, Hsc, Hrsr, Hrsc.
  rewrite <-Hrpm, Hpm, Hrsr, Hrsc, Hsr, Hsc.
  assert (back_row s = 7 ∨ back_row s = 0) as Hrow
    by (unfold back_row; destruct (white_move s); auto).
  destruct Hside; repeat case_decide; simplify_eq; try done;
    destruct Hrow; intuition (simplify_eq; lia).
Qed.

(** ** The main loop plays the clicks *)

Lemma get_valid_moves_flags_any s s' moves :
  get_valid_moves s = Some (s', moves) →
  checkmate s' = (if moves is [] then true else checkmate s)
  ∧ stalemate s' = stalemate s.
Proof.
  intros H. unfold get_valid_moves, remove_selfchecks in H.
  apply bind_Some in H as (possible & Hp & H).
  apply bind_Some in H as ([s1 moves1] & Hloop & H). injection H as <- <-.
  apply remove_selfchecks_loop_flags in Hloop as [Hc Hs].
  rewrite check_game_state_never_sets_stalemate.
  split; [|done]. by destruct moves1.
Qed.

Lemma pixel_of_square sq :
  sq_ok sq.1 sq.2 →
  ((pixel_of sq).2 `div` chessMain.SQUARE_SIZE,
   (pixel_of sq).1 `div` chessMain.SQUARE_SIZE) = sq
  ∧ 0 ≤ (pixel_of sq).1 < chessMain.WIDTH
  ∧ 0 ≤ (pixel_of sq).2 < chessMain.HEIGHT.
Proof.
  destruct sq as [r c]. unfold pixel_of. simpl.
  change chessMain.SQUARE_SIZE with 64. change chessMain.WIDTH with 512.
  change chessMain.HEIGHT with 512. intros [Hr Hc].
  rewrite !Z.div_mul by lia. split; [done|]. lia.
Qed.

Lemma frame_single IMAGES st event :
  chessMain.frame IMAGES st [event]
  = st1 ← chessMain.handle_event st event; chessMain.frame IMAGES st1 [].
Proof.
  unfold chessMain.frame. cbn [chessMain.for_each].
  by destruct (chessMain.handle_event st event).
Qed.

Lemma game_over_quiet st :
  stalemate (chessMain.gs st) = false → checkmate (chessMain.gs st) = false →
  chessMain.game_over st = st.
Proof. unfold chessMain.game_over. by intros -> ->. Qed.

Lemma frame_quiet st :
  reachable (chessMain.gs st) → chessMain.move_made st = false →
  stalemate (chessMain.gs st) = false → checkmate (chessMain.gs st) = false →
  ∃ st', chessMain.frame (chessMain.load_images ∅) st [] = Some st'
    ∧ chessMain.gs st' = chessMain.gs st
    ∧ chessMain.running st' = chessMain.running st
    ∧ chessMain.move_made st' = false
    ∧ chessMain.valid_moves st' = chessMain.valid_moves st
    ∧ chessMain.selected_square st' = chessMain.selected_square st
    ∧ chessMain.player_clicks st' = chessMain.player_clicks st.
Proof.
  intros Hr Hmade Hs Hc. unfold chessMain.frame.
  cbn [chessMain.for_each mbind option_bind]. rewrite Hmade.
  cbn [mbind option_bind]. cbv zeta. rewrite (game_over_quiet st Hs Hc).
  destruct (reachable_draw _ (chessMain.screen st) Hr) as [drawn ->].
  cbn [mbind option_bind]. eexists. split; [reflexivity|]. by rewrite Hmade.
Qed.

Lemma frame_made st s1 q moves :
  chessMain.gs st = s1 → reachable s1 → chessMain.move_made st = true →
  get_valid_moves s1 = Some (q, moves) →
  ∃ st', chessMain.frame (chessMain.load_images ∅) st [] = Some st'
    ∧ chessMain.gs st' = q
    ∧ (stalemate q = false → checkmate q = false →
       chessMain.running st' = chessMain.running st)
    ∧ chessMain.move_made st' = false
    ∧ chessMain.valid_moves st' = moves
    ∧ chessMain.selected_square st' = chessMain.selected_square st
    ∧ chessMain.player_clicks st' = chessMain.player_clicks st.
Proof.
  intros <- Hr Hmade Hq. unfold chessMain.frame.
  cbn [chessMain.for_each mbind option_bind]. rewrite Hmade, Hq.
  cbn [mbind option_bind]. cbv zeta.
  match goal with
  | |- context [chessMain.game_over ?st0] =>
      destruct (game_over_fields st0) as (Eg & Em & Ev & Es & Ep);
      rewrite Eg, Em, Ev, Es, Ep;
      pose proof (game_over_quiet st0) as Hquiet
  end.
  cbn [chessMain.gs chessMain.move_made chessMain.valid_moves
       chessMain.selected_square chessMain.player_clicks] in *.
  assert (reachable q) as Hrq by by eapply reach_query.
  match goal with
  | |- context [chessMain.draw_game_state _ ?scr q] =>
      destruct (reachable_draw q scr Hrq) as [drawn ->]
  end.
  cbn [mbind option_bind]. eexists. split; [reflexivity|].
  cbn [chessMain.gs chessMain.running chessMain.move_made chessMain.valid_moves
       chessMain.selected_square chessMain.player_clicks].
  split; [done|]. split; [|done].
  intros Hs Hc. by rewrite (Hquiet Hs Hc).
Qed.

Lemma main_loop_plays clicks :
  ∀ s st s',
    reachable s →
    get_valid_moves s = Some (chessMain.gs st, chessMain.valid_moves st) →
    checkmate s = false → stalemate s = false →
    (clicks ≠ [] → chessMain.running st = true) →
    chessMain.move_made st = false →
    chessMain.selected_square st = None → chessMain.player_clicks st = [] →
    Forall pair_ok clicks → play s clicks = Some s' →
    ∃ st', chessMain.main_loop (chessMain.load_images ∅) st (passes_of clicks)
           = Some st'
      ∧ get_valid_moves s' = Some (chessMain.gs st', chessMain.valid_moves st')
      ∧ chessMain.selected_square st' = None ∧ chessMain.player_clicks st' = [].
Proof.
  induction clicks as [|[start end_] rest IH];
    intros s st s' Hr Hq Hcm Hsm Hrun Hmade Hsel Hclicks Hok Hplay.
  - injection Hplay as <-. by exists st.
  - apply Forall_cons in Hok as [(Hstart & Hend & Hne) Hok]. simpl in Hstart, Hend, Hne.
    cbn [play] in Hplay. rewrite Hq in Hplay. cbn [mbind option_bind] in Hplay.
    apply bind_Some in Hplay as (s1 & Hclick & Hplay).
    unfold click_move in Hclick.
    apply bind_Some in Hclick as (move & Hmove & Hclick).
    destruct (find (MoveM.eqb move) (chessMain.valid_moves st)) as [stored|] eqn:Ef;
      [|done].
    pose proof (find_elem_of _ _ _ Ef) as Hin.
    destruct (get_valid_moves_flags_any _ _ _ Hq) as [Hcq Hsq].
    assert (checkmate (chessMain.gs st) = false) as Hcq'.
    { rewrite Hcq. destruct (chessMain.valid_moves st); [|done].
      by apply elem_of_nil in Hin. }
    assert (stalemate (chessMain.gs st) = false) as Hsq' by congruence.
    pose proof (reach_query _ _ _ Hr Hq) as Hrq.
    pose proof (reach_move _ _ _ _ _ Hr Hq Hin Hclick) as Hr1.
    destruct (make_move_flags _ _ _ _ Hclick) as [Hc1 Hs1].
    destruct (pixel_of_square start Hstart) as (Hp1 & Hw1).
    destruct (pixel_of_square end_ Hend) as (Hp2 & Hw2).
    (* the first click selects the start square *)
    assert (chessMain.handle_event st (chessMain.MOUSEBUTTONDOWN (pixel_of start))
            = Some (chessMain.Build_Loop (chessMain.gs st) (chessMain.running st)
                      (chessMain.move_made st) (chessMain.valid_moves st)
                      (Some start) [start] (chessMain.screen st)
                      (chessMain.logged st))) as E1.
    { cbn [chessMain.handle_event]. unfold chessMain.mouse_button_down. cbv zeta.
      rewrite Hp1, Hsel, Hclicks. rewrite decide_False by done. done. }
    destruct (frame_quiet _ Hrq Hmade Hsq' Hcq')
      as (st1 & F1 & G1 & R1 & M1 & V1 & S1 & P1).
    (* the second click makes the stored move *)
    cbn [passes_of mbind list_bind fst snd app].
    change (mbind _ rest) with (passes_of rest).
    cbn [chessMain.main_loop]. rewrite (Hrun ltac:(done)).
    rewrite frame_single, E1. cbn [mbind option_bind].
    destruct (frame_quiet
                (chessMain.Build_Loop (chessMain.gs st) (chessMain.running st)
                   (chessMain.move_made st) (chessMain.valid_moves st)
                   (Some start) [start] (chessMain.screen st) (chessMain.logged st))
                Hrq Hmade Hsq' Hcq')
      as (st2 & F2 & G2 & R2 & M2 & V2 & S2 & P2).
    cbn [chessMain.gs chessMain.running chessMain.move_made chessMain.valid_moves
         chessMain.selected_square chessMain.player_clicks] in *.
    rewrite F2. cbn [mbind option_bind]. rewrite R2, (Hrun ltac:(done)).
    rewrite frame_single.
    assert (∃ st3,
      chessMain.handle_event st2 (chessMain.MOUSEBUTTONDOWN (pixel_of end_))
      = Some st3
      ∧ chessMain.gs st3 = s1 ∧ chessMain.running st3 = true
      ∧ chessMain.move_made st3 = true
      ∧ chessMain.selected_square st3 = None ∧ chessMain.player_clicks st3 = [])
      as (st3 & E3 & G3 & R3 & M3 & S3 & P3).
    { cbn [chessMain.handle_event]. unfold chessMain.mouse_button_down. cbv zeta.
      rewrite Hp2, S2, P2. rewrite decide_False by congruence.
      cbn [app length Nat.eqb lookup list_lookup mbind option_bind].
      rewrite G2, Hmove. cbn [mbind option_bind]. rewrite V2, Ef, Hclick.
      cbn [mbind option_bind]. eexists. split; [reflexivity|].
      cbn. rewrite R2. split; [done|]. split; [by apply Hrun|done]. }
    rewrite E3. cbn [mbind option_bind].
    destruct (reachable_query _ Hr1) as (q1 & moves1 & Hq1 & Hrq1).
    destruct (frame_made st3 s1 q1 moves1 G3 Hr1 M3 Hq1)
      as (st4 & F4 & G4 & R4 & M4 & V4 & S4 & P4).
    rewrite F4. cbn [mbind option_bind].
    apply (IH s1 st4 s'); try done.
    + by rewrite G4, V4.
    + congruence.
    + congruence.
    + intros Hrest. rewrite R4, R3; [done| |].
      * destruct (get_valid_moves_flags_any _ _ _ Hq1) as [_ ->]. congruence.
      * destruct (get_valid_moves_flags_any _ _ _ Hq1) as [-> _].
        destruct rest as [|[start2 end2] rest]; [done|].
        cbn [play] in Hplay. rewrite Hq1 in Hplay. cbn [mbind option_bind] in Hplay.
        apply bind_Some in Hplay as (s2 & Hclick2 & _).
        unfold click_move in Hclick2.
        apply bind_Some in Hclick2 as (move2 & _ & Hclick2).
        destruct moves1; [done|]. congruence.
    + congruence.
    + congruence.
Qed.

(** A game given by pairs of clicks on different squares of the board,
    played through the main loop with one click in a pass: when the
    protocol of valid-move queries and stored moves plays the pairs, [main]
    does not raise, and it ends with the state and the valid moves a query
    gives in the state the protocol reaches, and with no square selected. *)
Theorem main_plays_the_clicks clicks s :
  Forall pair_ok clicks → play GameState_init clicks = Some s →
  ∃ st, chessMain.main (passes_of clicks) = Some st
    ∧ get_valid_moves s = Some (chessMain.gs st, chessMain.valid_moves st)
    ∧ chessMain.selected_square st = None ∧ chessMain.player_clicks st = [].
Proof.
  intros Hok Hplay. unfold chessMain.main. cbv zeta.
  destruct (reachable_query _ reach_init) as (q & moves & Hq & Hrq).
  rewrite Hq. cbn [mbind option_bind].
  apply (main_loop_plays clicks GameState_init _ s);
    [apply reach_init|exact Hq|reflexivity|reflexivity|reflexivity|reflexivity
    |reflexivity|reflexivity|exact Hok|exact Hplay].
Qed.

Lemma castling_moves_king_and_rook_witness :
  reachable (after italian_game)
  ∧ get_possible_moves (after italian_game) = Some (possible_after italian_game)
  ∧ move_OO ∈ possible_after italian_game
  ∧ secondary_move move_OO = Some move_Rf1
  ∧ ∃ s1 rook_col rook_to king_to between label,
      castle_side rook_col rook_to king_to between label
      ∧ make_move (after italian_game) move_OO true = Some s1
      ∧ ∀ r c, sq_ok r c →
          cell (board s1) r c
          = if decide ((r, c) = (back_row (after italian_game), king_to))
            then cell (board (after italian_game)) (back_row (after italian_game)) 4
            else if decide ((r, c) = (back_row (after italian_game), rook_to))
            then cell (board (after italian_game)) (back_row (after italian_game))
                   rook_col
            else if decide ((r, c) = (back_row (after italian_game), 4)
                            ∨ (r, c) = (back_row (after italian_game), rook_col))
            then ""%string
            else cell (board (after italian_game)) r c.
Proof.
  assert (reachable (after italian_game)) as H
    by (apply after_reachable; vm_compute; by eexists).
  assert (get_possible_moves (after italian_game)
          = Some (possible_after italian_game)) as H1 by (vm_compute; reflexivity).
  assert (move_OO ∈ possible_after italian_game) as H2 by solve_elem.
  split; [exact H|]. split; [exact H1|]. split; [exact H2|].
  split; [reflexivity|].
  exact (castling_moves_king_and_rook _ _ move_OO move_Rf1 H H1 H2 eq_refl).
Defined.

Lemma main_plays_the_clicks_witness :
  Forall pair_ok queen_sortie
  ∧ play GameState_init queen_sortie = Some (after queen_sortie)
  ∧ ∃ st, chessMain.main (passes_of queen_sortie) = Some st
      ∧ get_valid_moves (after queen_sortie)
        = Some (chessMain.gs st, chessMain.valid_moves st)
      ∧ chessMain.selected_square st = None ∧ chessMain.player_clicks st = [].
Proof.
  assert (Forall pair_ok queen_sortie) as H
    by (repeat constructor; simpl; first [lia | congruence]).
  assert (play GameState_init queen_sortie = Some (after queen_sortie)) as H1
    by (vm_compute; reflexivity).
  split; [exact H|]. split; [exact H1|].
  exact (main_plays_the_clicks _ _ H H1).
Defined.

(** ** An ordinary move on the board *)

(** Making a move of the list of [get_possible_moves] that is not a
    castling move, in a game played from the initial position: the piece
    that stood on the start square stands on the end square, unchanged (a
    pawn stays a pawn on any row), the start square and the captured square
    are empty, and no other square changes. *)
Theorem ordinary_move_on_board s moves m :
  reachable s → get_possible_moves s = Some moves → m ∈ moves →
  secondary_move m = None →
  ∃ s1, make_move s m true = Some s1
    ∧ ∀ r c, sq_ok r c →
        cell (board s1) r c
        = if decide ((r, c) = (endRow m, endCol m))
          then cell (board s) (startRow m) (startCol m)
          else if decide ((r, c) = (startRow m, startCol m)
                          ∨ (r, c) = (piece_captured_row m, piece_captured_col m))
          then ""%string
          else cell (board s) r c.
Proof.
  intros Hr Hposs Hin Hsec.
  pose proof (reachable_inv s Hr) as Hinv.
  assert (pseudo s m) as Hps.
  { apply get_possible_moves_sound in Hposs. rewrite Forall_forall in Hposs.
    by apply Hposs. }
  pose proof (pseudo_move_ok s m Hinv Hps) as Hok.
  destruct (make_move_spec s m (inv_wf s Hinv) Hok) as (s1 & E & _ & Hcells & _).
  exists s1. split; [done|].
  destruct (pseudo_shape s m Hinv Hps) as (_ & Hpm & _).
  intros r c Hsq. rewrite Hcells by done.
  unfold written. rewrite Hsec. unfold written1, upd. rewrite Hpm.
  repeat case_decide; try done; intuition congruence.
Qed.

(** Every move of the list of [get_possible_moves] that is not a castling
    move starts on a square that holds a piece of the side to move, and
    records that piece as the piece moved. *)
Theorem only_own_pieces_move s moves m :
  get_possible_moves s = Some moves → m ∈ moves →
  secondary_move m = None →
  board_get (board s) (startRow m) (startCol m) = Some (piece_moved m)
  ∧ Py.startswith (piece_moved m) (turn_colour s) = true.
Proof.
  intros Hposs Hin Hsec.
  pose proof (generated_elem s moves m Hposs Hin) as Hgen.
  generated_cases Hgen;
    try (pose proof Hown as (_ & _ & p & Hp & _);
         destruct (init_own _ _ _ _ _ _ _ _ _ _ Hown Hm)
           as (Hsr' & Hsc' & _ & _ & _ & Hst' & _);
         apply init_fields in Hm as (_ & _ & _ & _ & _ & _ & Hget & _);
         by rewrite Hsr', Hsc').
  by rewrite (castle_has_secondary _ _ _ _ _ label Hking) in Hsec.
Qed.

Lemma ordinary_move_on_board_witness :
  reachable (after white_passing_game)
  ∧ get_possible_moves (after white_passing_game)
    = Some (possible_after white_passing_game)
  ∧ move_exd6 ∈ possible_after white_passing_game
  ∧ ∃ s1, make_move (after white_passing_game) move_exd6 true = Some s1
      ∧ ∀ r c, sq_ok r c →
          cell (board s1) r c
          = if decide ((r, c) = (endRow move_exd6, endCol move_exd6))
            then cell (board (after white_passing_game))
                   (startRow move_exd6) (startCol move_exd6)
            else if decide ((r, c) = (startRow move_exd6, startCol move_exd6)
                            ∨ (r, c) = (piece_captured_row move_exd6,
                                        piece_captured_col move_exd6))
            then ""%string
            else cell (board (after white_passing_game)) r c.
Proof.
  assert (reachable (after white_passing_game)) as H
    by (apply after_reachable; vm_compute; by eexists).
  assert (get_possible_moves (after white_passing_game)
          = Some (possible_after white_passing_game))
    as H1 by (vm_compute; reflexivity).
  assert (move_exd6 ∈ possible_after white_passing_game) as H2 by solve_elem.
  split; [exact H|]. split; [exact H1|]. split; [exact H2|].
  exact (ordinary_move_on_board _ _ move_exd6 H H1 H2 eq_refl).
Defined.

Lemma only_own_pieces_move_witness :
  get_possible_moves (after quiet_game) = Some (possible_after quiet_game)
  ∧ move_dxe3 ∈ possible_after quiet_game
  ∧ board_get (board (after quiet_game)) (startRow move_dxe3) (startCol move_dxe3)
    = Some (piece_moved move_dxe3)
  ∧ Py.startswith (piece_moved move_dxe3) (turn_colour (after quiet_game)) = true.
Proof.
  assert (get_possible_moves (after quiet_game) = Some (possible_after quiet_game))
    as H1 by (vm_compute; reflexivity).
  assert (move_dxe3 ∈ possible_after quiet_game) as H2 by solve_elem.
  split; [exact H1|]. split; [exact H2|].
  exact (only_own_pieces_move _ _ move_dxe3 H1 H2 eq_refl).
Defined.
